(** * openDCM cluster graph: identifiers, descriptors and cluster operations

    Shallow embedding of [src/Mod/Assembly/App/opendcm/core/clustergraph.hpp]
    (FreeCAD, Assembly module) and the properties stated about it. *)

From Stdlib Require Import ZArith List Lia Bool Permutation Morphisms Sorted.
From AAC_tactics Require Import AAC.
From AAC_tactics Require Instances.
Import Instances.Lists.
Import ListNotations.
Open Scope Z_scope.

(** ** Machine integers

    [universalID] is a C++ [int]: 32 bits, two's complement.  Incrementing past
    [INT_MAX] is written out as the wrap-around the hardware performs (the
    language standard leaves that case undefined; whatever an implementation
    does there, the result is an [int] and so cannot exceed [INT_MAX]). *)

Definition INT_MIN : Z := -2147483648.
Definition INT_MAX : Z := 2147483647.

Definition is_int (z : Z) : Prop := INT_MIN <= z <= INT_MAX.

Definition wrap_int (z : Z) : Z := (z - INT_MIN) mod 4294967296 + INT_MIN.

Module details.

(** [typedef int universalID;] *)
Definition universalID : Type := Z.

(** [struct IDgen { universalID* counter; ... }]: one heap cell holding the
    counter.  The generator is shared by pointer between all clusters of a
    tree, so a tree carries exactly one value of this type and every
    operation threads it. *)
Record IDgen : Type := mkIDgen { counter : universalID }.

(** [IDgen() { counter = new universalID(10); }] *)
Definition IDgen_new : IDgen := mkIDgen 10.

(** [IDgen(universalID id) { counter = new universalID(id); }] *)
Definition IDgen_from (id : universalID) : IDgen := mkIDgen id.

(** [universalID generate()]: pre-increments the cell and returns it.
    The pair is the returned value and the state afterwards. *)
Definition generate (g : IDgen) : universalID * IDgen :=
  let c := wrap_int (counter g + 1) in (c, mkIDgen c).

(** [universalID count()]: returns the content of the cell. *)
Definition count (g : IDgen) : universalID := counter g.

(** [void setCount(universalID id)]: stores [id] in the cell. *)
Definition setCount (id : universalID) (g : IDgen) : IDgen := mkIDgen id.

(** *** Sequences of calls on one generator *)

Inductive call : Type :=
| Generate
| Count
| SetCount (id : universalID).

(** What an observer of the generator knows: its state and the values
    [generate()] has returned so far, most recent first. *)
Record observed : Type := mkObserved {
  gen : IDgen;
  issued : list universalID
}.

Definition start (g : IDgen) : observed := mkObserved g [].

Definition do_call (s : observed) (c : call) : observed :=
  match c with
  | Generate => let (id, g') := generate (gen s) in mkObserved g' (id :: issued s)
  | Count => s
  | SetCount id => mkObserved (setCount id (gen s)) (issued s)
  end.

Definition run (cs : list call) (s : observed) : observed :=
  fold_left do_call cs s.

Definition is_setCount (c : call) : bool :=
  match c with SetCount _ => true | _ => false end.

Definition no_setCount (cs : list call) : bool :=
  forallb (fun c => negb (is_setCount c)) cs.

(** The value of the most recent [generate()] call, if there was one. *)
Definition last_generated (s : observed) : option universalID :=
  match issued s with
  | [] => None
  | id :: _ => Some id
  end.

(** The last call of a sequence that writes the counter. *)
Fixpoint last_write (cs : list call) : option call :=
  match cs with
  | [] => None
  | c :: cs' =>
      match last_write cs' with
      | Some w => Some w
      | None => match c with Count => None | _ => Some c end
      end
  end.

(** The number of [generate()] calls in a sequence. *)
Fixpoint count_generate (cs : list call) : nat :=
  match cs with
  | [] => 0%nat
  | Generate :: cs' => S (count_generate cs')
  | _ :: cs' => count_generate cs'
  end.

(** A sequence of calls, started in state [g], in which the increment of
    [generate()] never leaves the range of [int] and every [setCount(n)]
    moves the counter forward (or leaves it where it is). *)
Fixpoint forward_run (cs : list call) (g : IDgen) : bool :=
  match cs with
  | [] => true
  | Generate :: cs' => (counter g <? INT_MAX) && forward_run cs' (snd (generate g))
  | Count :: cs' => forward_run cs' g
  | SetCount n :: cs' =>
      (counter g <=? n) && (n <=? INT_MAX) && forward_run cs' (setCount n g)
  end.

End details.

Import details.

(** [struct GlobalEdge { GlobalVertex source; GlobalVertex target; universalID ID; }] *)
Definition GlobalVertex : Type := universalID.

Record GlobalEdge : Type := mkGlobalEdge {
  source : GlobalVertex;
  target : GlobalVertex;
  ID : universalID
}.

(** [bool operator==(const GlobalEdge& second) const { return ID == second.ID; }] *)
Definition GlobalEdge_eqb (a b : GlobalEdge) : bool := ID a =? ID b.

(** [bool operator!=(const GlobalEdge& second) const { return ID != second.ID; }] *)
Definition GlobalEdge_neqb (a b : GlobalEdge) : bool := negb (ID a =? ID b).

(** [bool valid() { return ID > 9; }] *)
Definition valid (e : GlobalEdge) : bool := ID e >? 9.

(** [GlobalEdge()]: the value-initialised edge returned by failed calls. *)
Definition GlobalEdge_default : GlobalEdge := mkGlobalEdge 0 0 0.

(** ** Local descriptors

    [LocalVertex] and [LocalEdge] are the descriptors of the underlying
    adjacency list (list storage for vertices and edges): opaque handles,
    meaningful inside one cluster only.  A vertex handle is a number, 0
    standing for the null descriptor; an edge descriptor carries the two
    vertices it connects, as the library's does, and since the graph is
    undirected it is looked up in either orientation. *)

Definition LocalVertex : Type := nat.

Record LocalEdge : Type := mkLocalEdge {
  le_source : LocalVertex;
  le_target : LocalVertex
}.

Definition LocalVertex_null : LocalVertex := 0%nat.
Definition LocalEdge_null : LocalEdge := mkLocalEdge 0%nat 0%nat.

Definition connects (a b : LocalVertex) (e : LocalEdge) : bool :=
  (Nat.eqb (le_source e) a && Nat.eqb (le_target e) b)
  || (Nat.eqb (le_source e) b && Nat.eqb (le_target e) a).

Definition incident (v : LocalVertex) (e : LocalEdge) : bool :=
  Nat.eqb (le_source e) v || Nat.eqb (le_target e) v.

Definition other_end (v : LocalVertex) (e : LocalEdge) : LocalVertex :=
  if Nat.eqb (le_source e) v then le_target e else le_source e.

(** ** Association lists with first-match lookup

    Used for the vertex list and for [m_clusters] (a [std::map] keyed by
    local vertex). *)

Section Assoc.

Variable V : Type.

Fixpoint assoc_find (k : nat) (l : list (nat * V)) : option V :=
  match l with
  | [] => None
  | (k', x) :: l' => if Nat.eqb k' k then Some x else assoc_find k l'
  end.

Fixpoint assoc_remove (k : nat) (l : list (nat * V)) : list (nat * V) :=
  match l with
  | [] => []
  | (k', x) :: l' => if Nat.eqb k' k then l' else (k', x) :: assoc_remove k l'
  end.

Fixpoint assoc_replace (k : nat) (y : V) (l : list (nat * V)) : list (nat * V) :=
  match l with
  | [] => []
  | (k', x) :: l' =>
      if Nat.eqb k' k then (k', y) :: l' else (k', x) :: assoc_replace k y l'
  end.

Definition assoc_mem (k : nat) (l : list (nat * V)) : bool :=
  existsb (fun p => Nat.eqb (fst p) k) l.

(** The first entry whose value passes a test, and the list with that entry
    updated. *)
Variable test : V -> bool.

Fixpoint assoc_first (l : list (nat * V)) : option (nat * V) :=
  match l with
  | [] => None
  | (k, x) :: l' => if test x then Some (k, x) else assoc_first l'
  end.

Variable upd : V -> V.

Fixpoint assoc_update_first (l : list (nat * V)) : list (nat * V) :=
  match l with
  | [] => []
  | (k, x) :: l' =>
      if test x then (k, upd x) :: l' else (k, x) :: assoc_update_first l'
  end.

End Assoc.

Arguments assoc_find {V}.
Arguments assoc_remove {V}.
Arguments assoc_replace {V}.
Arguments assoc_mem {V}.
Arguments assoc_first {V}.
Arguments assoc_update_first {V}.

(** ** Generators on the heap

    [typedef std::shared_ptr<IDgen> IDpointer;]: clusters hold their
    generator by shared pointer.  The live generators are kept by address; a
    generator is destroyed when the last pointer to it goes away. *)

Definition IDpointer : Type := nat.

Definition GenStore : Type := list (IDpointer * IDgen).

(** An address no live generator has. *)
Definition fresh_pointer (h : GenStore) : IDpointer :=
  S (list_max (map fst h)).

(** [new details::IDgen], owned by one shared pointer. *)
Definition new_IDgen (h : GenStore) : IDpointer * GenStore :=
  let p := fresh_pointer h in (p, h ++ [(p, IDgen_new)]).

(** The only pointer to the generator at [p] is dropped: [~IDgen()] runs. *)
Definition release (p : IDpointer) (h : GenStore) : GenStore :=
  assoc_remove p h.

(** [m_id->generate()], [m_id->count()] and [m_id->setCount(id)]: the calls
    of [IDgen] through a pointer; there is no result for a pointer that is not
    live. *)
Definition generate_at (p : IDpointer) (h : GenStore) : option (universalID * GenStore) :=
  match assoc_find p h with
  | Some g => let (id, g') := generate g in Some (id, assoc_replace p g' h)
  | None => None
  end.

Definition count_at (p : IDpointer) (h : GenStore) : option universalID :=
  option_map count (assoc_find p h).

Definition setCount_at (p : IDpointer) (id : universalID) (h : GenStore) : option GenStore :=
  match assoc_find p h with
  | Some g => Some (assoc_replace p (setCount id g) h)
  | None => None
  end.

(** [ClusterGraph() : m_id(new details::IDgen) {}]: what the basic
    constructor does to the generators; the result is the [m_id] of the new
    cluster. *)
Definition ClusterGraph_ctor (h : GenStore) : IDpointer * GenStore :=
  new_IDgen h.

(** [ClusterGraph(std::shared_ptr<ClusterGraph> g) : m_parent(g),
    m_id(new details::IDgen) { if(g) m_id = g->m_id; }]: the member
    initialiser allocates a generator; for a non-null [g] the assignment then
    replaces the pointer by the parent's, which drops the only pointer to the
    generator just allocated.  [parent] is [Some (g->m_id)] for a non-null
    [g] and [None] for a null one. *)
Definition ClusterGraph_ctor_from (parent : option IDpointer) (h : GenStore)
  : IDpointer * GenStore :=
  let (tmp, h1) := new_IDgen h in
  match parent with
  | Some p => (p, release tmp h1)
  | None => (tmp, h1)
  end.

(** The two pointer members a constructor sets: [m_parent] (the position of
    the parent among the clusters constructed so far, none for a null
    pointer) and [m_id]. *)
Record cluster_head : Type := mkClusterHead {
  m_parent : option nat;
  m_id : IDpointer
}.

(** Was the cluster constructed without a parent? *)
Definition is_parentless (c : cluster_head) : bool :=
  match m_parent c with None => true | Some _ => false end.

(** The generators and clusters that exist after a sequence of constructor
    calls and of calls on the generators of the clusters constructed. *)
Inductive constructed : GenStore -> list cluster_head -> Prop :=
| constructed_nothing : constructed [] []
| constructed_root h cs :
    constructed h cs ->
    constructed (snd (ClusterGraph_ctor h))
      (cs ++ [mkClusterHead None (fst (ClusterGraph_ctor h))])
| constructed_orphan h cs :
    constructed h cs ->
    constructed (snd (ClusterGraph_ctor_from None h))
      (cs ++ [mkClusterHead None (fst (ClusterGraph_ctor_from None h))])
| constructed_child h cs j parent :
    constructed h cs ->
    nth_error cs j = Some parent ->
    constructed (snd (ClusterGraph_ctor_from (Some (m_id parent)) h))
      (cs ++ [mkClusterHead (Some j)
                (fst (ClusterGraph_ctor_from (Some (m_id parent)) h))])
| constructed_generate h cs i c id h' :
    constructed h cs ->
    nth_error cs i = Some c ->
    generate_at (m_id c) h = Some (id, h') ->
    constructed h' cs
| constructed_setCount h cs i c n h' :
    constructed h cs ->
    nth_error cs i = Some c ->
    setCount_at (m_id c) n h = Some h' ->
    constructed h' cs.

(** ** The cluster graph *)

Local Set Warnings "-register-all".

Section ClusterGraph.

(** The attribute registry: the property tuples of vertices, local edges and
    clusters and the tuple of object pointers, each with its
    default-constructed value.  The [changed_prop] cluster property, which
    the class always adds, is kept apart as a field of its own. *)
Variables vertex_props edge_props cluster_props object_slots : Type.
Variable default_vertex_props : vertex_props.
Variable default_edge_props : edge_props.
Variable default_cluster_props : cluster_props.
Variable empty_objects : object_slots.

(** [typedef fusion::vector<GlobalVertex, properties, objects> vertex_bundle] *)
Record vertex_bundle : Type := mkVertexBundle {
  vb_global : GlobalVertex;
  vb_props : vertex_props;
  vb_objects : object_slots
}.

(** [typedef fusion::vector<objects, GlobalEdge> edge_bundle_single] *)
Record edge_bundle_single : Type := mkEdgeSingle {
  es_objects : object_slots;
  es_global : GlobalEdge
}.

(** [typedef fusion::vector<properties, std::vector<edge_bundle_single> > edge_bundle] *)
Record edge_bundle : Type := mkEdgeBundle {
  eb_props : edge_props;
  eb_singles : list edge_bundle_single
}.

(** [class ClusterGraph]: the adjacency list (vertices and edges with their
    bundles, in storage order), the map of subclusters, the cluster
    properties with the changed flag, and [copy_mode].  [m_parent] is the
    enclosing node of the tree and [m_id] the one generator of the tree. *)
Inductive ClusterGraph : Type := mkClusterGraph {
  g_vertices : list (LocalVertex * vertex_bundle);
  g_edges : list (LocalEdge * edge_bundle);
  m_clusters : list (LocalVertex * ClusterGraph);
  c_props : cluster_props;
  changed : bool;
  copy_mode : bool
}.

(** [ClusterGraph()]: an empty cluster with default-constructed cluster
    properties.  Neither constructor initialises [copy_mode], so the value
    the flag happens to have is an argument; [setCopyMode] is what fixes
    it. *)
Definition ClusterGraph_new (copy_mode0 : bool) : ClusterGraph :=
  mkClusterGraph [] [] [] default_cluster_props false copy_mode0.

Definition set_vertices (vs : list (LocalVertex * vertex_bundle)) (c : ClusterGraph) :=
  mkClusterGraph vs (g_edges c) (m_clusters c) (c_props c) (changed c) (copy_mode c).

Definition set_edges (es : list (LocalEdge * edge_bundle)) (c : ClusterGraph) :=
  mkClusterGraph (g_vertices c) es (m_clusters c) (c_props c) (changed c) (copy_mode c).

Definition set_clusters (cl : list (LocalVertex * ClusterGraph)) (c : ClusterGraph) :=
  mkClusterGraph (g_vertices c) (g_edges c) cl (c_props c) (changed c) (copy_mode c).

(** Modelled from the spec: the body of [setChanged()] is not in the header.
    A structural mutation marks the performing cluster as changed unless
    copy mode is on. *)
Definition setChanged (c : ClusterGraph) : ClusterGraph :=
  if copy_mode c then c
  else mkClusterGraph (g_vertices c) (g_edges c) (m_clusters c) (c_props c) true false.

(** Modelled from the spec: the bodies of [isCluster] and [getVertexCluster]
    are not in the header.  Lookup in the map of subclusters. *)
Definition isCluster (v : LocalVertex) (c : ClusterGraph) : bool :=
  assoc_mem v (m_clusters c).

Definition getVertexCluster (v : LocalVertex) (c : ClusterGraph) : option ClusterGraph :=
  assoc_find v (m_clusters c).

(** The bundle the adjacency list stores at a local vertex (the library's
    [graph[v]]), if the handle is one of the cluster. *)
Definition vertex_bundle_of (v : LocalVertex) (c : ClusterGraph) : option vertex_bundle :=
  assoc_find v (g_vertices c).

(** The library's [add_vertex] hands out a handle that no vertex of the
    cluster uses. *)
Definition fresh_vertex (c : ClusterGraph) : LocalVertex :=
  S (list_max (map fst (g_vertices c))).

(** What is reachable from a cluster: all vertex bundles and all
    global-edge bundles held in it and in its subclusters. *)
Fixpoint all_vertex_bundles (c : ClusterGraph) : list vertex_bundle :=
  map snd (g_vertices c)
  ++ flat_map (fun p => all_vertex_bundles (snd p)) (m_clusters c).

Fixpoint all_edge_singles (c : ClusterGraph) : list edge_bundle_single :=
  flat_map (fun p => eb_singles (snd p)) (g_edges c)
  ++ flat_map (fun p => all_edge_singles (snd p)) (m_clusters c).

Definition global_vertices (c : ClusterGraph) : list GlobalVertex :=
  map vb_global (all_vertex_bundles c).

Definition global_edges (c : ClusterGraph) : list GlobalEdge :=
  map es_global (all_edge_singles c).

(** Modelled from the spec: the body of [getContainingVertex] (with
    [recursive = true], which is what [getLocalVertex] uses) is not in the
    header.  The cluster's own vertices are searched first; if the global
    vertex is not among them the subclusters are searched, and a hit inside a
    subcluster is reported as the local vertex that represents that
    subcluster.  The search fails if the id is absent from the subtree. *)
Fixpoint getContainingVertex (id : GlobalVertex) (c : ClusterGraph) : LocalVertex * bool :=
  match find (fun p => vb_global (snd p) =? id) (g_vertices c) with
  | Some (v, _) => (v, true)
  | None =>
      match assoc_first (fun sub => snd (getContainingVertex id sub)) (m_clusters c) with
      | Some (cv, _) => (cv, true)
      | None => (LocalVertex_null, false)
      end
  end.

(** Modelled from the spec: the body of [getLocalVertex] is not in the
    header.  It is the search above; the global vertex has to be in this
    cluster or any of its subclusters. *)
Definition getLocalVertex (id : GlobalVertex) (c : ClusterGraph) : LocalVertex * bool :=
  getContainingVertex id c.

(** *** Creation

    A method of the class reads and writes the cluster it is called on and
    the shared generator; it is a function from both to its result and both
    afterwards. *)

(** Modelled from the spec: the body of [addVertex()] is not in the header.
    A global vertex is minted and a fresh bundle with default properties and
    empty objects is inserted; the local and the global descriptor are
    returned. *)
Definition addVertex (g : IDgen) (c : ClusterGraph)
  : (LocalVertex * GlobalVertex) * IDgen * ClusterGraph :=
  let (id, g') := generate g in
  let v := fresh_vertex c in
  let vb := mkVertexBundle id default_vertex_props empty_objects in
  ((v, id), g', setChanged (set_vertices (g_vertices c ++ [(v, vb)]) c)).

(** Modelled from the spec: the body of [createCluster()] is not in the
    header.  A child cluster sharing the generator is allocated, a new local
    vertex stands for it and the map entry is registered. *)
Definition createCluster (g : IDgen) (c : ClusterGraph)
  : LocalVertex * IDgen * ClusterGraph :=
  let (id, g') := generate g in
  let v := fresh_vertex c in
  let vb := mkVertexBundle id default_vertex_props empty_objects in
  let child := mkClusterGraph [] [] [] default_cluster_props false (copy_mode c) in
  (v, g',
   setChanged
     (set_clusters (m_clusters c ++ [(v, child)])
        (set_vertices (g_vertices c ++ [(v, vb)]) c))).

(** Modelled from the spec: the body of [edge] is not in the header, whose
    comment says it is the library's edge lookup between two local vertices
    of the undirected graph. *)
Definition edge (a b : LocalVertex) (c : ClusterGraph) : LocalEdge * bool :=
  match find (fun p => connects a b (fst p)) (g_edges c) with
  | Some (e, _) => (e, true)
  | None => (LocalEdge_null, false)
  end.

(** The bundle the adjacency list stores at a local edge (the library's
    [graph[e]]). *)
Definition edge_bundle_of (e : LocalEdge) (c : ClusterGraph) : option edge_bundle :=
  option_map snd
    (find (fun p => connects (le_source e) (le_target e) (fst p)) (g_edges c)).

(** Modelled from the spec: the aggregation step of [addEdge] and of the
    moves, whose bodies are not in the header.  Global-edge bundles are
    appended to the local edge between [a] and [b]; that local edge is
    created, with default properties, when there is none. *)
Fixpoint push_singles (a b : LocalVertex) (ss : list edge_bundle_single)
    (es : list (LocalEdge * edge_bundle)) : list (LocalEdge * edge_bundle) :=
  match es with
  | [] => [(mkLocalEdge a b, mkEdgeBundle default_edge_props ss)]
  | (e, eb) :: es' =>
      if connects a b e
      then (e, mkEdgeBundle (eb_props eb) (eb_singles eb ++ ss)) :: es'
      else (e, eb) :: push_singles a b ss es'
  end.

(** Modelled from the spec: the body of [addEdge(LocalVertex, LocalVertex)]
    is not in the header.  The call fails when both vertices are the same,
    when one of them stands for a cluster (the header's comment) or is not a
    vertex of the cluster.  Otherwise a new global edge is appended to the
    local edge that connects them, or a new local edge holding it is
    created.  A failed call has no effect. *)
Definition addEdge (a b : LocalVertex) (g : IDgen) (c : ClusterGraph)
  : (LocalEdge * GlobalEdge * bool) * IDgen * ClusterGraph :=
  if Nat.eqb a b || isCluster a c || isCluster b c
  then ((LocalEdge_null, GlobalEdge_default, false), g, c)
  else
    match vertex_bundle_of a c, vertex_bundle_of b c with
    | Some va, Some vb =>
        let (id, g') := generate g in
        let global := mkGlobalEdge (vb_global va) (vb_global vb) id in
        let s := mkEdgeSingle empty_objects global in
        let c' := setChanged (set_edges (push_singles a b [s] (g_edges c)) c) in
        ((fst (edge a b c'), global, true), g', c')
    | _, _ => ((LocalEdge_null, GlobalEdge_default, false), g, c)
    end.

(** Modelled from the spec: the body of [getGlobalEdgeCount] is not in the
    header.  The number of global edges the local edge holds. *)
Definition getGlobalEdgeCount (e : LocalEdge) (c : ClusterGraph) : Z :=
  match edge_bundle_of e c with
  | Some eb => Z.of_nat (length (eb_singles eb))
  | None => 0
  end.

(** *** Removing a global edge

    Modelled from the spec: the bodies of [removeEdge(GlobalEdge)],
    [getContainingEdge] and [getContainingEdgeGraph] are not in the header.
    The definitions of this part follow the spec's description of
    [removeEdge]. *)

(** The id of the global edge of an aggregated entry. *)
Definition edge_id (s : edge_bundle_single) : universalID := ID (es_global s).

(** Modelled from the spec: edge translation searches the aggregated list of
    a local edge, comparing global edges with [operator==]. *)
Definition holds (id : GlobalEdge) (eb : edge_bundle) : bool :=
  existsb (fun s => GlobalEdge_eqb (es_global s) id) (eb_singles eb).

(** Modelled from the spec: dropping the aggregated entry of a global edge
    from a list. *)
Definition drop_global (id : GlobalEdge) (ss : list edge_bundle_single)
  : list edge_bundle_single :=
  filter (fun s => negb (GlobalEdge_eqb (es_global s) id)) ss.

(** Modelled from the spec: is the global edge held somewhere in the cluster
    or its subclusters? *)
Fixpoint holds_in_subtree (id : GlobalEdge) (c : ClusterGraph) : bool :=
  existsb (fun p => holds id (snd p)) (g_edges c)
  || existsb (fun p => holds_in_subtree id (snd p)) (m_clusters c).

(** Modelled from the spec: in the first local edge that holds [id], drop
    that entry, and drop the local edge when nothing remains. *)
Fixpoint remove_global (id : GlobalEdge) (es : list (LocalEdge * edge_bundle))
  : list (LocalEdge * edge_bundle) :=
  match es with
  | [] => []
  | (e, eb) :: es' =>
      if holds id eb then
        match drop_global id (eb_singles eb) with
        | [] => es'
        | ss => (e, mkEdgeBundle (eb_props eb) ss) :: es'
        end
      else (e, eb) :: remove_global id es'
  end.

(** Modelled from the spec: the bodies of [removeEdge(GlobalEdge)] and
    [getContainingEdgeGraph] are not in the header.  The owning local edge is
    located in the cluster or, failing that, in the first subcluster whose
    subtree holds it; only that aggregated entry is dropped, and the local
    edge is removed when its list becomes empty. *)
Fixpoint remove_in_subtree (id : GlobalEdge) (c : ClusterGraph) : ClusterGraph :=
  if existsb (fun p => holds id (snd p)) (g_edges c)
  then set_edges (remove_global id (g_edges c)) c
  else
    set_clusters
      (assoc_update_first (holds_in_subtree id) (remove_in_subtree id) (m_clusters c)) c.

(** Modelled from the spec: [void removeEdge(GlobalEdge id)].  Nothing
    happens when the global edge is not in the subtree; otherwise the entry
    is removed as above and, as for every structural mutation, the cluster the
    method is called on is marked changed. *)
Definition removeEdge (id : GlobalEdge) (c : ClusterGraph) : ClusterGraph :=
  if holds_in_subtree id c then setChanged (remove_in_subtree id c) else c.

(** *** The tree and calls on its clusters *)

(** A cluster of the tree is addressed by the local vertices that lead to it
    from the root. *)
Definition path : Type := list LocalVertex.

Fixpoint cluster_at (p : path) (c : ClusterGraph) : option ClusterGraph :=
  match p with
  | [] => Some c
  | v :: p' =>
      match getVertexCluster v c with
      | Some sub => cluster_at p' sub
      | None => None
      end
  end.

Fixpoint replace_at (p : path) (new : ClusterGraph) (c : ClusterGraph) : ClusterGraph :=
  match p with
  | [] => new
  | v :: p' =>
      match getVertexCluster v c with
      | Some sub => set_clusters (assoc_replace v (replace_at p' new sub) (m_clusters c)) c
      | None => c
      end
  end.

(** The whole state: the shared generator and the root cluster. *)
Record Tree : Type := mkTree {
  t_id : IDgen;
  t_root : ClusterGraph
}.

(** Calling a method on the cluster at [p]; [None] when there is no such
    cluster. *)
Definition call_on {R : Type} (p : path)
    (method : IDgen -> ClusterGraph -> R * IDgen * ClusterGraph) (t : Tree)
  : option (R * Tree) :=
  match cluster_at p (t_root t) with
  | Some c =>
      let '(r, g', c') := method (t_id t) c in
      Some (r, mkTree g' (replace_at p c' (t_root t)))
  | None => None
  end.

(** A call that can fail without a result slot of its own; a failed call
    leaves the tree as it was. *)
Definition move_on (p : path)
    (method : ClusterGraph -> option (LocalVertex * ClusterGraph)) (t : Tree)
  : option LocalVertex * Tree :=
  match cluster_at p (t_root t) with
  | Some c =>
      match method c with
      | Some (nv, c') => (Some nv, mkTree (t_id t) (replace_at p c' (t_root t)))
      | None => (None, t)
      end
  | None => (None, t)
  end.

(** *** Moving vertices between a cluster and its subclusters *)

(** Modelled from the spec: the moves ([moveToSubcluster], [moveToParent])
    re-home global edges; their bodies are not in the header.  Each
    global-edge bundle is paired with the local vertex it is to be attached
    to; if one of them cannot be resolved there is no result at all. *)
Fixpoint resolve_all (f : edge_bundle_single -> option LocalVertex)
    (ss : list edge_bundle_single) : option (list (LocalVertex * edge_bundle_single)) :=
  match ss with
  | [] => Some []
  | s :: ss' =>
      match f s, resolve_all f ss' with
      | Some u, Some rest => Some ((u, s) :: rest)
      | _, _ => None
      end
  end.

(** Modelled from the spec: every global-edge bundle is attached to the
    local edge between [nv] and the vertex it was resolved to (a new or an
    existing local edge). *)
Definition place_all (nv : LocalVertex) (placed : list (LocalVertex * edge_bundle_single))
    (es : list (LocalEdge * edge_bundle)) : list (LocalEdge * edge_bundle) :=
  fold_left (fun acc q => push_singles nv (fst q) [snd q] acc) placed es.

(** Modelled from the spec: the local vertex of [c] that holds the endpoint
    of [s] which is not the moved vertex [nv]. *)
Definition resolve_other (nv : LocalVertex) (c : ClusterGraph) (s : edge_bundle_single)
  : option LocalVertex :=
  let ge := es_global s in
  let far :=
    if Nat.eqb (fst (getContainingVertex (source ge) c)) nv then target ge else source ge in
  match getContainingVertex far c with
  | (u, true) => Some u
  | (_, false) => None
  end.

(** Modelled from the spec (first step of [moveToSubcluster]): the
    subcluster [cg] once the vertex [v] of its parent [c] has got its new
    local vertex there, with the same bundle and, when it stands for a
    cluster, the same subcluster; the edges are still to be re-homed. *)
Definition vertex_lowered (v : LocalVertex) (c cg : ClusterGraph) (vb : vertex_bundle)
  : ClusterGraph :=
  let nv := fresh_vertex cg in
  let moved :=
    match getVertexCluster v c with Some m => [(nv, m)] | None => [] end in
  set_clusters (m_clusters cg ++ moved)
    (set_vertices (g_vertices cg ++ [(nv, vb)]) cg).

(** Modelled from the spec: the body of [moveToSubcluster] is not in the
    header.  [v] is relocated into the direct subcluster that [Cv] stands
    for: a new local vertex there carries the same bundle (and the same
    subcluster, when [v] stands for one), the old local vertex is removed.
    The global edges of every incident local edge keep their identity: those
    whose other endpoint lies in the destination go to a local edge inside
    the destination, the others to the local edge between that endpoint and
    [Cv] in this cluster.  The call fails, with no effect, when [v] is not a
    vertex, [Cv] not a subcluster, both are the same, or an endpoint cannot be
    resolved. *)
Definition moveToSubcluster (v Cv : LocalVertex) (c : ClusterGraph)
  : option (LocalVertex * ClusterGraph) :=
  if Nat.eqb v Cv then None
  else
    match vertex_bundle_of v c, getVertexCluster Cv c with
    | Some vb, Some cg =>
        let nv := fresh_vertex cg in
        let cg1 := vertex_lowered v c cg vb in
        let inner :=
          flat_map (fun p => eb_singles (snd p))
            (filter (fun p => connects v Cv (fst p)) (g_edges c)) in
        match resolve_all (resolve_other nv cg1) inner with
        | None => None
        | Some placed =>
            let cg2 := setChanged (set_edges (place_all nv placed (g_edges cg1)) cg1) in
            let outer :=
              filter (fun p => incident v (fst p) && negb (connects v Cv (fst p)))
                (g_edges c) in
            let kept := filter (fun p => negb (incident v (fst p))) (g_edges c) in
            let es' :=
              fold_left
                (fun acc p => push_singles (other_end v (fst p)) Cv (eb_singles (snd p)) acc)
                outer kept in
            let cl' := assoc_replace Cv cg2 (assoc_remove v (m_clusters c)) in
            Some (nv,
                  setChanged
                    (mkClusterGraph (assoc_remove v (g_vertices c)) es' cl'
                       (c_props c) (changed c) (copy_mode c)))
        end
    | _, _ => None
    end.

(** Modelled from the spec (re-homing in [moveToParent]): where a
    global-edge bundle of an edge at the cluster vertex goes when a vertex
    comes up: it stays ([Some None]), moves to the local edge between
    the new vertex [nv] and the vertex holding its other endpoint, or cannot
    be resolved ([None]). *)
Definition classify (nv : LocalVertex) (c : ClusterGraph) (s : edge_bundle_single)
  : option (option LocalVertex) :=
  let ge := es_global s in
  let resolve (far : GlobalVertex) :=
    match getContainingVertex far c with
    | (u, true) => Some (Some u)
    | (_, false) => None
    end in
  if Nat.eqb (fst (getContainingVertex (source ge) c)) nv then resolve (target ge)
  else if Nat.eqb (fst (getContainingVertex (target ge) c)) nv then resolve (source ge)
  else Some None.

Fixpoint split_singles (f : edge_bundle_single -> option (option LocalVertex))
    (ss : list edge_bundle_single)
  : option (list edge_bundle_single * list (LocalVertex * edge_bundle_single)) :=
  match ss with
  | [] => Some ([], [])
  | s :: ss' =>
      match f s, split_singles f ss' with
      | Some None, Some (stay, mv) => Some (s :: stay, mv)
      | Some (Some u), Some (stay, mv) => Some (stay, (u, s) :: mv)
      | _, _ => None
      end
  end.

(** Modelled from the spec (re-homing in [moveToParent]): the edges at [Cv]
    give up the bundles that belong to the vertex coming up and disappear
    when nothing remains in them. *)
Fixpoint split_edges (f : edge_bundle_single -> option (option LocalVertex))
    (Cv : LocalVertex) (es : list (LocalEdge * edge_bundle))
  : option (list (LocalEdge * edge_bundle) * list (LocalVertex * edge_bundle_single)) :=
  match es with
  | [] => Some ([], [])
  | (e, eb) :: es' =>
      match split_edges f Cv es' with
      | None => None
      | Some (kept, mv) =>
          if incident Cv e then
            match split_singles f (eb_singles eb) with
            | None => None
            | Some ([], mv1) => Some (kept, mv1 ++ mv)
            | Some (stay, mv1) =>
                Some ((e, mkEdgeBundle (eb_props eb) stay) :: kept, mv1 ++ mv)
            end
          else Some ((e, eb) :: kept, mv)
      end
  end.

(** Modelled from the spec (first step of [moveToParent]): the parent [c]
    once the vertex [v] of its subcluster [cg] (at [Cv]) has got its new local
    vertex in the parent, with the same bundle and, when it
    stands for a cluster, the same subcluster, and has left the subcluster
    together with its local edges there; the edges of the parent are still to
    be re-homed. *)
Definition vertex_raised (Cv v : LocalVertex) (c cg : ClusterGraph) (vb : vertex_bundle)
  : ClusterGraph :=
  let nv := fresh_vertex c in
  let moved :=
    match getVertexCluster v cg with Some m => [(nv, m)] | None => [] end in
  let cg' :=
    setChanged
      (mkClusterGraph (assoc_remove v (g_vertices cg))
         (filter (fun p => negb (incident v (fst p))) (g_edges cg))
         (assoc_remove v (m_clusters cg))
         (c_props cg) (changed cg) (copy_mode cg)) in
  set_clusters (assoc_replace Cv cg' (m_clusters c) ++ moved)
    (set_vertices (g_vertices c ++ [(nv, vb)]) c).

(** Modelled from the spec: the body of [moveToParent] is not in the header.
    The method is called on the subcluster that [Cv] stands for in its parent
    [c]; it is the structural inverse of [moveToSubcluster] and re-homes the
    edges symmetrically: the vertex [v] of the subcluster gets a new local
    vertex in the parent carrying the same bundle, the global edges at [Cv]
    that belong to it go to local edges at the new vertex, and the global
    edges it had inside the subcluster go to the local edge between the new
    vertex and [Cv].  The call fails, with no effect, when [Cv] is not a
    subcluster, [v] not a vertex of it, or an endpoint cannot be resolved. *)
Definition moveToParent (Cv v : LocalVertex) (c : ClusterGraph)
  : option (LocalVertex * ClusterGraph) :=
  match getVertexCluster Cv c with
  | None => None
  | Some cg =>
      match vertex_bundle_of v cg with
      | None => None
      | Some vb =>
          let nv := fresh_vertex c in
          let from_child :=
            flat_map (fun p => eb_singles (snd p))
              (filter (fun p => incident v (fst p)) (g_edges cg)) in
          let c1 := vertex_raised Cv v c cg vb in
          match split_edges (classify nv c1) Cv (g_edges c) with
          | None => None
          | Some (es1, placed) =>
              let es2 := place_all nv placed es1 in
              let es3 :=
                match from_child with
                | [] => es2
                | _ => push_singles nv Cv from_child es2
                end in
              Some (nv, setChanged (set_edges es3 c1))
          end
      end
  end.

(** Both endpoints of the global edge of [s] are among [ids]. *)
Definition ends_in (ids : list GlobalVertex) (s : edge_bundle_single) : Prop :=
  In (source (es_global s)) ids /\ In (target (es_global s)) ids.

(** The global vertices in the scope of a local vertex: its own, and those
    of the subcluster it stands for. *)
Definition scope_of (v : LocalVertex) (c : ClusterGraph) : list GlobalVertex :=
  match vertex_bundle_of v c with Some vb => [vb_global vb] | None => [] end
  ++ match getVertexCluster v c with Some m => global_vertices m | None => [] end.

(** [moveToSubcluster(v, C)] on the cluster at [p], then [moveToParent] of
    the returned handle on the subcluster it was moved to. *)
Definition move_there_and_back (p : path) (v Cv : LocalVertex) (t : Tree) : Tree :=
  match move_on p (moveToSubcluster v Cv) t with
  | (Some nv, t1) => snd (move_on p (moveToParent Cv nv) t1)
  | (None, t1) => t1
  end.

(** *** The invariants of the data model

    The invariants that the spec lists for the ids, the local edges and the
    cluster map, as tests on one cluster. *)

(** Is the handle one of the cluster's vertices? *)
Definition is_vertex (w : LocalVertex) (c : ClusterGraph) : bool :=
  match vertex_bundle_of w c with Some _ => true | None => false end.

(** Modelled from the spec (every global vertex is owned by exactly one
    local vertex, directly or through a cluster vertex): the global vertices a
    local vertex holds, those of the subcluster when it stands for one, its
    own otherwise. *)
Definition inside (w : LocalVertex) (c : ClusterGraph) : list GlobalVertex :=
  match getVertexCluster w c with
  | Some sub => global_vertices sub
  | None =>
      match vertex_bundle_of w c with
      | Some b => [vb_global b]
      | None => []
      end
  end.

Definition mem_id (id : GlobalVertex) (ids : list GlobalVertex) : bool :=
  existsb (Z.eqb id) ids.

(** Modelled from the spec: the global edge of [s] runs between a global
    vertex held by one end of the local edge [e] and one held by the other
    end. *)
Definition single_between (c : ClusterGraph) (e : LocalEdge) (s : edge_bundle_single) : bool :=
  let ge := es_global s in
  (mem_id (source ge) (inside (le_source e) c) && mem_id (target ge) (inside (le_target e) c))
  || (mem_id (source ge) (inside (le_target e) c) && mem_id (target ge) (inside (le_source e) c)).

(** Modelled from the spec: every local edge joins two vertices of the
    cluster. *)
Definition edges_at_vertices (c : ClusterGraph) : bool :=
  forallb (fun q => is_vertex (le_source (fst q)) c && is_vertex (le_target (fst q)) c)
    (g_edges c).

(** Modelled from the spec: every entry of the cluster map corresponds to a
    local vertex of the owning cluster. *)
Definition clusters_at_vertices (c : ClusterGraph) : bool :=
  forallb (fun q => is_vertex (fst q) c) (m_clusters c).

(** Modelled from the spec: every local edge joins two different vertices
    of the cluster ([addEdge] refuses a self loop) and holds at least one
    global edge (the list is never empty while the local edge exists), each
    of them between global vertices that the two ends hold. *)
Definition edges_sound (c : ClusterGraph) : bool :=
  edges_at_vertices c
  && forallb
       (fun q =>
          negb (Nat.eqb (le_source (fst q)) (le_target (fst q)))
          && negb (match eb_singles (snd q) with [] => true | _ :: _ => false end)
          && forallb (single_between c (fst q)) (eb_singles (snd q)))
       (g_edges c).

(** What [split_singles] and [split_edges] come to when every entry can be
    classified: the entries that stay, the entries that move with the vertex
    they go to, and the edges with the moving entries taken out. *)
Definition stays (f : edge_bundle_single -> option (option LocalVertex))
    (s : edge_bundle_single) : bool :=
  match f s with Some None => true | _ => false end.

Definition tagged (f : edge_bundle_single -> option (option LocalVertex))
    (s : edge_bundle_single) : list (LocalVertex * edge_bundle_single) :=
  match f s with Some (Some u) => [(u, s)] | _ => [] end.

Definition stay_part (f : edge_bundle_single -> option (option LocalVertex))
    (Cv : LocalVertex) (es : list (LocalEdge * edge_bundle)) : list (LocalEdge * edge_bundle) :=
  flat_map
    (fun q =>
       if incident Cv (fst q) then
         match filter (stays f) (eb_singles (snd q)) with
         | [] => []
         | stay => [(fst q, mkEdgeBundle (eb_props (snd q)) stay)]
         end
       else [q])
    es.

Definition moved_part (f : edge_bundle_single -> option (option LocalVertex))
    (Cv : LocalVertex) (es : list (LocalEdge * edge_bundle))
  : list (LocalVertex * edge_bundle_single) :=
  flat_map
    (fun q => if incident Cv (fst q) then flat_map (tagged f) (eb_singles (snd q)) else [])
    es.

(** Modelled from the spec: a local edge as the moves create it at the new
    local vertex [nv]; it starts at [nv], ends elsewhere, has
    default-constructed properties and holds at least one global edge. *)
Definition recreated_at (nv : LocalVertex) (q : LocalEdge * edge_bundle) : Prop :=
  le_source (fst q) = nv /\ le_target (fst q) <> nv /\
  eb_props (snd q) = default_edge_props /\ eb_singles (snd q) <> [].

(** ** Properties of the identifier generator *)

Lemma wrap_int_id z : is_int z -> wrap_int z = z.
Proof.
  unfold is_int, wrap_int, INT_MIN, INT_MAX. intros H.
  rewrite Z.mod_small by lia. lia.
Qed.

Lemma wrap_int_max : wrap_int (INT_MAX + 1) = INT_MIN.
Proof. reflexivity. Qed.

Lemma wrap_int_range z : is_int (wrap_int z).
Proof.
  unfold is_int, wrap_int, INT_MIN, INT_MAX.
  pose proof (Z.mod_pos_bound (z - -2147483648) 4294967296). lia.
Qed.

Lemma generate_no_overflow g :
  INT_MIN <= counter g < INT_MAX ->
  generate g = (counter g + 1, mkIDgen (counter g + 1)).
Proof.
  intros H. unfold generate. rewrite wrap_int_id; [reflexivity|].
  unfold is_int, INT_MIN, INT_MAX in *. lia.
Qed.

Example generate_first : generate IDgen_new = (11, mkIDgen 11).
Proof. reflexivity. Qed.

Example generate_at_int_max :
  generate (mkIDgen INT_MAX) = (INT_MIN, mkIDgen INT_MIN).
Proof. reflexivity. Qed.

Example GlobalEdge_same_id :
  GlobalEdge_eqb (mkGlobalEdge 11 12 13) (mkGlobalEdge 20 21 13) = true
  /\ valid (mkGlobalEdge 11 12 9) = false /\ valid (mkGlobalEdge 11 12 10) = true.
Proof. repeat split; reflexivity. Qed.

Lemma run_app cs1 cs2 s : run (cs1 ++ cs2) s = run cs2 (run cs1 s).
Proof. unfold run. apply fold_left_app. Qed.

Lemma no_setCount_app cs1 cs2 :
  no_setCount (cs1 ++ cs2) = no_setCount cs1 && no_setCount cs2.
Proof. unfold no_setCount. apply forallb_app. Qed.

(** Without [setCount], and before the counter reaches [INT_MAX], the
    counter equals its start value plus the number of ids issued, and the
    ids issued are exactly the values in between. *)
Lemma run_generate_only cs : forall s,
  no_setCount cs = true ->
  let s' := run cs s in
  let k := Z.of_nat (length (issued s') - length (issued s)) in
  (length (issued s) <= length (issued s'))%nat /\
  (INT_MIN <= counter (gen s) -> counter (gen s) + k <= INT_MAX ->
   counter (gen s') = counter (gen s) + k /\
   exists new, issued s' = new ++ issued s /\
     Forall (fun x => counter (gen s) < x <= counter (gen s')) new).
Proof.
  induction cs as [|c cs IH]; intros s Hns; cbn zeta.
  - cbn. split; [lia|]. intros _ _. rewrite Nat.sub_diag, Z.add_0_r.
    split; [reflexivity|]. exists []. split; [reflexivity|constructor].
  - cbn in Hns. apply andb_true_iff in Hns. destruct Hns as [Hc Hns].
    change (run (c :: cs) s) with (run cs (do_call s c)).
    specialize (IH (do_call s c) Hns). cbn zeta in IH.
    destruct IH as [Hlen IH].
    destruct c as [| |id]; cbn in Hc; try discriminate.
    + (* Generate *)
      unfold do_call in *. destruct (generate (gen s)) as [id g'] eqn:Hg.
      cbn [issued gen length] in *. split; [lia|]. intros Hlo Hhi.
      assert (Hs : counter (gen s) < INT_MAX) by lia.
      rewrite generate_no_overflow in Hg by lia. inversion Hg; subst id g'; clear Hg.
      cbn [counter] in IH.
      destruct IH as [Hcnt [new [Hiss Hall]]]; [unfold INT_MIN in *; lia | lia |].
      split; [lia|].
      exists (new ++ [counter (gen s) + 1]). split.
      * rewrite Hiss, <- app_assoc. reflexivity.
      * apply Forall_app. split.
        -- eapply Forall_impl; [|exact Hall]. cbn. intros; lia.
        -- constructor; [|constructor]. lia.
    + (* Count *)
      cbn [do_call] in *. split; [exact Hlen|]. exact IH.
Qed.

(** Every counter value from the initial 10 up to [INT_MAX] is reached from
    a fresh generator by calls to [generate()] alone. *)
Lemma reach_by_generate k :
  0 <= k -> 10 + k <= INT_MAX ->
  exists cs, no_setCount cs = true /\
    gen (run cs (start IDgen_new)) = mkIDgen (10 + k).
Proof.
  intros Hk. pattern k. apply natlike_ind; [| |exact Hk]; clear k Hk.
  - intros _. exists []. split; reflexivity.
  - intros k Hk IH Hmax. cbv beta in IH.
    destruct IH as [cs [Hns Hrun]]; [lia|].
    exists (cs ++ [Generate]). split.
    + rewrite no_setCount_app, Hns. reflexivity.
    + rewrite run_app. cbn [run fold_left]. unfold do_call.
      fold (run cs (start IDgen_new)).
      rewrite (generate_no_overflow (gen (run cs (start IDgen_new))))
        by (rewrite Hrun; cbn [counter]; unfold INT_MIN, INT_MAX in *; lia).
      cbn [gen]. rewrite Hrun. cbn [counter]. f_equal. lia.
Qed.

(** The general shape behind the statements on [count()]: what it returns
    is decided by the last call that wrote the counter. *)
Lemma count_after_run cs : forall s,
  match last_write cs with
  | None => run cs s = s
  | Some (SetCount n) => count (gen (run cs s)) = n
  | Some Generate => last_generated (run cs s) = Some (count (gen (run cs s)))
  | Some Count => False
  end.
Proof.
  induction cs as [|c cs IH]; intros s; [reflexivity|].
  change (run (c :: cs) s) with (run cs (do_call s c)).
  specialize (IH (do_call s c)). cbn [last_write].
  destruct (last_write cs) as [w|]; [exact IH|].
  rewrite IH. destruct c; reflexivity.
Qed.


(** C1, as amended.  In a cluster tree the generator is the one created by
    the root's constructor (counter 10) and shared by every cluster.  As long
    as fewer than 2147483637 ids have been issued (so the 32-bit counter is
    still below [INT_MAX]) and [setCount] was not called, the next call to
    [generate()] returns a value greater than 9 and greater than every value
    returned before. *)
Theorem C1_generate_increasing_below_int_max : forall cs,
  no_setCount cs = true ->
  10 + Z.of_nat (length (issued (run cs (start IDgen_new)))) < INT_MAX ->
  let s := run cs (start IDgen_new) in
  let id := fst (generate (gen s)) in
  9 < id /\ Forall (fun x => x < id) (issued s).
Proof.
  intros cs Hns Hlen s id.
  destruct (run_generate_only cs (start IDgen_new) Hns) as [_ H].
  fold s in H. cbn [start issued gen counter IDgen_new length] in H.
  rewrite Nat.sub_0_r in H.
  destruct H as [Hcnt [new [Hiss Hall]]]; [unfold INT_MIN; lia | fold s in Hlen; lia |].
  rewrite app_nil_r in Hiss. subst id.
  rewrite generate_no_overflow by (fold s in Hlen; unfold INT_MIN in *; lia).
  cbn [fst]. split; [lia|].
  rewrite Hiss. eapply Forall_impl; [|exact Hall]. cbn. intros; lia.
Qed.

Lemma C1_generate_increasing_witness :
  let cs := [Generate; Count; Generate] in
  no_setCount cs = true /\
  9 < fst (generate (gen (run cs (start IDgen_new)))) /\
  Forall (fun x => x < fst (generate (gen (run cs (start IDgen_new)))))
         (issued (run cs (start IDgen_new))).
Proof.
  split; [reflexivity|].
  apply (C1_generate_increasing_below_int_max [Generate; Count; Generate]).
  - reflexivity.
  - vm_compute. reflexivity.
Defined.

(** C1 as stated fails: after 2147483637 calls the counter of a fresh
    generator is [INT_MAX], and the next [generate()] cannot return a larger
    [int]; with wrap-around it returns [INT_MIN]. *)
Lemma C1_counterexample_overflow :
  (exists cs, no_setCount cs = true /\
     gen (run cs (start IDgen_new)) = mkIDgen 2147483647) /\
  fst (generate (mkIDgen 2147483647)) = -2147483648 /\
  ~ (forall cs, no_setCount cs = true ->
       let s := run cs (start IDgen_new) in
       let id := fst (generate (gen s)) in
       9 < id /\ Forall (fun x => x < id) (issued s)).
Proof.
  destruct (reach_by_generate 2147483637) as [cs [Hns Hrun]];
    [lia | unfold INT_MAX; lia |].
  split; [exists cs; split; [exact Hns|exact Hrun]|].
  split; [reflexivity|].
  intros H. specialize (H cs Hns). cbn zeta in H. rewrite Hrun in H.
  destruct H as [H _]. vm_compute in H. discriminate H.
Qed.

(** C2.  Two global edges compare equal exactly when their [ID]s are equal,
    whatever their [source] and [target] are, and a global edge is valid
    exactly when its [ID] is greater than 9. *)
Theorem C2_GlobalEdge_eq_valid : forall a b : GlobalEdge,
  (GlobalEdge_eqb a b = true <-> ID a = ID b) /\
  (GlobalEdge_neqb a b = negb (GlobalEdge_eqb a b)) /\
  (forall s t s' t',
     GlobalEdge_eqb (mkGlobalEdge s t (ID a)) (mkGlobalEdge s' t' (ID b))
     = GlobalEdge_eqb a b) /\
  (valid a = true <-> ID a > 9).
Proof.
  intros a b. unfold GlobalEdge_eqb, GlobalEdge_neqb, valid. cbn [ID].
  repeat split; try reflexivity.
  - apply Z.eqb_eq.
  - apply Z.eqb_eq.
  - intros H. apply Z.gtb_lt in H. lia.
  - intros H. apply Z.gtb_lt. lia.
Qed.

(** C3, as amended.  [count()] returns the content of the counter, which is
    whatever the last writing call left there: the value of the most recent
    [generate()] when no [setCount] came after it, the argument [n] of the
    most recent [setCount(n)] when no [generate()] came after it, and the
    constructor's initial value when neither has been called. *)
Theorem C3_count_follows_last_write : forall cs g0,
  let s := run cs (start g0) in
  match last_write cs with
  | None => count (gen s) = count g0 /\ last_generated s = None
  | Some (SetCount n) => count (gen s) = n
  | Some _ => last_generated s = Some (count (gen s))
  end.
Proof.
  intros cs g0 s. subst s.
  pose proof (count_after_run cs (start g0)) as H.
  destruct (last_write cs) as [[| |n]|].
  - exact H.
  - destruct H.
  - exact H.
  - rewrite H. split; reflexivity.
Qed.

(** C3 as stated fails: after [generate()] (returning 11) and [setCount(5)],
    [count()] returns 5, not the last generated id; and on a generator that
    has not generated anything yet there is no such id while [count()]
    returns 10. *)
Lemma C3_counterexample_setCount :
  let s := run [Generate; SetCount 5] (start IDgen_new) in
  last_generated s = Some 11 /\ count (gen s) = 5 /\
  last_generated s <> Some (count (gen s)) /\
  last_generated (start IDgen_new) = None /\ count (gen (start IDgen_new)) = 10.
Proof.
  cbn. repeat split; try reflexivity. discriminate.
Qed.

(** C4, as amended.  After [setCount(n)], and until [setCount] is called
    again, every id returned by [generate()] is greater than [n] as long as
    [n] plus the number of ids generated since does not exceed [INT_MAX]
    (2147483647). *)
Theorem C4_setCount_then_generate_above : forall (n : universalID) g0 cs,
  INT_MIN <= n ->
  no_setCount cs = true ->
  n + Z.of_nat (length (issued (run cs (start (setCount n g0))))) <= INT_MAX ->
  Forall (fun x => n < x) (issued (run cs (start (setCount n g0)))).
Proof.
  intros n g0 cs Hn Hns Hlen.
  destruct (run_generate_only cs (start (setCount n g0)) Hns) as [_ H].
  cbn [start issued gen counter setCount length] in H.
  rewrite Nat.sub_0_r in H.
  destruct H as [Hcnt [new [Hiss Hall]]]; [exact Hn | exact Hlen |].
  rewrite app_nil_r in Hiss. rewrite Hiss.
  eapply Forall_impl; [|exact Hall]. cbn. intros; lia.
Qed.

Lemma C4_setCount_then_generate_witness :
  Forall (fun x => 40 < x)
    (issued (run [Generate; Generate; Count; Generate] (start (setCount 40 IDgen_new)))).
Proof.
  apply (C4_setCount_then_generate_above 40 IDgen_new [Generate; Generate; Count; Generate]).
  - unfold INT_MIN. lia.
  - reflexivity.
  - vm_compute. discriminate.
Defined.

(** C4 as stated fails at [n = INT_MAX]: the [generate()] call that follows
    [setCount(2147483647)] returns -2147483648. *)
Lemma C4_counterexample_int_max :
  issued (run [Generate] (start (setCount 2147483647 IDgen_new))) = [-2147483648] /\
  ~ Forall (fun x => 2147483647 < x)
      (issued (run [Generate] (start (setCount 2147483647 IDgen_new)))).
Proof.
  split; [reflexivity|].
  intros H. inversion H as [|x l Hx _]; subst. vm_compute in Hx. discriminate Hx.
Qed.

(** C10.  [setCount(n)] stores [n] whatever the counter held.  When [n] is
    below the current counter, [count()] decreases and the next
    [generate()] returns [n + 1]; setting the counter back by one after a
    [generate()] makes the generator issue the same id a second time. *)
Theorem C10_setCount_unconditional : forall (g : IDgen) (n : universalID),
  is_int (counter g) -> is_int n ->
  count (setCount n g) = n /\
  (n < count g ->
     count (setCount n g) < count g /\
     fst (generate (setCount n g)) = n + 1) /\
  (counter g < INT_MAX ->
     let id := fst (generate g) in
     let g1 := snd (generate g) in
     id - 1 < count g1 /\
     fst (generate (setCount (id - 1) g1)) = id) /\
  issued (run [Generate; SetCount 10; Generate] (start IDgen_new)) = [11; 11].
Proof.
  intros g n Hg Hn. unfold is_int in *.
  split; [reflexivity|]. split; [|split].
  - intros Hlt. unfold count in *. cbn [setCount counter]. split; [exact Hlt|].
    rewrite generate_no_overflow by (cbn; lia). reflexivity.
  - intros Hlt. cbn zeta.
    rewrite generate_no_overflow by lia. cbn [fst snd count counter].
    split; [lia|].
    rewrite generate_no_overflow by (cbn; lia). cbn. lia.
  - reflexivity.
Qed.

Lemma C10_setCount_unconditional_witness :
  count (setCount 12 (mkIDgen 20)) = 12 /\
  count (setCount 12 (mkIDgen 20)) < count (mkIDgen 20) /\
  fst (generate (setCount 12 (mkIDgen 20))) = 13.
Proof.
  assert (Hg : is_int (counter (mkIDgen 20))) by (unfold is_int, INT_MIN, INT_MAX; cbn; lia).
  assert (Hn : is_int 12) by (unfold is_int, INT_MIN, INT_MAX; lia).
  destruct (C10_setCount_unconditional (mkIDgen 20) 12 Hg Hn) as [H1 [H2 _]].
  split; [exact H1|]. apply H2. cbn. lia.
Defined.

(** ** Properties of the cluster operations *)

(** *** Lists *)

Lemma assoc_replace_same {V : Type} k (x : V) l :
  assoc_find k l = Some x -> assoc_replace k x l = l.
Proof.
  induction l as [|[k' y] l IH]; cbn; [reflexivity|].
  destruct (Nat.eqb k' k); intros H.
  - injection H as ->. reflexivity.
  - rewrite IH by exact H. reflexivity.
Qed.

Lemma find_app_last {A : Type} (f : A -> bool) l x :
  find f l = None -> f x = true -> find f (l ++ [x]) = Some x.
Proof.
  induction l as [|y l IH]; cbn; intros Hn Hx.
  - rewrite Hx. reflexivity.
  - destruct (f y); [discriminate|]. apply IH; assumption.
Qed.

Lemma filter_app_last {A : Type} (f : A -> bool) l x :
  find f l = None -> f x = true -> filter f (l ++ [x]) = [x].
Proof.
  induction l as [|y l IH]; cbn; intros Hn Hx.
  - rewrite Hx. reflexivity.
  - destruct (f y); [discriminate|]. apply IH; assumption.
Qed.

(** *** Record bookkeeping *)

Lemma set_clusters_same c : set_clusters (m_clusters c) c = c.
Proof. destruct c; reflexivity. Qed.

Lemma g_vertices_setChanged c : g_vertices (setChanged c) = g_vertices c.
Proof. unfold setChanged. destruct (copy_mode c); reflexivity. Qed.

Lemma g_edges_setChanged c : g_edges (setChanged c) = g_edges c.
Proof. unfold setChanged. destruct (copy_mode c); reflexivity. Qed.

Lemma m_clusters_setChanged c : m_clusters (setChanged c) = m_clusters c.
Proof. unfold setChanged. destruct (copy_mode c); reflexivity. Qed.

Lemma replace_at_same p : forall c cl,
  cluster_at p c = Some cl -> replace_at p cl c = c.
Proof.
  induction p as [|v p IH]; cbn; intros c cl H.
  - injection H as ->. reflexivity.
  - destruct (getVertexCluster v c) as [sub|] eqn:Hsub; [|reflexivity].
    rewrite (IH _ _ H). unfold getVertexCluster in Hsub.
    rewrite (assoc_replace_same _ _ _ Hsub). apply set_clusters_same.
Qed.

Lemma assoc_find_app {V : Type} k (l l' : list (nat * V)) :
  assoc_find k (l ++ l') =
  match assoc_find k l with Some x => Some x | None => assoc_find k l' end.
Proof.
  induction l as [|[k' y] l IH]; cbn; [reflexivity|].
  destruct (Nat.eqb k' k); [reflexivity|exact IH].
Qed.

Lemma assoc_find_above {V : Type} k (l : list (nat * V)) :
  (list_max (map fst l) < k)%nat -> assoc_find k l = None.
Proof.
  induction l as [|[k' y] l IH]; intros H; [reflexivity|].
  cbn [assoc_find]. cbn [map fst] in H.
  change (list_max (k' :: map fst l)) with (Nat.max k' (list_max (map fst l))) in H.
  destruct (Nat.eqb k' k) eqn:E.
  - apply Nat.eqb_eq in E. lia.
  - apply IH. lia.
Qed.

Lemma fresh_vertex_unused c : assoc_find (fresh_vertex c) (g_vertices c) = None.
Proof. apply assoc_find_above. unfold fresh_vertex. apply Nat.lt_succ_diag_r. Qed.

(** *** Local lookup after creation *)

Lemma getContainingVertex_own id c v b :
  find (fun p => vb_global (snd p) =? id) (g_vertices c) = Some (v, b) ->
  getContainingVertex id c = (v, true).
Proof.
  intros H. destruct c as [vs es cl pr ch cm]. cbn in *. rewrite H. reflexivity.
Qed.

Lemma find_global_none id (vs : list (LocalVertex * vertex_bundle)) :
  ~ In id (map (fun p => vb_global (snd p)) vs) ->
  find (fun p => vb_global (snd p) =? id) vs = None.
Proof.
  induction vs as [|[v b] vs IH]; cbn; intros H; [reflexivity|].
  destruct (vb_global b =? id) eqn:E.
  - apply Z.eqb_eq in E. exfalso. apply H. left. exact E.
  - apply IH. intros Hin. apply H. right. exact Hin.
Qed.

(** The generator is ahead of the ids in use: what it hands out is not
    carried by any vertex yet. *)
Lemma fresh_when_below_counter g (c : ClusterGraph) :
  Forall (fun p => vb_global (snd p) <= count g) (g_vertices c) ->
  INT_MIN <= count g < INT_MAX ->
  ~ In (fst (generate g)) (map (fun p => vb_global (snd p)) (g_vertices c)).
Proof.
  intros Hall Hcnt Hin. unfold count in *.
  rewrite generate_no_overflow in Hin by exact Hcnt. cbn [fst] in Hin.
  apply in_map_iff in Hin. destruct Hin as [q [Hq Hin]].
  rewrite Forall_forall in Hall. specialize (Hall q Hin). cbn in Hall. lia.
Qed.

(** [addVertex()] keeps the generator ahead of the ids in use. *)
Lemma addVertex_ids_below g (c : ClusterGraph) :
  INT_MIN <= count g < INT_MAX ->
  Forall (fun p => vb_global (snd p) <= count g) (g_vertices c) ->
  let '(_, g', c') := addVertex g c in
  Forall (fun p => vb_global (snd p) <= count g') (g_vertices c').
Proof.
  intros Hcnt Hall. unfold addVertex, count in *.
  rewrite generate_no_overflow by exact Hcnt.
  rewrite g_vertices_setChanged. cbn [set_vertices g_vertices counter].
  apply Forall_app. split.
  - eapply Forall_impl; [|exact Hall]. cbn. intros; lia.
  - constructor; [cbn; lia|constructor].
Qed.

(** When no vertex of the cluster carries the id that is handed out, the
    new vertex is the first one with that id and the lookup finds it. *)
Lemma addVertex_found_when_unused (g : IDgen) (c : ClusterGraph) :
  ~ In (fst (generate g)) (map (fun p => vb_global (snd p)) (g_vertices c)) ->
  let '(v, gv, g', c') := addVertex g c in
  gv = fst (generate g) /\ g' = snd (generate g) /\
  vertex_bundle_of v c' = Some (mkVertexBundle gv default_vertex_props empty_objects) /\
  getLocalVertex gv c' = (v, true).
Proof.
  intros Hfresh. unfold addVertex.
  destruct (generate g) as [id g'] eqn:Hg. cbn [fst snd] in *.
  split; [reflexivity|]. split; [reflexivity|].
  set (vb := mkVertexBundle id default_vertex_props empty_objects).
  assert (Hfind : find (fun p => vb_global (snd p) =? id)
                    (g_vertices c ++ [(fresh_vertex c, vb)]) = Some (fresh_vertex c, vb)).
  { apply find_app_last; [apply find_global_none; exact Hfresh|].
    cbn. apply Z.eqb_refl. }
  split.
  - unfold vertex_bundle_of. rewrite g_vertices_setChanged. cbn [set_vertices g_vertices].
    rewrite assoc_find_app, fresh_vertex_unused. cbn. rewrite Nat.eqb_refl. reflexivity.
  - unfold getLocalVertex. eapply getContainingVertex_own.
    rewrite g_vertices_setChanged. cbn [set_vertices g_vertices]. exact Hfind.
Qed.

(** C5, as amended.  In a cluster whose vertex ids the generator has all
    passed (each is at most [count()]) and with [count()] below [INT_MAX],
    [addVertex()] mints [count() + 1], an id that no vertex of the cluster
    carries, and leaves the generator ahead of the ids again; and whenever
    the id it mints is carried by no vertex of the cluster, the vertex it
    creates with local handle [v] and global id [gv] is stored with default
    properties and empty objects and is the one [getLocalVertex(gv)] finds:
    it returns [(v, true)]. *)
Theorem C5_addVertex_then_getLocalVertex : forall (g : IDgen) (c : ClusterGraph),
  (Forall (fun p => vb_global (snd p) <= count g) (g_vertices c) ->
   INT_MIN <= count g < INT_MAX ->
   let '(v, gv, g', c') := addVertex g c in
   gv = count g + 1 /\ count g' = gv /\
   ~ In gv (map (fun p => vb_global (snd p)) (g_vertices c)) /\
   Forall (fun p => vb_global (snd p) <= count g') (g_vertices c') /\
   getLocalVertex gv c' = (v, true)) /\
  (~ In (fst (generate g)) (map (fun p => vb_global (snd p)) (g_vertices c)) ->
   let '(v, gv, g', c') := addVertex g c in
   gv = fst (generate g) /\ g' = snd (generate g) /\
   vertex_bundle_of v c' = Some (mkVertexBundle gv default_vertex_props empty_objects) /\
   getLocalVertex gv c' = (v, true)).
Proof.
  intros g c. split; [|apply addVertex_found_when_unused].
  intros Hall Hcnt.
  pose proof (fresh_when_below_counter g c Hall Hcnt) as Hfresh.
  pose proof (addVertex_found_when_unused g c Hfresh) as Hfound.
  pose proof (addVertex_ids_below g c Hcnt Hall) as Hkeep.
  destruct (addVertex g c) as [[[v gv] g'] c'].
  destruct Hfound as [Hgv [Hg' [_ Hlook]]].
  unfold count in *. rewrite generate_no_overflow in Hgv, Hg', Hfresh by exact Hcnt.
  cbn [fst snd] in Hgv, Hg', Hfresh. subst gv g'. cbn [counter].
  repeat split; try assumption; try reflexivity; lia.
Qed.

(** C9.  [addEdge(a, b)] with [a == b] reports failure and returns the
    generator and the cluster as they were; seen from the root, the whole
    tree is the one before the call. *)
Theorem C9_addEdge_same_vertex_no_effect :
  forall (t : Tree) (p : path) (c : ClusterGraph) (a b : LocalVertex),
  a = b ->
  cluster_at p (t_root t) = Some c ->
  addEdge a b (t_id t) c = ((LocalEdge_null, GlobalEdge_default, false), t_id t, c) /\
  call_on p (addEdge a b) t = Some ((LocalEdge_null, GlobalEdge_default, false), t).
Proof.
  intros t p c a b Hab Hc. subst b.
  assert (H : addEdge a a (t_id t) c
              = ((LocalEdge_null, GlobalEdge_default, false), t_id t, c)).
  { unfold addEdge. rewrite Nat.eqb_refl. reflexivity. }
  split; [exact H|].
  unfold call_on. rewrite Hc, H, (replace_at_same _ _ _ Hc).
  destruct t; reflexivity.
Qed.

(** *** Parallel edges *)

Lemma connects_refl a b : connects a b (mkLocalEdge a b) = true.
Proof. unfold connects. cbn. rewrite !Nat.eqb_refl. reflexivity. Qed.

Lemma push_singles_absent a b ss es :
  find (fun p => connects a b (fst p)) es = None ->
  push_singles a b ss es = es ++ [(mkLocalEdge a b, mkEdgeBundle default_edge_props ss)].
Proof.
  induction es as [|[e eb] es IH]; cbn; intros H; [reflexivity|].
  destruct (connects a b e); [discriminate|]. rewrite IH by exact H. reflexivity.
Qed.

Lemma push_singles_last a b ss es e eb :
  find (fun p => connects a b (fst p)) es = None ->
  connects a b e = true ->
  push_singles a b ss (es ++ [(e, eb)])
  = es ++ [(e, mkEdgeBundle (eb_props eb) (eb_singles eb ++ ss))].
Proof.
  induction es as [|[e' eb'] es IH]; cbn; intros H He.
  - rewrite He. reflexivity.
  - destruct (connects a b e'); [discriminate|]. rewrite IH by assumption. reflexivity.
Qed.

Lemma generate_twice_distinct g :
  fst (generate (snd (generate g))) <> fst (generate g).
Proof.
  unfold generate. cbn [fst snd counter].
  pose proof (wrap_int_range (counter g + 1)) as Hr.
  set (w := wrap_int (counter g + 1)) in *.
  destruct (Z.eq_dec w INT_MAX) as [E|E].
  - rewrite E. rewrite wrap_int_max. unfold INT_MAX, INT_MIN. lia.
  - rewrite wrap_int_id; [lia|]. unfold is_int in *. lia.
Qed.

Lemma addEdge_ok g c a b va vb :
  a <> b -> isCluster a c = false -> isCluster b c = false ->
  vertex_bundle_of a c = Some va -> vertex_bundle_of b c = Some vb ->
  addEdge a b g c =
  (let ge := mkGlobalEdge (vb_global va) (vb_global vb) (fst (generate g)) in
   let c' :=
     setChanged
       (set_edges (push_singles a b [mkEdgeSingle empty_objects ge] (g_edges c)) c) in
   ((fst (edge a b c'), ge, true), snd (generate g), c')).
Proof.
  intros Hab Hca Hcb Ea Eb. apply Nat.eqb_neq in Hab.
  unfold addEdge. rewrite Hab, Hca, Hcb, Ea, Eb. cbn [orb].
  destruct (generate g) as [id g']. reflexivity.
Qed.

(** C6, as amended.  For two distinct vertices [a] and [b] of a cluster,
    neither standing for a subcluster and with no local edge between them
    yet, two calls of [addEdge(a, b)] in succession both succeed and return
    the same local edge; it is the only local edge between [a] and [b], its
    aggregated list holds the two new global edges, whose ids differ, and
    [getGlobalEdgeCount] of it is 2. *)
Theorem C6_addEdge_twice_aggregates :
  forall (g : IDgen) (c : ClusterGraph) (a b : LocalVertex),
  a <> b ->
  isCluster a c = false -> isCluster b c = false ->
  vertex_bundle_of a c <> None -> vertex_bundle_of b c <> None ->
  snd (edge a b c) = false ->
  let '((e1, ge1, ok1), g1, c1) := addEdge a b g c in
  let '((e2, ge2, ok2), g2, c2) := addEdge a b g1 c1 in
  ok1 = true /\ ok2 = true /\ e1 = e2 /\
  (exists eb s1 s2,
     filter (fun p => connects a b (fst p)) (g_edges c2) = [(e2, eb)] /\
     eb_singles eb = [s1; s2] /\ es_global s1 = ge1 /\ es_global s2 = ge2) /\
  ID ge1 <> ID ge2 /\
  getGlobalEdgeCount e2 c2 = 2.
Proof.
  intros g c a b Hab Hca Hcb Hva Hvb Hno.
  assert (Hfind : find (fun p => connects a b (fst p)) (g_edges c) = None).
  { unfold edge in Hno. destruct (find _ (g_edges c)) as [[e eb]|]; [discriminate|reflexivity]. }
  destruct (vertex_bundle_of a c) as [va|] eqn:Ea; [|contradiction].
  destruct (vertex_bundle_of b c) as [vb|] eqn:Eb; [|contradiction].
  rewrite (addEdge_ok g c a b va vb Hab Hca Hcb Ea Eb). cbv zeta.
  set (id1 := fst (generate g)). set (g1 := snd (generate g)).
  set (ge1 := mkGlobalEdge (vb_global va) (vb_global vb) id1).
  set (s1 := mkEdgeSingle empty_objects ge1).
  rewrite (push_singles_absent a b [s1] _ Hfind).
  set (ab := mkLocalEdge a b).
  set (es1 := g_edges c ++ [(ab, mkEdgeBundle default_edge_props [s1])]).
  set (c1 := setChanged (set_edges es1 c)).
  assert (Hes1 : g_edges c1 = es1) by (unfold c1; rewrite g_edges_setChanged; reflexivity).
  assert (Hedge1 : edge a b c1 = (ab, true)).
  { unfold edge. rewrite Hes1. unfold es1.
    rewrite (find_app_last (fun p => connects a b (fst p)) _ (ab, _) Hfind (connects_refl a b)). reflexivity. }
  rewrite Hedge1. cbn [fst].
  assert (Hcl1 : m_clusters c1 = m_clusters c)
    by (unfold c1; rewrite m_clusters_setChanged; reflexivity).
  assert (Hvs1 : g_vertices c1 = g_vertices c)
    by (unfold c1; rewrite g_vertices_setChanged; reflexivity).
  assert (Hca1 : isCluster a c1 = false) by (unfold isCluster in *; rewrite Hcl1; exact Hca).
  assert (Hcb1 : isCluster b c1 = false) by (unfold isCluster in *; rewrite Hcl1; exact Hcb).
  assert (Ea1 : vertex_bundle_of a c1 = Some va)
    by (unfold vertex_bundle_of in *; rewrite Hvs1; exact Ea).
  assert (Eb1 : vertex_bundle_of b c1 = Some vb)
    by (unfold vertex_bundle_of in *; rewrite Hvs1; exact Eb).
  rewrite (addEdge_ok g1 c1 a b va vb Hab Hca1 Hcb1 Ea1 Eb1). cbv zeta.
  set (id2 := fst (generate g1)).
  set (ge2 := mkGlobalEdge (vb_global va) (vb_global vb) id2).
  set (s2 := mkEdgeSingle empty_objects ge2).
  rewrite Hes1. unfold es1.
  rewrite (push_singles_last a b [s2] _ ab _ Hfind (connects_refl a b)).
  cbn [eb_props eb_singles app].
  set (eb2 := mkEdgeBundle default_edge_props [s1; s2]).
  set (es2 := g_edges c ++ [(ab, eb2)]).
  set (c2 := setChanged (set_edges es2 c1)).
  assert (Hes2 : g_edges c2 = es2) by (unfold c2; rewrite g_edges_setChanged; reflexivity).
  assert (Hedge2 : edge a b c2 = (ab, true)).
  { unfold edge. rewrite Hes2. unfold es2.
    rewrite (find_app_last (fun p => connects a b (fst p)) _ (ab, _) Hfind (connects_refl a b)). reflexivity. }
  rewrite Hedge2. cbn [fst].
  split; [reflexivity|]. split; [reflexivity|]. split; [reflexivity|].
  split; [|split].
  - exists eb2, s1, s2. rewrite Hes2. unfold es2.
    rewrite (filter_app_last (fun p => connects a b (fst p)) _ (ab, _) Hfind (connects_refl a b)).
    repeat split; reflexivity.
  - cbn [ge1 ge2 ID]. intros E.
    apply (generate_twice_distinct g). symmetry. exact E.
  - unfold getGlobalEdgeCount, edge_bundle_of. rewrite Hes2. unfold es2. cbn [ab le_source le_target].
    rewrite (find_app_last (fun p => connects a b (fst p)) _ (ab, _) Hfind (connects_refl a b)). reflexivity.
Qed.

(** *** Removal of a global edge *)

Lemma ClusterGraph_subtree_ind (P : ClusterGraph -> Prop) :
  (forall c, (forall k sub, In (k, sub) (m_clusters c) -> P sub) -> P c) ->
  forall c, P c.
Proof.
  intros H. fix IH 1. intros c. apply H.
  destruct c as [vs es cl pr ch cm]. cbn [m_clusters].
  induction cl as [|[k sub] cl IHcl]; intros k' sub' Hin.
  - destruct Hin.
  - destruct Hin as [E|Hin].
    + injection E as _ <-. apply IH.
    + exact (IHcl k' sub' Hin).
Qed.

Lemma all_edge_singles_eq c :
  all_edge_singles c =
  flat_map (fun p => eb_singles (snd p)) (g_edges c)
  ++ flat_map (fun p => all_edge_singles (snd p)) (m_clusters c).
Proof. destruct c; reflexivity. Qed.

Lemma all_vertex_bundles_eq c :
  all_vertex_bundles c =
  map snd (g_vertices c)
  ++ flat_map (fun p => all_vertex_bundles (snd p)) (m_clusters c).
Proof. destruct c; reflexivity. Qed.

Lemma holds_in_subtree_eq id c :
  holds_in_subtree id c =
  existsb (fun p => holds id (snd p)) (g_edges c)
  || existsb (fun p => holds_in_subtree id (snd p)) (m_clusters c).
Proof. destruct c; reflexivity. Qed.

Lemma remove_in_subtree_eq id c :
  remove_in_subtree id c =
  if existsb (fun p => holds id (snd p)) (g_edges c)
  then set_edges (remove_global id (g_edges c)) c
  else set_clusters
         (assoc_update_first (holds_in_subtree id) (remove_in_subtree id) (m_clusters c)) c.
Proof. destruct c; reflexivity. Qed.

Lemma holds_iff id eb :
  holds id eb = true <-> exists s, In s (eb_singles eb) /\ edge_id s = ID id.
Proof.
  unfold holds, edge_id, GlobalEdge_eqb. rewrite existsb_exists.
  split; intros [s [Hin H]]; exists s; (split; [exact Hin|]).
  - apply Z.eqb_eq. exact H.
  - apply Z.eqb_eq. exact H.
Qed.

Lemma own_holds_iff id (es : list (LocalEdge * edge_bundle)) :
  existsb (fun p => holds id (snd p)) es = true <->
  In (ID id) (map edge_id (flat_map (fun p => eb_singles (snd p)) es)).
Proof.
  rewrite existsb_exists, in_map_iff. split.
  - intros [[e eb] [Hin H]]. apply holds_iff in H. destruct H as [s [Hs Hid]].
    exists s. split; [exact Hid|]. apply in_flat_map. exists (e, eb). split; assumption.
  - intros [s [Hid Hs]]. apply in_flat_map in Hs. destruct Hs as [[e eb] [Hin Hs]].
    exists (e, eb). split; [exact Hin|]. apply holds_iff. exists s. split; assumption.
Qed.

Lemma holds_in_subtree_iff id : forall c,
  holds_in_subtree id c = true <-> In (ID id) (map edge_id (all_edge_singles c)).
Proof.
  induction c as [c IH] using ClusterGraph_subtree_ind.
  rewrite holds_in_subtree_eq, all_edge_singles_eq, map_app, in_app_iff, orb_true_iff.
  rewrite own_holds_iff.
  assert (Hsub :
    existsb (fun p => holds_in_subtree id (snd p)) (m_clusters c) = true <->
    In (ID id) (map edge_id (flat_map (fun p => all_edge_singles (snd p)) (m_clusters c)))).
  { rewrite existsb_exists, in_map_iff. split.
    - intros [[k sub] [Hin H]]. apply (IH k sub Hin) in H.
      apply in_map_iff in H. destruct H as [s [Hid Hs]].
      exists s. split; [exact Hid|]. apply in_flat_map. exists (k, sub). split; assumption.
    - intros [s [Hid Hs]]. apply in_flat_map in Hs. destruct Hs as [[k sub] [Hin Hs]].
      exists (k, sub). split; [exact Hin|]. apply (IH k sub Hin).
      apply in_map_iff. exists s. split; assumption. }
  rewrite Hsub. reflexivity.
Qed.

Lemma NoDup_app_l {A : Type} (l1 l2 : list A) : NoDup (l1 ++ l2) -> NoDup l1.
Proof.
  induction l1 as [|a l1 IH]; cbn; intros H; [constructor|].
  inversion H as [|? ? Hn Hd]; subst. constructor.
  - intros Hin. apply Hn. apply in_or_app. left. exact Hin.
  - apply IH. exact Hd.
Qed.

Lemma NoDup_app_r {A : Type} (l1 l2 : list A) : NoDup (l1 ++ l2) -> NoDup l2.
Proof.
  induction l1 as [|a l1 IH]; cbn; intros H; [exact H|].
  inversion H; subst. apply IH. assumption.
Qed.

Lemma NoDup_app_disjoint {A : Type} (l1 l2 : list A) a :
  NoDup (l1 ++ l2) -> In a l1 -> In a l2 -> False.
Proof.
  induction l1 as [|b l1 IH]; cbn; intros H H1 H2; [exact H1|].
  inversion H as [|? ? Hn Hd]; subst. destruct H1 as [->|H1].
  - apply Hn. apply in_or_app. right. exact H2.
  - exact (IH Hd H1 H2).
Qed.

(** In a list without repeated ids, dropping the id of [x] drops [x] alone. *)
Lemma drop_global_unique id s1 x s2 :
  NoDup (map edge_id (s1 ++ x :: s2)) ->
  GlobalEdge_eqb (es_global x) id = true ->
  drop_global id (s1 ++ x :: s2) = s1 ++ s2.
Proof.
  intros Hnd Hx. unfold GlobalEdge_eqb in Hx. apply Z.eqb_eq in Hx.
  assert (Hother : forall l, (forall s, In s l -> edge_id s <> ID id) -> drop_global id l = l).
  { induction l as [|s l IH]; cbn; intros H; [reflexivity|].
    unfold GlobalEdge_eqb. destruct (ID (es_global s) =? ID id) eqn:E.
    - apply Z.eqb_eq in E. exfalso. apply (H s); [left; reflexivity|exact E].
    - cbn. f_equal. apply IH. intros s' Hs'. apply H. right. exact Hs'. }
  unfold drop_global. rewrite filter_app. cbn [filter].
  unfold GlobalEdge_eqb at 2. rewrite (proj2 (Z.eqb_eq _ _) Hx). cbn [negb].
  rewrite map_app in Hnd. cbn [map] in Hnd.
  fold (drop_global id s1). fold (drop_global id s2).
  rewrite !Hother; [reflexivity| |].
  - intros s Hs E. apply NoDup_app_r in Hnd. inversion Hnd as [|? ? Hn _]; subst.
    apply Hn. unfold edge_id at 1. rewrite Hx, <- E. apply in_map. exact Hs.
  - intros s Hs E. apply (NoDup_app_disjoint _ _ (ID id) Hnd).
    + rewrite <- E. apply in_map. exact Hs.
    + left. exact Hx.
Qed.

Lemma remove_global_at id es1 e eb es2 :
  existsb (fun p => holds id (snd p)) es1 = false ->
  holds id eb = true ->
  remove_global id (es1 ++ (e, eb) :: es2) =
  es1 ++ match drop_global id (eb_singles eb) with
         | [] => []
         | ss => [(e, mkEdgeBundle (eb_props eb) ss)]
         end ++ es2.
Proof.
  induction es1 as [|[e' eb'] es1 IH]; cbn; intros H1 H2.
  - rewrite H2. destruct (drop_global id (eb_singles eb)); reflexivity.
  - apply orb_false_iff in H1. destruct H1 as [H1 H1'].
    rewrite H1. rewrite IH by assumption. reflexivity.
Qed.

Lemma assoc_find_In {V : Type} k (x : V) l : assoc_find k l = Some x -> In (k, x) l.
Proof.
  induction l as [|[k' y] l IH]; cbn; [discriminate|].
  destruct (Nat.eqb k' k) eqn:E; intros H.
  - injection H as ->. apply Nat.eqb_eq in E. subst. left. reflexivity.
  - right. apply IH. exact H.
Qed.

Lemma assoc_find_replace {V : Type} k (x y : V) l :
  assoc_find k l = Some x -> assoc_find k (assoc_replace k y l) = Some y.
Proof.
  induction l as [|[k' z] l IH]; cbn; [discriminate|].
  destruct (Nat.eqb k' k) eqn:E; intros H; cbn; rewrite E; [reflexivity|].
  apply IH. exact H.
Qed.

Lemma assoc_find_replace_other {V : Type} k p (y : V) l :
  k <> p -> assoc_find k (assoc_replace p y l) = assoc_find k l.
Proof.
  intros Hkp. induction l as [|[k' x] l IH]; cbn; [reflexivity|].
  destruct (Nat.eqb k' p) eqn:Ep; cbn.
  - apply Nat.eqb_eq in Ep. subst k'.
    destruct (Nat.eqb p k) eqn:Ek; [|reflexivity].
    apply Nat.eqb_eq in Ek. congruence.
  - destruct (Nat.eqb k' k); [reflexivity|exact IH].
Qed.

Lemma cluster_at_replace_at p : forall c cl new,
  cluster_at p c = Some cl -> cluster_at p (replace_at p new c) = Some new.
Proof.
  induction p as [|v p IH]; cbn; intros c cl new H; [reflexivity|].
  unfold getVertexCluster in *.
  destruct (assoc_find v (m_clusters c)) as [sub|] eqn:Hsub; [|discriminate].
  cbn [set_clusters m_clusters].
  rewrite (assoc_find_replace _ _ _ _ Hsub). apply (IH _ _ _ H).
Qed.

Lemma child_singles_in k sub (l : list (LocalVertex * ClusterGraph)) s :
  In (k, sub) l -> In s (all_edge_singles sub) ->
  In s (flat_map (fun p => all_edge_singles (snd p)) l).
Proof. intros Hin Hs. apply in_flat_map. exists (k, sub). split; assumption. Qed.

Lemma singles_in_subtree p : forall c cl s,
  cluster_at p c = Some cl ->
  In s (flat_map (fun q => eb_singles (snd q)) (g_edges cl)) ->
  In s (all_edge_singles c).
Proof.
  induction p as [|v p IH]; cbn; intros c cl s H Hs.
  - injection H as ->. rewrite all_edge_singles_eq. apply in_or_app. left. exact Hs.
  - unfold getVertexCluster in H.
    destruct (assoc_find v (m_clusters c)) as [sub|] eqn:Hsub; [|discriminate].
    rewrite all_edge_singles_eq. apply in_or_app. right.
    eapply child_singles_in; [apply assoc_find_In; exact Hsub|].
    eapply IH; eassumption.
Qed.

Lemma NoDup_child k sub c :
  In (k, sub) (m_clusters c) ->
  NoDup (map edge_id (all_edge_singles c)) ->
  NoDup (map edge_id (all_edge_singles sub)).
Proof.
  intros Hin Hnd. rewrite all_edge_singles_eq, map_app in Hnd.
  apply NoDup_app_r in Hnd.
  apply in_split in Hin. destruct Hin as [l1 [l2 E]].
  rewrite E, flat_map_app, map_app in Hnd. apply NoDup_app_r in Hnd.
  cbn [flat_map snd] in Hnd. rewrite map_app in Hnd. apply NoDup_app_l in Hnd. exact Hnd.
Qed.

Lemma update_first_is_replace id (f : ClusterGraph -> ClusterGraph) :
  forall (l : list (LocalVertex * ClusterGraph)) v sub,
  assoc_find v l = Some sub ->
  In (ID id) (map edge_id (all_edge_singles sub)) ->
  NoDup (map edge_id (flat_map (fun p => all_edge_singles (snd p)) l)) ->
  assoc_update_first (holds_in_subtree id) f l = assoc_replace v (f sub) l.
Proof.
  induction l as [|[k y] l IH]; cbn; intros v sub Hfind Hin Hnd; [reflexivity|].
  destruct (Nat.eqb k v) eqn:E.
  - injection Hfind as ->. rewrite (proj2 (holds_in_subtree_iff id sub) Hin). reflexivity.
  - rewrite map_app in Hnd.
    destruct (holds_in_subtree id y) eqn:Hy.
    + exfalso. apply holds_in_subtree_iff in Hy.
      apply (NoDup_app_disjoint _ _ (ID id) Hnd Hy).
      apply in_map_iff in Hin. destruct Hin as [s [Hid Hs]].
      apply in_map_iff. exists s. split; [exact Hid|].
      eapply child_singles_in; [apply assoc_find_In; exact Hfind|exact Hs].
    + f_equal. apply IH; [exact Hfind|exact Hin|].
      apply NoDup_app_r in Hnd. exact Hnd.
Qed.

(** The tree after the removal is the tree before with the one cluster that
    holds the local edge replaced. *)
Lemma remove_in_subtree_at id : forall p c cl es1 e eb es2,
  NoDup (map edge_id (all_edge_singles c)) ->
  cluster_at p c = Some cl ->
  g_edges cl = es1 ++ (e, eb) :: es2 ->
  holds id eb = true ->
  remove_in_subtree id c =
  replace_at p
    (set_edges
       (es1 ++ match drop_global id (eb_singles eb) with
               | [] => []
               | ss => [(e, mkEdgeBundle (eb_props eb) ss)]
               end ++ es2) cl) c.
Proof.
  induction p as [|v p IH]; intros c cl es1 e eb es2 Hnd Hat Hes Hh.
  - cbn in Hat. injection Hat as ->. cbn [replace_at].
    rewrite remove_in_subtree_eq.
    assert (Hown : existsb (fun q => holds id (snd q)) (g_edges cl) = true).
    { apply existsb_exists. exists (e, eb). split; [|exact Hh].
      rewrite Hes. apply in_or_app. right. left. reflexivity. }
    rewrite Hown, Hes. rewrite remove_global_at; [reflexivity| |exact Hh].
    destruct (existsb (fun q => holds id (snd q)) es1) eqn:E1; [|reflexivity].
    exfalso. apply own_holds_iff in E1.
    rewrite all_edge_singles_eq, map_app in Hnd. apply NoDup_app_l in Hnd.
    rewrite Hes, flat_map_app, map_app in Hnd.
    apply (NoDup_app_disjoint _ _ (ID id) Hnd E1).
    cbn [flat_map snd]. rewrite map_app. apply in_or_app. left.
    apply holds_iff in Hh. destruct Hh as [s [Hs Hid]].
    apply in_map_iff. exists s. split; assumption.
  - cbn [cluster_at replace_at] in *. unfold getVertexCluster in *.
    destruct (assoc_find v (m_clusters c)) as [sub|] eqn:Hsub; [|discriminate].
    assert (Hin : In (ID id) (map edge_id (all_edge_singles sub))).
    { apply holds_iff in Hh. destruct Hh as [s [Hs Hid]].
      apply in_map_iff. exists s. split; [exact Hid|].
      eapply singles_in_subtree; [exact Hat|].
      rewrite Hes. apply in_flat_map. exists (e, eb). split; [|exact Hs].
      apply in_or_app. right. left. reflexivity. }
    rewrite remove_in_subtree_eq.
    destruct (existsb (fun q => holds id (snd q)) (g_edges c)) eqn:Eown.
    + exfalso. apply own_holds_iff in Eown.
      rewrite all_edge_singles_eq, map_app in Hnd.
      apply (NoDup_app_disjoint _ _ (ID id) Hnd Eown).
      apply in_map_iff in Hin. destruct Hin as [s [Hid Hs]].
      apply in_map_iff. exists s. split; [exact Hid|].
      eapply child_singles_in; [apply assoc_find_In; exact Hsub|exact Hs].
    + f_equal.
      rewrite (update_first_is_replace id _ _ v sub Hsub Hin).
      * f_equal. apply (IH sub cl es1 e eb es2); try assumption.
        eapply NoDup_child; [apply assoc_find_In; exact Hsub|exact Hnd].
      * rewrite all_edge_singles_eq, map_app in Hnd. apply NoDup_app_r in Hnd. exact Hnd.
Qed.

Lemma cluster_at_setChanged p : forall c cl,
  cluster_at p c = Some cl ->
  exists cl', cluster_at p (setChanged c) = Some cl' /\
    g_vertices cl' = g_vertices cl /\ g_edges cl' = g_edges cl /\
    m_clusters cl' = m_clusters cl.
Proof.
  destruct p as [|v p]; cbn; intros c cl H.
  - injection H as <-. exists (setChanged c).
    rewrite g_vertices_setChanged, g_edges_setChanged, m_clusters_setChanged.
    repeat split; reflexivity.
  - unfold getVertexCluster in *. rewrite m_clusters_setChanged.
    destruct (assoc_find v (m_clusters c)) as [sub|]; [|discriminate].
    exists cl. repeat split; (exact H || reflexivity).
Qed.

(** C7.  In a tree whose global edge ids are pairwise distinct, let the
    global edge [id] be the entry [x] of the aggregated list of the local
    edge [e], held by the cluster [cl] at [p] below the cluster the method is
    called on.  [removeEdge(id)] changes nothing but that cluster: its edge
    list is the one before with [e]'s list reduced to the other entries, in
    their order, or with [e] taken out when no other entry remains; and [e]
    is taken out exactly when [x] was its only entry. *)
Theorem C7_removeEdge_drops_one_entry :
  forall (id : GlobalEdge) (c : ClusterGraph) (p : path) (cl : ClusterGraph)
         es1 e eb es2 s1 x s2,
  NoDup (map edge_id (all_edge_singles c)) ->
  cluster_at p c = Some cl ->
  g_edges cl = es1 ++ (e, eb) :: es2 ->
  eb_singles eb = s1 ++ x :: s2 ->
  GlobalEdge_eqb (es_global x) id = true ->
  let rest :=
    match s1 ++ s2 with
    | [] => []
    | ss => [(e, mkEdgeBundle (eb_props eb) ss)]
    end in
  removeEdge id c = setChanged (replace_at p (set_edges (es1 ++ rest ++ es2) cl) c) /\
  (exists cl', cluster_at p (removeEdge id c) = Some cl' /\
     g_edges cl' = es1 ++ rest ++ es2 /\
     g_vertices cl' = g_vertices cl /\ m_clusters cl' = m_clusters cl) /\
  (rest = [] <-> eb_singles eb = [x]).
Proof.
  intros id c p cl es1 e eb es2 s1 x s2 Hnd Hat Hes Hss Hx rest.
  assert (Hh : holds id eb = true).
  { unfold holds. apply existsb_exists. exists x. split; [|exact Hx].
    rewrite Hss. apply in_or_app. right. left. reflexivity. }
  assert (Hxin : In x (all_edge_singles c)).
  { eapply singles_in_subtree; [exact Hat|]. rewrite Hes.
    apply in_flat_map. exists (e, eb). split.
    - apply in_or_app. right. left. reflexivity.
    - cbn. rewrite Hss. apply in_or_app. right. left. reflexivity. }
  assert (Hsub : holds_in_subtree id c = true).
  { apply holds_in_subtree_iff. apply in_map_iff. exists x. split; [|exact Hxin].
    unfold GlobalEdge_eqb in Hx. apply Z.eqb_eq in Hx. exact Hx. }
  assert (Hdrop : drop_global id (eb_singles eb) = s1 ++ s2).
  { rewrite Hss. apply drop_global_unique; [|exact Hx].
    assert (Hcl : NoDup (map edge_id (all_edge_singles cl))).
    { clear - Hnd Hat. revert c Hnd Hat.
      induction p as [|v p IH]; cbn; intros c Hnd Hat.
      - injection Hat as ->. exact Hnd.
      - unfold getVertexCluster in Hat.
        destruct (assoc_find v (m_clusters c)) as [sub|] eqn:Hsub; [|discriminate].
        apply (IH sub); [|exact Hat].
        eapply NoDup_child; [apply assoc_find_In; exact Hsub|exact Hnd]. }
    rewrite all_edge_singles_eq, map_app in Hcl. apply NoDup_app_l in Hcl.
    rewrite Hes, flat_map_app, map_app in Hcl. apply NoDup_app_r in Hcl.
    cbn [flat_map snd] in Hcl. rewrite map_app in Hcl. apply NoDup_app_l in Hcl.
    rewrite Hss in Hcl. exact Hcl. }
  assert (Heq : removeEdge id c
                = setChanged (replace_at p (set_edges (es1 ++ rest ++ es2) cl) c)).
  { unfold removeEdge. rewrite Hsub.
    rewrite (remove_in_subtree_at id p c cl es1 e eb es2 Hnd Hat Hes Hh).
    rewrite Hdrop. reflexivity. }
  split; [exact Heq|]. split.
  - rewrite Heq.
    destruct (cluster_at_setChanged p _ _
                (cluster_at_replace_at p c cl (set_edges (es1 ++ rest ++ es2) cl) Hat))
      as [cl' [H1 [H2 [H3 H4]]]].
    exists cl'. split; [exact H1|]. split; [exact H3|]. split; [exact H2|exact H4].
  - subst rest. rewrite Hss. split.
    + intros H. destruct s1 as [|a s1]; [destruct s2 as [|b s2]|]; cbn in *;
        [reflexivity|discriminate|discriminate].
    + intros H. destruct s1 as [|a s1]; cbn in H.
      * injection H as ->. reflexivity.
      * injection H as _ H. destruct s1; discriminate.
Qed.

(** *** Moving a vertex down and up again

    Every step of the two moves hands bundles from one list to another;
    none is dropped and none is copied.  The lemmas below account for each
    step up to the order of the lists. *)

Local Abbreviation singles_of es := (flat_map (fun q => eb_singles (snd q)) es).
Local Abbreviation sub_singles cl := (flat_map (fun q => all_edge_singles (snd q)) cl).
Local Abbreviation sub_bundles cl := (flat_map (fun q => all_vertex_bundles (snd q)) cl).

Lemma flat_map_filter_split {A B : Type} (f : A -> list B) (t : A -> bool) l :
  Permutation (flat_map f l)
    (flat_map f (filter t l) ++ flat_map f (filter (fun x => negb (t x)) l)).
Proof.
  induction l as [|a l IH]; cbn; [constructor|].
  destruct (t a); cbn; rewrite IH; aac_reflexivity.
Qed.

Lemma connects_incident v w e : connects v w e = true -> incident v e = true.
Proof.
  unfold connects, incident. intros H.
  apply orb_true_iff in H. destruct H as [H|H]; apply andb_true_iff in H;
    destruct H as [H1 H2]; rewrite ?H1, ?H2, ?orb_true_r; reflexivity.
Qed.

Lemma edges_three_way v w (es : list (LocalEdge * edge_bundle)) :
  Permutation (singles_of es)
    (singles_of (filter (fun q => connects v w (fst q)) es)
     ++ singles_of (filter (fun q => incident v (fst q) && negb (connects v w (fst q))) es)
     ++ singles_of (filter (fun q => negb (incident v (fst q))) es)).
Proof.
  induction es as [|[e eb] es IH]; cbn [filter flat_map fst snd]; [constructor|].
  destruct (connects v w e) eqn:Ec.
  - rewrite (connects_incident _ _ _ Ec). cbn [andb negb flat_map snd].
    rewrite IH. aac_reflexivity.
  - destruct (incident v e); cbn [andb negb flat_map snd]; rewrite IH; aac_reflexivity.
Qed.

Lemma push_singles_perm a b ss es :
  Permutation (singles_of (push_singles a b ss es)) (ss ++ singles_of es).
Proof.
  induction es as [|[e eb] es IH]; cbn [push_singles].
  - cbn. rewrite app_nil_r. apply Permutation_refl.
  - destruct (connects a b e); cbn [flat_map snd eb_singles].
    + aac_reflexivity.
    + rewrite IH. aac_reflexivity.
Qed.

Lemma place_all_perm nv placed : forall es,
  Permutation (singles_of (place_all nv placed es)) (map snd placed ++ singles_of es).
Proof.
  unfold place_all.
  induction placed as [|q placed IH]; intros es; cbn [fold_left map]; [apply Permutation_refl|].
  rewrite IH, push_singles_perm.
  change (snd q :: map snd placed) with ([snd q] ++ map snd placed). aac_reflexivity.
Qed.

Lemma fold_push_perm (far : LocalEdge -> LocalVertex) w outer : forall kept,
  Permutation
    (singles_of (fold_left
                   (fun acc q => push_singles (far (fst q)) w (eb_singles (snd q)) acc)
                   outer kept))
    (singles_of outer ++ singles_of kept).
Proof.
  induction outer as [|q outer IH]; intros kept; cbn [fold_left flat_map];
    [apply Permutation_refl|].
  rewrite IH, push_singles_perm. aac_reflexivity.
Qed.

Lemma resolve_all_snd f ss placed :
  resolve_all f ss = Some placed -> map snd placed = ss.
Proof.
  revert placed. induction ss as [|s ss IH]; cbn; intros placed H.
  - injection H as <-. reflexivity.
  - destruct (f s) as [u|]; [|discriminate].
    destruct (resolve_all f ss) as [rest|]; [|discriminate].
    injection H as <-. cbn. rewrite (IH rest eq_refl). reflexivity.
Qed.

Lemma split_singles_perm f ss stay mv :
  split_singles f ss = Some (stay, mv) ->
  Permutation ss (stay ++ map snd mv).
Proof.
  revert stay mv. induction ss as [|s ss IH]; cbn; intros stay mv H.
  - injection H as <- <-. constructor.
  - destruct (f s) as [[u|]|]; [| |discriminate];
      destruct (split_singles f ss) as [[stay' mv']|]; try discriminate;
      injection H as <- <-; specialize (IH _ _ eq_refl); cbn [map snd].
    + change (s :: ss) with ([s] ++ ss). rewrite IH.
      change (s :: map snd mv') with ([s] ++ map snd mv'). aac_reflexivity.
    + cbn. constructor. exact IH.
Qed.

Lemma split_edges_perm f w es : forall kept mv,
  split_edges f w es = Some (kept, mv) ->
  Permutation (singles_of es) (map snd mv ++ singles_of kept).
Proof.
  induction es as [|[e eb] es IH]; cbn [split_edges]; intros kept mv H.
  - injection H as <- <-. constructor.
  - destruct (split_edges f w es) as [[kept' mv']|]; [|discriminate].
    specialize (IH _ _ eq_refl). cbn [flat_map snd].
    destruct (incident w e).
    + destruct (split_singles f (eb_singles eb)) as [[stay mv1]|] eqn:Es; [|discriminate].
      apply split_singles_perm in Es.
      destruct stay as [|s stay]; injection H as <- <-;
        rewrite map_app, IH, Es; cbn [flat_map snd eb_singles]; aac_reflexivity.
    + injection H as <- <-. cbn [flat_map snd]. rewrite IH. aac_reflexivity.
Qed.

Lemma assoc_remove_none {V : Type} k (l : list (nat * V)) :
  assoc_find k l = None -> assoc_remove k l = l.
Proof.
  induction l as [|[k' y] l IH]; cbn; [reflexivity|].
  destruct (Nat.eqb k' k); [discriminate|]. intros H. rewrite IH by exact H. reflexivity.
Qed.

Lemma assoc_find_remove_other {V : Type} k v (l : list (nat * V)) :
  k <> v -> assoc_find k (assoc_remove v l) = assoc_find k l.
Proof.
  intros Hkv. induction l as [|[k' y] l IH]; cbn; [reflexivity|].
  destruct (Nat.eqb k' v) eqn:Ev.
  - apply Nat.eqb_eq in Ev. subst k'.
    destruct (Nat.eqb v k) eqn:Ek; [|reflexivity].
    apply Nat.eqb_eq in Ek. congruence.
  - cbn. destruct (Nat.eqb k' k); [reflexivity|exact IH].
Qed.

Lemma assoc_find_perm {V B : Type} (F : V -> list B) k x (l : list (nat * V)) :
  assoc_find k l = Some x ->
  Permutation (flat_map (fun q => F (snd q)) l)
    (F x ++ flat_map (fun q => F (snd q)) (assoc_remove k l)).
Proof.
  induction l as [|[k' y] l IH]; cbn; [discriminate|].
  destruct (Nat.eqb k' k); intros H.
  - injection H as ->. apply Permutation_refl.
  - cbn. rewrite (IH H). aac_reflexivity.
Qed.

Lemma assoc_replace_perm {V B : Type} (F : V -> list B) k x y (l : list (nat * V)) :
  assoc_find k l = Some x ->
  Permutation (flat_map (fun q => F (snd q)) (assoc_replace k y l))
    (F y ++ flat_map (fun q => F (snd q)) (assoc_remove k l)).
Proof.
  induction l as [|[k' z] l IH]; cbn; [discriminate|].
  destruct (Nat.eqb k' k); intros H; cbn.
  - apply Permutation_refl.
  - rewrite (IH H). aac_reflexivity.
Qed.

Lemma assoc_find_perm_snd {V : Type} k (x : V) (l : list (nat * V)) :
  assoc_find k l = Some x ->
  Permutation (map snd l) ([x] ++ map snd (assoc_remove k l)).
Proof.
  induction l as [|[k' y] l IH]; cbn; [discriminate|].
  destruct (Nat.eqb k' k); intros H.
  - injection H as ->. apply Permutation_refl.
  - cbn. rewrite (IH H). apply perm_swap.
Qed.

Lemma all_edge_singles_setChanged c :
  all_edge_singles (setChanged c) = all_edge_singles c.
Proof.
  rewrite (all_edge_singles_eq (setChanged c)), g_edges_setChanged, m_clusters_setChanged.
  symmetry. apply all_edge_singles_eq.
Qed.

Lemma all_vertex_bundles_setChanged c :
  all_vertex_bundles (setChanged c) = all_vertex_bundles c.
Proof.
  rewrite (all_vertex_bundles_eq (setChanged c)), g_vertices_setChanged, m_clusters_setChanged.
  symmetry. apply all_vertex_bundles_eq.
Qed.

(** Closes a goal that two concatenations hold the same lists in another
    order. *)
Ltac same_lists := unfold LocalVertex; aac_reflexivity.

(** The subcluster a vertex stands for travels with it. *)
Lemma moved_cluster_perm {B : Type} (F : ClusterGraph -> list B) (v nv : LocalVertex)
    (cl : list (LocalVertex * ClusterGraph)) :
  Permutation (flat_map (fun q => F (snd q)) cl)
    (flat_map (fun q => F (snd q))
       (match assoc_find v cl with Some m => [(nv, m)] | None => [] end)
     ++ flat_map (fun q => F (snd q)) (assoc_remove v cl)).
Proof.
  destruct (assoc_find v cl) as [m|] eqn:E.
  - rewrite (assoc_find_perm F v m cl E). cbn. rewrite app_nil_r. apply Permutation_refl.
  - rewrite (assoc_remove_none _ _ E). apply Permutation_refl.
Qed.

Lemma moveToSubcluster_preserves v Cv c nv c' :
  moveToSubcluster v Cv c = Some (nv, c') ->
  Permutation (all_vertex_bundles c') (all_vertex_bundles c) /\
  Permutation (all_edge_singles c') (all_edge_singles c).
Proof.
  unfold moveToSubcluster.
  destruct (Nat.eqb v Cv) eqn:Evc; [discriminate|]. apply Nat.eqb_neq in Evc.
  destruct (vertex_bundle_of v c) as [vb|] eqn:Ev; [|discriminate].
  destruct (getVertexCluster Cv c) as [cg|] eqn:Ecg; [|destruct (vertex_bundle_of v c); discriminate].
  cbv zeta.
  set (moved := match getVertexCluster v c with
                | Some m => [(fresh_vertex cg, m)] | None => [] end).
  assert (Ecg1 : vertex_lowered v c cg vb
                 = set_clusters (m_clusters cg ++ moved)
                     (set_vertices (g_vertices cg ++ [(fresh_vertex cg, vb)]) cg))
    by reflexivity.
  set (cg1 := vertex_lowered v c cg vb) in *.
  destruct (resolve_all (resolve_other (fresh_vertex cg) cg1) _) as [placed|] eqn:Er;
    [|discriminate].
  intros H. injection H as <- <-.
  apply resolve_all_snd in Er.
  unfold vertex_bundle_of in Ev. unfold getVertexCluster in Ecg.
  assert (Ecg' : assoc_find Cv (assoc_remove v (m_clusters c)) = Some cg).
  { rewrite assoc_find_remove_other; [exact Ecg|]. intros E. apply Evc. symmetry. exact E. }
  split.
  - rewrite all_vertex_bundles_setChanged, all_vertex_bundles_eq.
    cbn [g_vertices m_clusters].
    rewrite (assoc_replace_perm all_vertex_bundles Cv cg _ _ Ecg').
    rewrite all_vertex_bundles_setChanged.
    rewrite (all_vertex_bundles_eq (set_edges _ cg1)).
    cbn [set_edges g_vertices m_clusters]. rewrite Ecg1.
    cbn [set_clusters set_vertices g_vertices m_clusters].
    rewrite map_app, flat_map_app. cbn [map snd].
    rewrite (all_vertex_bundles_eq c).
    rewrite (assoc_find_perm_snd v vb _ Ev).
    rewrite (moved_cluster_perm all_vertex_bundles v (fresh_vertex cg) (m_clusters c)).
    fold (getVertexCluster v c). fold moved.
    rewrite (assoc_find_perm all_vertex_bundles Cv cg _ Ecg').
    rewrite (all_vertex_bundles_eq cg).
    same_lists.
  - rewrite all_edge_singles_setChanged, all_edge_singles_eq.
    cbn [g_edges m_clusters].
    rewrite (assoc_replace_perm all_edge_singles Cv cg _ _ Ecg').
    rewrite all_edge_singles_setChanged.
    rewrite (all_edge_singles_eq (set_edges _ cg1)).
    cbn [set_edges g_edges m_clusters]. rewrite Ecg1.
    cbn [set_clusters set_vertices g_edges m_clusters].
    rewrite place_all_perm, Er, flat_map_app, fold_push_perm.
    rewrite (all_edge_singles_eq c).
    rewrite (edges_three_way v Cv (g_edges c)).
    rewrite (moved_cluster_perm all_edge_singles v (fresh_vertex cg) (m_clusters c)).
    fold (getVertexCluster v c). fold moved.
    rewrite (assoc_find_perm all_edge_singles Cv cg _ Ecg').
    rewrite (all_edge_singles_eq cg).
    same_lists.
Qed.

Lemma vertex_raised_bundles Cv v c cg vb :
  getVertexCluster Cv c = Some cg ->
  vertex_bundle_of v cg = Some vb ->
  Permutation (all_vertex_bundles (vertex_raised Cv v c cg vb)) (all_vertex_bundles c).
Proof.
  unfold vertex_bundle_of, getVertexCluster. intros Ecg Ev.
  unfold vertex_raised. cbv zeta.
  set (moved := match getVertexCluster v cg with
                | Some m => [(fresh_vertex c, m)] | None => [] end).
  unfold getVertexCluster in moved. fold moved.
  rewrite all_vertex_bundles_eq.
  cbn [set_clusters set_vertices g_vertices m_clusters].
  rewrite map_app, flat_map_app. cbn [map snd].
  rewrite (assoc_replace_perm all_vertex_bundles Cv cg _ _ Ecg).
  rewrite all_vertex_bundles_setChanged, all_vertex_bundles_eq.
  cbn [g_vertices m_clusters].
  rewrite (all_vertex_bundles_eq c).
  rewrite (assoc_find_perm all_vertex_bundles Cv cg _ Ecg).
  rewrite (all_vertex_bundles_eq cg).
  rewrite (assoc_find_perm_snd v vb _ Ev).
  rewrite (moved_cluster_perm all_vertex_bundles v (fresh_vertex c) (m_clusters cg)).
  fold moved.
  same_lists.
Qed.

Lemma moveToParent_preserves Cv v c nv c' :
  moveToParent Cv v c = Some (nv, c') ->
  Permutation (all_vertex_bundles c') (all_vertex_bundles c) /\
  Permutation (all_edge_singles c') (all_edge_singles c).
Proof.
  unfold moveToParent.
  destruct (getVertexCluster Cv c) as [cg|] eqn:Ecg; [|discriminate].
  destruct (vertex_bundle_of v cg) as [vb|] eqn:Ev; [|discriminate].
  cbv zeta.
  set (from_child := singles_of (filter (fun q => incident v (fst q)) (g_edges cg))).
  destruct (split_edges (classify (fresh_vertex c) (vertex_raised Cv v c cg vb)) Cv (g_edges c))
    as [[es1 placed]|] eqn:Es; [|discriminate].
  intros H. injection H as <- <-.
  apply split_edges_perm in Es.
  split.
  - rewrite all_vertex_bundles_setChanged.
    rewrite <- (vertex_raised_bundles Cv v c cg vb Ecg Ev).
    rewrite !(all_vertex_bundles_eq (set_edges _ _)).
    rewrite (all_vertex_bundles_eq (vertex_raised Cv v c cg vb)). reflexivity.
  - unfold vertex_bundle_of in Ev. unfold getVertexCluster in Ecg.
    rewrite all_edge_singles_setChanged, all_edge_singles_eq.
    unfold vertex_raised. cbv zeta.
    set (moved := match getVertexCluster v cg with
                  | Some m => [(fresh_vertex c, m)] | None => [] end).
    cbn [set_edges set_clusters set_vertices g_edges m_clusters].
    assert (Hes3 : Permutation
              (singles_of match from_child with
                          | [] => place_all (fresh_vertex c) placed es1
                          | _ :: _ =>
                              push_singles (fresh_vertex c) Cv from_child
                                (place_all (fresh_vertex c) placed es1)
                          end)
              (from_child ++ singles_of (place_all (fresh_vertex c) placed es1))).
    { destruct from_child; [apply Permutation_refl|apply push_singles_perm]. }
    rewrite Hes3, place_all_perm, flat_map_app.
    rewrite (assoc_replace_perm all_edge_singles Cv cg _ _ Ecg).
    rewrite all_edge_singles_setChanged, all_edge_singles_eq.
    cbn [g_edges m_clusters].
    rewrite (all_edge_singles_eq c), Es.
    rewrite (assoc_find_perm all_edge_singles Cv cg _ Ecg).
    rewrite (all_edge_singles_eq cg).
    rewrite (flat_map_filter_split (fun q => eb_singles (snd q))
               (fun q => incident v (fst q)) (g_edges cg)).
    fold from_child.
    rewrite (moved_cluster_perm all_edge_singles v (fresh_vertex c) (m_clusters cg)).
    fold (getVertexCluster v cg). fold moved.
    same_lists.
Qed.

(** What holds of a cluster up to the order of its lists holds of the tree
    around it. *)
Lemma replace_at_perm {B : Type} (F own : ClusterGraph -> list B) :
  (forall c, F c = own c ++ flat_map (fun q => F (snd q)) (m_clusters c)) ->
  (forall cl c, own (set_clusters cl c) = own c) ->
  forall p c cl new,
  cluster_at p c = Some cl ->
  Permutation (F new) (F cl) ->
  Permutation (F (replace_at p new c)) (F c).
Proof.
  intros HF Hown. induction p as [|v p IH]; cbn; intros c cl new Hat Hperm.
  - injection Hat as ->. exact Hperm.
  - unfold getVertexCluster in *.
    destruct (assoc_find v (m_clusters c)) as [sub|] eqn:Hsub; [|discriminate].
    rewrite HF, Hown. cbn [set_clusters m_clusters].
    rewrite (assoc_replace_perm F v sub _ _ Hsub).
    rewrite (IH sub cl new Hat Hperm).
    rewrite (HF c), (assoc_find_perm F v sub _ Hsub). apply Permutation_refl.
Qed.

Lemma move_on_preserves p method t :
  (forall c nv c', method c = Some (nv, c') ->
     Permutation (all_vertex_bundles c') (all_vertex_bundles c) /\
     Permutation (all_edge_singles c') (all_edge_singles c)) ->
  Permutation (all_vertex_bundles (t_root (snd (move_on p method t))))
    (all_vertex_bundles (t_root t)) /\
  Permutation (all_edge_singles (t_root (snd (move_on p method t))))
    (all_edge_singles (t_root t)) /\
  t_id (snd (move_on p method t)) = t_id t.
Proof.
  intros Hm. unfold move_on.
  destruct (cluster_at p (t_root t)) as [c|] eqn:Hat;
    [|cbn; repeat split; apply Permutation_refl].
  destruct (method c) as [[nv c']|] eqn:Hc;
    [|cbn; repeat split; apply Permutation_refl].
  destruct (Hm c nv c' Hc) as [Hv He]. cbn [snd t_root t_id].
  split; [|split; [|reflexivity]].
  - apply (replace_at_perm all_vertex_bundles (fun c => map snd (g_vertices c))
             all_vertex_bundles_eq (fun _ _ => eq_refl) p _ c c' Hat Hv).
  - apply (replace_at_perm all_edge_singles (fun c => singles_of (g_edges c))
             all_edge_singles_eq (fun _ _ => eq_refl) p _ c c' Hat He).
Qed.

(** *** The two moves go through

    In a cluster whose global edges end at global vertices of the cluster,
    moving a vertex into a subcluster and back does not fail. *)

Lemma getContainingVertex_eq id c :
  getContainingVertex id c =
  match find (fun p => vb_global (snd p) =? id) (g_vertices c) with
  | Some (v, _) => (v, true)
  | None =>
      match assoc_first (fun sub => snd (getContainingVertex id sub)) (m_clusters c) with
      | Some (cv, _) => (cv, true)
      | None => (LocalVertex_null, false)
      end
  end.
Proof. destruct c; reflexivity. Qed.

Lemma assoc_first_some_iff {V : Type} (test : V -> bool) (l : list (nat * V)) :
  (exists r, assoc_first test l = Some r) <-> (exists q, In q l /\ test (snd q) = true).
Proof.
  induction l as [|[k x] l IH]; cbn.
  - split; [intros [r H]; discriminate|intros [q [[] _]]].
  - destruct (test x) eqn:E.
    + split; [intros _; exists (k, x); split; [left; reflexivity|exact E]
             |intros _; exists (k, x); reflexivity].
    + rewrite IH. split.
      * intros [q [Hin Hq]]. exists q. split; [right; exact Hin|exact Hq].
      * intros [q [[<-|Hin] Hq]]; [cbn in Hq; congruence|].
        exists q. split; assumption.
Qed.

Lemma getContainingVertex_found id : forall c,
  snd (getContainingVertex id c) = true <-> In id (global_vertices c).
Proof.
  induction c as [c IH] using ClusterGraph_subtree_ind.
  unfold global_vertices. rewrite getContainingVertex_eq, all_vertex_bundles_eq.
  rewrite map_app, in_app_iff.
  assert (Hsub :
    (exists r, assoc_first (fun sub => snd (getContainingVertex id sub)) (m_clusters c) = Some r)
    <-> In id (map vb_global (sub_bundles (m_clusters c)))).
  { rewrite assoc_first_some_iff. split.
    - intros [[k sub] [Hin H]]. apply (IH k sub Hin) in H.
      unfold global_vertices in H. apply in_map_iff in H. destruct H as [b [Hb Hin']].
      apply in_map_iff. exists b. split; [exact Hb|].
      apply in_flat_map. exists (k, sub). split; assumption.
    - intros H. apply in_map_iff in H. destruct H as [b [Hb Hin]].
      apply in_flat_map in Hin. destruct Hin as [[k sub] [Hin Hin']].
      exists (k, sub). split; [exact Hin|]. apply (IH k sub Hin).
      unfold global_vertices. apply in_map_iff. exists b. split; assumption. }
  destruct (find (fun p => vb_global (snd p) =? id) (g_vertices c)) as [[v b]|] eqn:Ef.
  - split; [|reflexivity]. intros _. left.
    apply find_some in Ef. destruct Ef as [Hin Hb]. cbn in Hb. apply Z.eqb_eq in Hb.
    apply in_map_iff. exists b. split; [exact Hb|].
    apply in_map_iff. exists (v, b). split; [reflexivity|exact Hin].
  - destruct (assoc_first _ (m_clusters c)) as [[cv sub]|] eqn:Ea.
    + split; [|reflexivity]. intros _. right. apply Hsub. exists (cv, sub). reflexivity.
    + split; [discriminate|]. intros [H|H]; exfalso.
      * apply in_map_iff in H. destruct H as [b [Hb Hin]].
        apply in_map_iff in Hin. destruct Hin as [[v b'] [Hq Hin]]. cbn in Hq. subst b'.
        pose proof (find_none _ _ Ef (v, b) Hin) as Hn. cbn in Hn.
        rewrite Hb, Z.eqb_refl in Hn. discriminate.
      * apply Hsub in H. destruct H as [r H]. discriminate.
Qed.

Lemma resolve_other_total nv c s :
  ends_in (global_vertices c) s -> resolve_other nv c s <> None.
Proof.
  intros [Hs Ht]. unfold resolve_other. cbv zeta.
  destruct (Nat.eqb (fst (getContainingVertex (source (es_global s)) c)) nv).
  - apply getContainingVertex_found in Ht.
    destruct (getContainingVertex (target (es_global s)) c) as [u [|]];
      [discriminate|cbn in Ht; discriminate].
  - apply getContainingVertex_found in Hs.
    destruct (getContainingVertex (source (es_global s)) c) as [u [|]];
      [discriminate|cbn in Hs; discriminate].
Qed.

Lemma classify_total nv c s :
  ends_in (global_vertices c) s -> classify nv c s <> None.
Proof.
  intros [Hs Ht]. unfold classify. cbv zeta.
  apply getContainingVertex_found in Hs. apply getContainingVertex_found in Ht.
  destruct (getContainingVertex (source (es_global s)) c) as [u [|]];
    [|cbn in Hs; discriminate].
  destruct (getContainingVertex (target (es_global s)) c) as [w [|]];
    [|cbn in Ht; discriminate].
  cbn [fst]. destruct (Nat.eqb u nv); [discriminate|].
  destruct (Nat.eqb w nv); discriminate.
Qed.

Lemma resolve_all_total f ss :
  (forall s, In s ss -> f s <> None) -> exists placed, resolve_all f ss = Some placed.
Proof.
  induction ss as [|s ss IH]; cbn; intros H; [exists []; reflexivity|].
  destruct (f s) as [u|] eqn:E; [|exfalso; apply (H s); [left; reflexivity|exact E]].
  destruct IH as [rest Hr]; [intros s' Hs'; apply H; right; exact Hs'|].
  rewrite Hr. exists ((u, s) :: rest). reflexivity.
Qed.

Lemma split_singles_total f ss :
  (forall s, In s ss -> f s <> None) -> exists r, split_singles f ss = Some r.
Proof.
  induction ss as [|s ss IH]; cbn; intros H; [exists ([], []); reflexivity|].
  destruct IH as [[stay mv] Hr]; [intros s' Hs'; apply H; right; exact Hs'|].
  rewrite Hr.
  destruct (f s) as [[u|]|] eqn:E;
    [eexists; reflexivity|eexists; reflexivity|
     exfalso; apply (H s); [left; reflexivity|exact E]].
Qed.

Lemma split_edges_total f w (es : list (LocalEdge * edge_bundle)) :
  (forall s, In s (singles_of es) -> f s <> None) ->
  exists r, split_edges f w es = Some r.
Proof.
  induction es as [|[e eb] es IH]; cbn [split_edges flat_map snd]; intros H;
    [exists ([], []); reflexivity|].
  destruct IH as [[kept mv] Hr];
    [intros s Hs; apply H; apply in_or_app; right; exact Hs|].
  rewrite Hr. destruct (incident w e); [|eexists; reflexivity].
  destruct (split_singles_total f (eb_singles eb)) as [[stay mv1] Hs];
    [intros s Hs; apply H; apply in_or_app; left; exact Hs|].
  rewrite Hs. destruct stay; eexists; reflexivity.
Qed.

Lemma assoc_remove_app_last {V : Type} k (x : V) l :
  assoc_find k l = None -> assoc_remove k (l ++ [(k, x)]) = l.
Proof.
  induction l as [|[k' y] l IH]; cbn; intros H.
  - rewrite Nat.eqb_refl. reflexivity.
  - destruct (Nat.eqb k' k); [discriminate|]. rewrite IH by exact H. reflexivity.
Qed.

Lemma singles_of_filter_In (t : LocalEdge * edge_bundle -> bool) es s :
  In s (singles_of (filter t es)) -> In s (singles_of es).
Proof.
  intros H. apply in_flat_map in H. destruct H as [q [Hq Hs]].
  apply filter_In in Hq. apply in_flat_map. exists q. split; [apply Hq|exact Hs].
Qed.

Lemma moveToSubcluster_eq v Cv c vb cg :
  v <> Cv ->
  vertex_bundle_of v c = Some vb ->
  getVertexCluster Cv c = Some cg ->
  moveToSubcluster v Cv c =
  let nv := fresh_vertex cg in
  let cg1 := vertex_lowered v c cg vb in
  match resolve_all (resolve_other nv cg1)
          (singles_of (filter (fun q => connects v Cv (fst q)) (g_edges c))) with
  | None => None
  | Some placed =>
      Some (nv,
            setChanged
              (mkClusterGraph (assoc_remove v (g_vertices c))
                 (fold_left
                    (fun acc q =>
                       push_singles (other_end v (fst q)) Cv (eb_singles (snd q)) acc)
                    (filter (fun q => incident v (fst q) && negb (connects v Cv (fst q)))
                       (g_edges c))
                    (filter (fun q => negb (incident v (fst q))) (g_edges c)))
                 (assoc_replace Cv
                    (setChanged (set_edges (place_all nv placed (g_edges cg1)) cg1))
                    (assoc_remove v (m_clusters c)))
                 (c_props c) (changed c) (copy_mode c)))
  end.
Proof.
  intros Hneq Ev Ecg. unfold moveToSubcluster.
  rewrite (proj2 (Nat.eqb_neq v Cv) Hneq), Ev, Ecg. reflexivity.
Qed.

Lemma ends_in_perm ids ids' s :
  Permutation ids ids' -> ends_in ids s -> ends_in ids' s.
Proof.
  intros Hp [Hs Ht]. split; eapply Permutation_in; eassumption.
Qed.

Lemma moves_succeed v Cv c vb cg :
  v <> Cv ->
  vertex_bundle_of v c = Some vb ->
  getVertexCluster Cv c = Some cg ->
  (forall s, In s (singles_of (g_edges c)) -> ends_in (global_vertices c) s) ->
  (forall s, In s (singles_of (filter (fun q => connects v Cv (fst q)) (g_edges c))) ->
             ends_in (scope_of v c ++ global_vertices cg) s) ->
  exists nv c1 nv' c2 cg2,
    moveToSubcluster v Cv c = Some (nv, c1) /\
    moveToParent Cv nv c1 = Some (nv', c2) /\
    Permutation (map snd (g_vertices c2)) (map snd (g_vertices c)) /\
    getVertexCluster Cv c2 = Some cg2 /\
    g_vertices cg2 = g_vertices cg.
Proof.
  intros Hneq Ev Ecg Hclosed Hinner.
  pose proof (moveToSubcluster_eq v Cv c vb cg Hneq Ev Ecg) as Hdown. cbv zeta in Hdown.
  set (nv := fresh_vertex cg) in *.
  set (cg1 := vertex_lowered v c cg vb) in *.
  assert (Hcg1 : forall x, In x (scope_of v c ++ global_vertices cg) ->
                           In x (global_vertices cg1)).
  { intros x Hx. unfold global_vertices. rewrite all_vertex_bundles_eq.
    unfold cg1, vertex_lowered. cbv zeta.
    cbn [set_clusters set_vertices g_vertices m_clusters].
    rewrite !map_app, flat_map_app, map_app. cbn [map snd].
    unfold scope_of in Hx. rewrite Ev in Hx.
    rewrite !in_app_iff in Hx. rewrite !in_app_iff.
    destruct Hx as [[Hx|Hx]|Hx].
    - left. right. exact Hx.
    - right. right. destruct (getVertexCluster v c) as [m|]; [|destruct Hx].
      cbn. rewrite app_nil_r. exact Hx.
    - unfold global_vertices in Hx. rewrite all_vertex_bundles_eq, map_app, in_app_iff in Hx.
      destruct Hx as [Hx|Hx]; [left; left; exact Hx|right; left; exact Hx]. }
  destruct (resolve_all_total (resolve_other nv cg1)
              (singles_of (filter (fun q => connects v Cv (fst q)) (g_edges c))))
    as [placed Hplaced].
  { intros s Hs. apply resolve_other_total.
    destruct (Hinner s Hs) as [H1 H2]. split; apply Hcg1; assumption. }
  rewrite Hplaced in Hdown.
  set (cg2 := setChanged (set_edges (place_all nv placed (g_edges cg1)) cg1)) in *.
  match type of Hdown with _ = Some (_, ?x) => set (c1 := x) in * end.
  destruct (moveToSubcluster_preserves v Cv c nv c1 Hdown) as [Hvb1 _].
  (* the way back *)
  assert (Ecg2 : getVertexCluster Cv c1 = Some cg2).
  { unfold getVertexCluster, c1. rewrite m_clusters_setChanged. cbn [m_clusters].
    apply (assoc_find_replace Cv cg).
    rewrite assoc_find_remove_other; [exact Ecg|]. intros E. apply Hneq. symmetry. exact E. }
  assert (Hvs2 : g_vertices cg2 = g_vertices cg ++ [(nv, vb)]).
  { unfold cg2. rewrite g_vertices_setChanged. reflexivity. }
  assert (Ev2 : vertex_bundle_of nv cg2 = Some vb).
  { unfold vertex_bundle_of. rewrite Hvs2, assoc_find_app.
    unfold nv. rewrite fresh_vertex_unused. cbn. rewrite Nat.eqb_refl. reflexivity. }
  set (c1r := vertex_raised Cv nv c1 cg2 vb).
  destruct (split_edges_total (classify (fresh_vertex c1) c1r) Cv (g_edges c1))
    as [[es1 placed'] Hsplit].
  { intros s Hs. apply classify_total.
    apply (ends_in_perm (global_vertices c)).
    - unfold global_vertices. apply Permutation_map. symmetry. unfold c1r.
      rewrite (vertex_raised_bundles Cv nv c1 cg2 vb Ecg2 Ev2). exact Hvb1.
    - apply Hclosed. unfold c1 in Hs. rewrite g_edges_setChanged in Hs. cbn [g_edges] in Hs.
      eapply Permutation_in in Hs; [|apply fold_push_perm].
      apply in_app_or in Hs. destruct Hs as [Hs|Hs]; eapply singles_of_filter_In; exact Hs. }
  assert (Hup : moveToParent Cv nv c1 =
                Some (fresh_vertex c1,
                      setChanged
                        (set_edges
                           match singles_of (filter (fun q => incident nv (fst q)) (g_edges cg2)) with
                           | [] => place_all (fresh_vertex c1) placed' es1
                           | _ :: _ =>
                               push_singles (fresh_vertex c1) Cv
                                 (singles_of (filter (fun q => incident nv (fst q)) (g_edges cg2)))
                                 (place_all (fresh_vertex c1) placed' es1)
                           end c1r))).
  { unfold moveToParent. rewrite Ecg2, Ev2. cbv zeta. fold c1r. rewrite Hsplit. reflexivity. }
  eexists nv, c1, (fresh_vertex c1), _, _.
  split; [exact Hdown|]. split; [exact Hup|].
  split; [|split].
  - rewrite g_vertices_setChanged. cbn [set_edges g_vertices].
    unfold c1r, vertex_raised. cbv zeta. cbn [set_clusters set_vertices g_vertices].
    unfold c1 at 1. rewrite g_vertices_setChanged. cbn [g_vertices].
    rewrite map_app. cbn [map snd].
    unfold vertex_bundle_of in Ev. rewrite (assoc_find_perm_snd v vb _ Ev).
    same_lists.
  - unfold getVertexCluster. rewrite m_clusters_setChanged. cbn [set_edges m_clusters].
    unfold c1r, vertex_raised. cbv zeta. cbn [set_clusters m_clusters].
    rewrite assoc_find_app.
    unfold getVertexCluster in Ecg2. rewrite (assoc_find_replace Cv cg2 _ _ Ecg2). reflexivity.
  - rewrite g_vertices_setChanged. cbn [g_vertices]. rewrite Hvs2.
    apply assoc_remove_app_last. unfold nv. apply fresh_vertex_unused.
Qed.

(** *** The way there and back, step by step

    In a cluster that satisfies the invariants of the data model the two
    moves succeed and the cluster they leave is known exactly. *)

(** **** Who holds a global vertex *)

Lemma find_unique_id (vs : list (LocalVertex * vertex_bundle)) w b :
  NoDup (map (fun p => vb_global (snd p)) vs) -> In (w, b) vs ->
  find (fun p => vb_global (snd p) =? vb_global b) vs = Some (w, b).
Proof.
  induction vs as [|[w' b'] vs IH]; cbn; intros Hnd Hin; [destruct Hin|].
  inversion Hnd as [|x l Hnot Hnd']; subst.
  destruct Hin as [Heq|Hin].
  - injection Heq as -> ->. rewrite Z.eqb_refl. reflexivity.
  - destruct (vb_global b' =? vb_global b) eqn:E.
    + apply Z.eqb_eq in E. exfalso. apply Hnot. rewrite E.
      apply in_map_iff. exists (w, b). split; [reflexivity|exact Hin].
    + apply IH; assumption.
Qed.

Lemma global_vertices_eq c :
  global_vertices c
  = map (fun p => vb_global (snd p)) (g_vertices c)
    ++ flat_map (fun q => global_vertices (snd q)) (m_clusters c).
Proof.
  unfold global_vertices. rewrite all_vertex_bundles_eq, map_app, map_map.
  f_equal. induction (m_clusters c) as [|q l IH]; cbn; [reflexivity|].
  rewrite map_app, IH. reflexivity.
Qed.

Lemma global_vertices_setChanged c : global_vertices (setChanged c) = global_vertices c.
Proof. unfold global_vertices. rewrite all_vertex_bundles_setChanged. reflexivity. Qed.

Lemma owner_own c w b :
  NoDup (global_vertices c) -> In (w, b) (g_vertices c) ->
  getContainingVertex (vb_global b) c = (w, true).
Proof.
  intros Hnd Hin. rewrite global_vertices_eq in Hnd. apply NoDup_app_l in Hnd.
  eapply getContainingVertex_own. apply find_unique_id; eassumption.
Qed.

Lemma assoc_first_unique {V B : Type} (G : V -> list B) (test : V -> bool) (a : B) k x :
  (forall y, test y = true <-> In a (G y)) ->
  forall l,
  NoDup (flat_map (fun q => G (snd q)) l) ->
  In (k, x) l -> In a (G x) ->
  assoc_first test l = Some (k, x).
Proof.
  intros Ht. induction l as [|[k' y] l IH]; cbn [assoc_first flat_map snd];
    intros Hnd Hin Ha; [destruct Hin|].
  destruct Hin as [Heq|Hin].
  - injection Heq as -> ->. rewrite (proj2 (Ht x) Ha). reflexivity.
  - destruct (test y) eqn:E.
    + exfalso. apply Ht in E. apply (NoDup_app_disjoint _ _ a Hnd E).
      apply in_flat_map. exists (k, x). split; assumption.
    + apply IH; [eapply NoDup_app_r; exact Hnd|assumption|assumption].
Qed.

Lemma owner_sub c k sub id :
  NoDup (global_vertices c) -> In (k, sub) (m_clusters c) -> In id (global_vertices sub) ->
  getContainingVertex id c = (k, true).
Proof.
  intros Hnd Hin Hid. rewrite global_vertices_eq in Hnd.
  rewrite getContainingVertex_eq.
  assert (Hsubs : In id (flat_map (fun q => global_vertices (snd q)) (m_clusters c))).
  { apply in_flat_map. exists (k, sub). split; assumption. }
  rewrite find_global_none.
  - rewrite (assoc_first_unique global_vertices
               (fun sub0 => snd (getContainingVertex id sub0)) id k sub).
    + reflexivity.
    + intros y. apply getContainingVertex_found.
    + eapply NoDup_app_r; exact Hnd.
    + exact Hin.
    + exact Hid.
  - intros Hown. exact (NoDup_app_disjoint _ _ id Hnd Hown Hsubs).
Qed.

Lemma mem_id_In id ids : mem_id id ids = true <-> In id ids.
Proof.
  unfold mem_id. rewrite existsb_exists. split.
  - intros [x [Hin E]]. apply Z.eqb_eq in E. subst. exact Hin.
  - intros Hin. exists id. split; [exact Hin|apply Z.eqb_refl].
Qed.

(** What the test [edges_sound] says of one local edge. *)
Lemma edges_sound_at c e eb :
  edges_sound c = true -> In (e, eb) (g_edges c) ->
  is_vertex (le_source e) c = true /\ is_vertex (le_target e) c = true /\
  le_source e <> le_target e /\ eb_singles eb <> [] /\
  forall s, In s (eb_singles eb) ->
    (In (source (es_global s)) (inside (le_source e) c) /\
     In (target (es_global s)) (inside (le_target e) c)) \/
    (In (source (es_global s)) (inside (le_target e) c) /\
     In (target (es_global s)) (inside (le_source e) c)).
Proof.
  unfold edges_sound, edges_at_vertices. intros H Hin.
  apply andb_true_iff in H. destruct H as [H1 H2].
  rewrite forallb_forall in H1, H2.
  specialize (H1 _ Hin). specialize (H2 _ Hin). cbn [fst snd] in H1, H2.
  apply andb_true_iff in H1. destruct H1 as [Hs Ht].
  apply andb_true_iff in H2. destruct H2 as [H2 Hb].
  apply andb_true_iff in H2. destruct H2 as [Hne Hnn].
  split; [exact Hs|]. split; [exact Ht|].
  split; [apply Nat.eqb_neq; apply negb_true_iff; exact Hne|].
  split; [intros E; rewrite E in Hnn; discriminate|].
  intros s Hs'. rewrite forallb_forall in Hb. specialize (Hb s Hs').
  unfold single_between in Hb. cbv zeta in Hb.
  apply orb_true_iff in Hb. destruct Hb as [Hb|Hb];
    apply andb_true_iff in Hb; destruct Hb as [Ha Hb];
    apply mem_id_In in Ha; apply mem_id_In in Hb; [left|right]; split; assumption.
Qed.

Lemma edges_at_vertices_at c e eb :
  edges_at_vertices c = true -> In (e, eb) (g_edges c) ->
  is_vertex (le_source e) c = true /\ is_vertex (le_target e) c = true.
Proof.
  unfold edges_at_vertices. intros H Hin. rewrite forallb_forall in H.
  specialize (H _ Hin). cbn [fst] in H. apply andb_true_iff in H. exact H.
Qed.

Lemma is_vertex_not_fresh w c : is_vertex w c = true -> w <> fresh_vertex c.
Proof.
  unfold is_vertex, vertex_bundle_of. intros H E. subst w.
  rewrite fresh_vertex_unused in H. discriminate.
Qed.

Lemma edges_not_at_fresh c :
  edges_at_vertices c = true ->
  forall q, In q (g_edges c) -> incident (fresh_vertex c) (fst q) = false.
Proof.
  intros H [e eb] Hin. destruct (edges_at_vertices_at c e eb H Hin) as [Hs Ht].
  apply is_vertex_not_fresh in Hs. apply is_vertex_not_fresh in Ht.
  unfold incident. cbn [fst].
  rewrite (proj2 (Nat.eqb_neq _ _) Hs), (proj2 (Nat.eqb_neq _ _) Ht). reflexivity.
Qed.

Lemma clusters_not_at_fresh c :
  clusters_at_vertices c = true -> assoc_find (fresh_vertex c) (m_clusters c) = None.
Proof.
  unfold clusters_at_vertices. intros H.
  destruct (assoc_find (fresh_vertex c) (m_clusters c)) as [sub|] eqn:E; [|reflexivity].
  apply assoc_find_In in E. rewrite forallb_forall in H. specialize (H _ E). cbn [fst] in H.
  apply is_vertex_not_fresh in H. congruence.
Qed.

(** **** Edges at a new local vertex *)

Lemma connects_incident_r v w e : connects v w e = true -> incident w e = true.
Proof.
  unfold connects, incident. intros H.
  apply orb_true_iff in H. destruct H as [H|H]; apply andb_true_iff in H;
    destruct H as [H1 H2]; rewrite ?H1, ?H2, ?orb_true_r; reflexivity.
Qed.

Lemma connects_from nv t e :
  le_source e = nv -> le_target e <> nv -> connects nv t e = Nat.eqb (le_target e) t.
Proof.
  intros H1 H2. unfold connects. rewrite H1, Nat.eqb_refl.
  rewrite (proj2 (Nat.eqb_neq _ _) H2), andb_false_r, orb_false_r. reflexivity.
Qed.

Lemma incident_from nv e : le_source e = nv -> incident nv e = true.
Proof. intros H. unfold incident. rewrite H, Nat.eqb_refl. reflexivity. Qed.

Lemma push_singles_app_fresh a b ss es R :
  (forall q, In q es -> connects a b (fst q) = false) ->
  push_singles a b ss (es ++ R) = es ++ push_singles a b ss R.
Proof.
  induction es as [|[e eb] es IH]; intros H; [reflexivity|].
  cbn [app push_singles].
  pose proof (H (e, eb) (or_introl eq_refl)) as He. cbn [fst] in He. rewrite He.
  rewrite IH; [reflexivity|]. intros q Hq. apply H. right. exact Hq.
Qed.

Lemma place_all_app_fresh nv placed : forall es R,
  (forall q, In q es -> incident nv (fst q) = false) ->
  place_all nv placed (es ++ R) = es ++ place_all nv placed R.
Proof.
  unfold place_all.
  induction placed as [|p placed IH]; intros es R H; cbn [fold_left]; [reflexivity|].
  rewrite push_singles_app_fresh.
  - apply IH. exact H.
  - intros q Hq. destruct (connects nv (fst p) (fst q)) eqn:E; [|reflexivity].
    apply connects_incident in E. rewrite (H q Hq) in E. discriminate.
Qed.

Lemma push_singles_recreated nv u ss R :
  u <> nv -> ss <> [] ->
  Forall (recreated_at nv) R -> Forall (recreated_at nv) (push_singles nv u ss R).
Proof.
  intros Hu Hss. induction R as [|[e eb] R IH]; intros H; cbn [push_singles].
  - constructor; [|constructor]. unfold recreated_at. cbn. repeat split; assumption.
  - inversion H as [|? ? Hq HR]; subst. destruct (connects nv u e).
    + constructor; [|exact HR]. destruct Hq as [H1 [H2 [H3 H4]]]. cbn in *.
      repeat split; try assumption.
      intros E. apply app_eq_nil in E. destruct E as [E _]. exact (H4 E).
    + constructor; [exact Hq|apply IH; exact HR].
Qed.

Lemma place_all_recreated nv placed : forall R,
  Forall (fun p => fst p <> nv) placed ->
  Forall (recreated_at nv) R -> Forall (recreated_at nv) (place_all nv placed R).
Proof.
  unfold place_all.
  induction placed as [|p placed IH]; intros R Hp H; cbn [fold_left]; [exact H|].
  inversion Hp as [|? ? Hu Hp']; subst.
  apply IH; [exact Hp'|]. apply push_singles_recreated; [exact Hu|discriminate|exact H].
Qed.

Lemma push_singles_between nv u t ss R :
  u <> nv -> Forall (recreated_at nv) R ->
  Permutation
    (singles_of (filter (fun q => connects nv t (fst q)) (push_singles nv u ss R)))
    ((if Nat.eqb u t then ss else [])
     ++ singles_of (filter (fun q => connects nv t (fst q)) R)).
Proof.
  intros Hu. induction R as [|[e eb] R IH]; intros H; cbn [push_singles].
  - cbn [filter fst]. rewrite (connects_from nv t (mkLocalEdge nv u)) by (cbn; auto).
    cbn [le_target]. destruct (Nat.eqb u t); cbn; rewrite ?app_nil_r; apply Permutation_refl.
  - inversion H as [|? ? Hq HR]; subst. destruct Hq as [H1 [H2 _]]. cbn [fst] in H1, H2.
    destruct (connects nv u e) eqn:Ec.
    + rewrite (connects_from nv u e H1 H2) in Ec. apply Nat.eqb_eq in Ec.
      cbn [filter fst]. rewrite (connects_from nv t e H1 H2), Ec.
      destruct (Nat.eqb u t); cbn [flat_map snd eb_singles app].
      * same_lists.
      * apply Permutation_refl.
    + cbn [filter fst]. destruct (connects nv t e); cbn [flat_map snd];
        rewrite (IH HR); same_lists.
Qed.

Lemma place_all_between nv t placed : forall R,
  Forall (fun p => fst p <> nv) placed -> Forall (recreated_at nv) R ->
  Permutation
    (singles_of (filter (fun q => connects nv t (fst q)) (place_all nv placed R)))
    (map snd (filter (fun p => Nat.eqb (fst p) t) placed)
     ++ singles_of (filter (fun q => connects nv t (fst q)) R)).
Proof.
  induction placed as [|p placed IH]; intros R Hp H; [apply Permutation_refl|].
  inversion Hp as [|? ? Hu Hp']; subst.
  change (place_all nv (p :: placed) R)
    with (place_all nv placed (push_singles nv (fst p) [snd p] R)).
  rewrite IH; [|exact Hp'|apply push_singles_recreated; [exact Hu|discriminate|exact H]].
  rewrite (push_singles_between nv (fst p) t [snd p] R Hu H).
  cbn [filter]. unfold LocalVertex in *. destruct (Nat.eqb (@fst nat _ p) t); cbn [map app];
    [symmetry; apply Permutation_middle|apply Permutation_refl].
Qed.

Lemma filter_all_true {A : Type} (g : A -> bool) l :
  (forall x, In x l -> g x = true) -> filter g l = l.
Proof.
  induction l as [|x l IH]; intros H; [reflexivity|]. cbn.
  rewrite (H x (or_introl eq_refl)), IH; [reflexivity|].
  intros y Hy. apply H. right. exact Hy.
Qed.

Lemma filter_all_false {A : Type} (g : A -> bool) l :
  (forall x, In x l -> g x = false) -> filter g l = [].
Proof.
  induction l as [|x l IH]; intros H; [reflexivity|]. cbn.
  rewrite (H x (or_introl eq_refl)). apply IH.
  intros y Hy. apply H. right. exact Hy.
Qed.

Lemma filter_incident_sourced nv (R : list (LocalEdge * edge_bundle)) :
  Forall (fun q => le_source (fst q) = nv) R ->
  filter (fun q => incident nv (fst q)) R = R.
Proof.
  intros H. apply filter_all_true. intros q Hq. rewrite Forall_forall in H.
  apply incident_from. apply (H q Hq).
Qed.

Lemma filter_not_incident_app nv es (R : list (LocalEdge * edge_bundle)) :
  (forall q, In q es -> incident nv (fst q) = false) ->
  Forall (fun q => le_source (fst q) = nv) R ->
  filter (fun q => negb (incident nv (fst q))) (es ++ R) = es.
Proof.
  intros Hes HR. rewrite filter_app.
  rewrite (filter_all_true _ es), (filter_all_false _ R); [apply app_nil_r| |].
  - intros q Hq. rewrite Forall_forall in HR.
    rewrite (incident_from nv (fst q)); [reflexivity|apply (HR q Hq)].
  - intros q Hq. rewrite (Hes q Hq). reflexivity.
Qed.

Lemma push_singles_sourced nv u ss R :
  Forall (fun q => le_source (fst q) = nv) R ->
  Forall (fun q => le_source (fst q) = nv) (push_singles nv u ss R).
Proof.
  induction R as [|[e eb] R IH]; intros H; cbn [push_singles].
  - constructor; [reflexivity|constructor].
  - pose proof (Forall_inv H) as Hq. pose proof (Forall_inv_tail H) as HR.
    destruct (connects nv u e).
    + constructor; [exact Hq|exact HR].
    + constructor; [exact Hq|apply IH; exact HR].
Qed.

Lemma place_all_sourced nv placed : forall R,
  Forall (fun q => le_source (fst q) = nv) R ->
  Forall (fun q => le_source (fst q) = nv) (place_all nv placed R).
Proof.
  unfold place_all.
  induction placed as [|p placed IH]; intros R H; cbn [fold_left]; [exact H|].
  apply IH. apply push_singles_sourced. exact H.
Qed.

Lemma recreated_sourced nv R :
  Forall (recreated_at nv) R -> Forall (fun q => le_source (fst q) = nv) R.
Proof. apply Forall_impl. intros q H. apply H. Qed.

(** **** Splitting the edges at the cluster vertex *)

Lemma stays_tagged f s : stays f s = true -> tagged f s = [].
Proof. unfold stays, tagged. destruct (f s) as [[u|]|]; [discriminate|reflexivity|discriminate]. Qed.

Lemma split_singles_eq f ss :
  (forall s, In s ss -> f s <> None) ->
  split_singles f ss = Some (filter (stays f) ss, flat_map (tagged f) ss).
Proof.
  induction ss as [|s ss IH]; intros H; [reflexivity|].
  cbn [split_singles filter flat_map].
  rewrite IH by (intros s' Hs'; apply H; right; exact Hs').
  pose proof (H s (or_introl eq_refl)) as Hs.
  assert (Hst : stays f s = match f s with Some None => true | _ => false end) by reflexivity.
  assert (Htg : tagged f s = match f s with Some (Some u) => [(u, s)] | _ => [] end)
    by reflexivity.
  destruct (f s) as [[u|]|]; rewrite Hst, Htg; [reflexivity|reflexivity|congruence].
Qed.

Lemma split_edges_eq f Cv es :
  (forall s, In s (singles_of es) -> f s <> None) ->
  split_edges f Cv es = Some (stay_part f Cv es, moved_part f Cv es).
Proof.
  induction es as [|[e eb] es IH]; intros H; [reflexivity|].
  cbn [split_edges].
  rewrite IH by (intros s Hs; apply H; cbn [flat_map]; apply in_or_app; right; exact Hs).
  unfold stay_part, moved_part. cbn [flat_map fst snd].
  destruct (incident Cv e); [|reflexivity].
  rewrite split_singles_eq
    by (intros s Hs; apply H; cbn [flat_map snd]; apply in_or_app; left; exact Hs).
  destruct (filter (stays f) (eb_singles eb)); reflexivity.
Qed.

Lemma incident_target t Cv : incident Cv (mkLocalEdge t Cv) = true.
Proof. unfold incident. cbn. rewrite Nat.eqb_refl, orb_true_r. reflexivity. Qed.

Lemma stay_part_push f Cv t L acc :
  (forall s, In s L -> stays f s = false) ->
  stay_part f Cv (push_singles t Cv L acc) = stay_part f Cv acc.
Proof.
  intros HL. pose proof (filter_all_false (stays f) L HL) as HfL.
  induction acc as [|[e eb] acc IH]; cbn [push_singles].
  - unfold stay_part. cbn [flat_map fst snd eb_singles].
    rewrite incident_target, HfL. reflexivity.
  - destruct (connects t Cv e) eqn:Ec.
    + unfold stay_part. cbn [flat_map fst snd eb_singles eb_props].
      rewrite (connects_incident_r _ _ _ Ec), filter_app, HfL, app_nil_r. reflexivity.
    + unfold stay_part in *. cbn [flat_map]. rewrite IH. reflexivity.
Qed.

Lemma moved_part_push f Cv t L acc :
  Permutation (moved_part f Cv (push_singles t Cv L acc))
    (flat_map (tagged f) L ++ moved_part f Cv acc).
Proof.
  induction acc as [|[e eb] acc IH]; cbn [push_singles].
  - unfold moved_part. cbn [flat_map fst snd eb_singles].
    rewrite incident_target. apply Permutation_refl.
  - destruct (connects t Cv e) eqn:Ec.
    + unfold moved_part. cbn [flat_map fst snd eb_singles].
      rewrite (connects_incident_r _ _ _ Ec), flat_map_app. same_lists.
    + unfold moved_part in *. cbn [flat_map fst snd]. rewrite IH. same_lists.
Qed.

Lemma stay_part_fold f Cv (far : LocalEdge -> LocalVertex) outer : forall acc,
  (forall s, In s (singles_of outer) -> stays f s = false) ->
  stay_part f Cv
    (fold_left (fun acc q => push_singles (far (fst q)) Cv (eb_singles (snd q)) acc) outer acc)
  = stay_part f Cv acc.
Proof.
  induction outer as [|q outer IH]; intros acc H; cbn [fold_left]; [reflexivity|].
  rewrite IH by (intros s Hs; apply H; cbn [flat_map]; apply in_or_app; right; exact Hs).
  apply stay_part_push. intros s Hs. apply H. cbn [flat_map]. apply in_or_app. left. exact Hs.
Qed.

Lemma moved_part_fold f Cv (far : LocalEdge -> LocalVertex) outer : forall acc,
  Permutation
    (moved_part f Cv
       (fold_left (fun acc q => push_singles (far (fst q)) Cv (eb_singles (snd q)) acc)
          outer acc))
    (flat_map (fun q => flat_map (tagged f) (eb_singles (snd q))) outer
     ++ moved_part f Cv acc).
Proof.
  induction outer as [|q outer IH]; intros acc; cbn [fold_left flat_map];
    [apply Permutation_refl|].
  rewrite IH, moved_part_push. same_lists.
Qed.

Lemma stay_part_all f Cv es :
  (forall q s, In q es -> In s (eb_singles (snd q)) -> stays f s = true) ->
  (forall q, In q es -> eb_singles (snd q) <> []) ->
  stay_part f Cv es = es.
Proof.
  induction es as [|[e eb] es IH]; intros H Hne; [reflexivity|].
  unfold stay_part in *. cbn [flat_map fst snd].
  rewrite IH;
    [|intros q s Hq; apply H; right; exact Hq|intros q Hq; apply Hne; right; exact Hq].
  destruct (incident Cv e); [|reflexivity].
  rewrite filter_all_true by (intros s Hs; apply (H (e, eb) s); [left; reflexivity|exact Hs]).
  pose proof (Hne (e, eb) (or_introl eq_refl)) as Hn. cbn [snd] in Hn.
  destruct eb as [pr ss]. cbn [eb_singles eb_props] in *.
  destruct ss; [congruence|reflexivity].
Qed.

Lemma moved_part_none f Cv es :
  (forall q s, In q es -> In s (eb_singles (snd q)) -> stays f s = true) ->
  moved_part f Cv es = [].
Proof.
  induction es as [|[e eb] es IH]; intros H; [reflexivity|].
  unfold moved_part in *. cbn [flat_map fst snd].
  rewrite IH by (intros q s Hq; apply H; right; exact Hq).
  destruct (incident Cv e); [|reflexivity]. rewrite app_nil_r.
  assert (Hall : forall s, In s (eb_singles eb) -> stays f s = true)
    by (intros s Hs; apply (H (e, eb) s); [left; reflexivity|exact Hs]).
  induction (eb_singles eb) as [|s ss IHs]; [reflexivity|]. cbn [flat_map].
  rewrite (stays_tagged f s) by (apply Hall; left; reflexivity).
  apply IHs. intros s' Hs'. apply Hall. right. exact Hs'.
Qed.

(** **** Where the global edges at the moved vertex belong *)

Lemma connects_cases a b e :
  connects a b e = true ->
  (le_source e = a /\ le_target e = b) \/ (le_source e = b /\ le_target e = a).
Proof.
  unfold connects. intros H. apply orb_true_iff in H.
  destruct H as [H|H]; apply andb_true_iff in H; destruct H as [H1 H2];
    apply Nat.eqb_eq in H1; apply Nat.eqb_eq in H2; [left|right]; split; assumption.
Qed.

Lemma classify_stays nv c s a b :
  getContainingVertex (source (es_global s)) c = (a, true) ->
  getContainingVertex (target (es_global s)) c = (b, true) ->
  a <> nv -> b <> nv -> classify nv c s = Some None.
Proof.
  intros Hs Ht Ha Hb. unfold classify. cbv zeta. rewrite Hs, Ht. cbn [fst].
  rewrite (proj2 (Nat.eqb_neq _ _) Ha), (proj2 (Nat.eqb_neq _ _) Hb). reflexivity.
Qed.

Lemma classify_moves nv c s u :
  (getContainingVertex (source (es_global s)) c = (nv, true) /\
   getContainingVertex (target (es_global s)) c = (u, true)) \/
  (getContainingVertex (source (es_global s)) c = (u, true) /\
   getContainingVertex (target (es_global s)) c = (nv, true)) ->
  u <> nv -> classify nv c s = Some (Some u).
Proof.
  intros [[Hs Ht]|[Hs Ht]] Hu; unfold classify; cbv zeta; rewrite Hs, Ht; cbn [fst].
  - rewrite Nat.eqb_refl. reflexivity.
  - rewrite (proj2 (Nat.eqb_neq _ _) Hu), Nat.eqb_refl. reflexivity.
Qed.

Lemma flat_map_ext_In {A B : Type} (f g : A -> list B) l :
  (forall x, In x l -> f x = g x) -> flat_map f l = flat_map g l.
Proof.
  induction l as [|x l IH]; intros H; [reflexivity|]. cbn.
  rewrite (H x (or_introl eq_refl)), IH; [reflexivity|].
  intros y Hy. apply H. right. exact Hy.
Qed.

Lemma Permutation_filter_map {A B : Type} (g : A -> bool) (h : A -> B) l l' :
  Permutation l l' -> Permutation (map h (filter g l)) (map h (filter g l')).
Proof.
  induction 1 as [|x l l' _ IH|x y l|l l' l'' _ IH1 _ IH2]; cbn.
  - constructor.
  - destruct (g x); cbn; [constructor|]; exact IH.
  - destruct (g x), (g y); cbn; try apply Permutation_refl. apply perm_swap.
  - eapply Permutation_trans; eassumption.
Qed.

Lemma tags_between (far : LocalEdge -> LocalVertex) t (l : list (LocalEdge * edge_bundle)) :
  map snd
    (filter (fun p => Nat.eqb (fst p) t)
       (flat_map (fun q => map (pair (far (fst q))) (eb_singles (snd q))) l))
  = singles_of (filter (fun q => Nat.eqb (far (fst q)) t) l).
Proof.
  unfold LocalVertex in *.
  induction l as [|[e eb] l IH]; [reflexivity|].
  cbn [flat_map filter fst snd]. rewrite filter_app, map_app, IH.
  assert (H : map snd (filter (fun p : nat * edge_bundle_single => Nat.eqb (fst p) t)
                         (map (pair (far e)) (eb_singles eb)))
              = if Nat.eqb (far e) t then eb_singles eb else []).
  { induction (eb_singles eb) as [|s ss IHs]; cbn [map filter fst].
    - destruct (Nat.eqb (far e) t); reflexivity.
    - destruct (Nat.eqb (far e) t); cbn [map snd]; rewrite IHs; reflexivity. }
  rewrite H. destruct (Nat.eqb (far e) t); reflexivity.
Qed.

Lemma filter_filter_and {A : Type} (g h : A -> bool) l :
  filter g (filter h l) = filter (fun x => h x && g x) l.
Proof.
  induction l as [|x l IH]; [reflexivity|]. cbn.
  destruct (h x); cbn; [destruct (g x)|]; rewrite IH; reflexivity.
Qed.

Ltac by_handles :=
  unfold connects, incident, other_end; cbn [le_source le_target];
  repeat match goal with
         | |- context [Nat.eqb ?x ?y] => destruct (Nat.eqb_spec x y)
         end;
  cbn; try reflexivity; try congruence.

(** Among the edges at [v] that do not lead to [Cv], the one that leads to
    [t] is the one whose other end is [t]. *)
Lemma outer_by_target v Cv t e :
  le_source e <> le_target e -> t <> Cv ->
  incident v e && negb (connects v Cv e) && Nat.eqb (other_end v e) t = connects v t e.
Proof. destruct e as [a b]. intros H Ht. cbn [le_source le_target] in H. by_handles. Qed.

Lemma outer_not_to_cluster v Cv e :
  le_source e <> le_target e ->
  incident v e && negb (connects v Cv e) && Nat.eqb (other_end v e) Cv = false.
Proof. destruct e as [a b]. intros H. cbn [le_source le_target] in H. by_handles. Qed.

Lemma other_end_other v e :
  le_source e <> le_target e -> incident v e = true -> other_end v e <> v.
Proof.
  destruct e as [a b]. intros H Hi. cbn [le_source le_target] in H.
  revert Hi. by_handles.
Qed.

Lemma other_end_is_end v e : other_end v e = le_source e \/ other_end v e = le_target e.
Proof. unfold other_end. destruct (Nat.eqb (le_source e) v); [right|left]; reflexivity. Qed.

Lemma setChanged_rebuild x vs es cl :
  setChanged (mkClusterGraph vs es cl
                (c_props (setChanged x)) (changed (setChanged x)) (copy_mode (setChanged x)))
  = setChanged (mkClusterGraph vs es cl (c_props x) (changed x) (copy_mode x)).
Proof. destruct x as [a b d p ch cm]. destruct cm; reflexivity. Qed.

Lemma ClusterGraph_eta c :
  mkClusterGraph (g_vertices c) (g_edges c) (m_clusters c) (c_props c) (changed c) (copy_mode c)
  = c.
Proof. destruct c; reflexivity. Qed.

Lemma assoc_replace_twice {V : Type} k (x y : V) l :
  assoc_replace k y (assoc_replace k x l) = assoc_replace k y l.
Proof.
  induction l as [|[k' z] l IH]; cbn; [reflexivity|].
  destruct (Nat.eqb k' k) eqn:E; cbn; rewrite E; [reflexivity|]. rewrite IH. reflexivity.
Qed.

(** **** The two moves on a cluster that satisfies the invariants *)

Section ThereAndBack.

Variables (v Cv : LocalVertex) (c cg : ClusterGraph) (vb : vertex_bundle).
Hypothesis Hneq : v <> Cv.
Hypothesis Ev : vertex_bundle_of v c = Some vb.
Hypothesis Ecg : getVertexCluster Cv c = Some cg.
Hypothesis Hids : NoDup (global_vertices c).
Hypothesis Hsound : edges_sound c = true.
Hypothesis Hkeys : clusters_at_vertices c = true.
Hypothesis Hcg_edges : edges_at_vertices cg = true.
Hypothesis Hcg_keys : clusters_at_vertices cg = true.

Local Abbreviation down_nv := (fresh_vertex cg).
Local Abbreviation lowered := (vertex_lowered v c cg vb).
Local Abbreviation inner_singles :=
  (singles_of (filter (fun q => connects v Cv (fst q)) (g_edges c))).
Local Abbreviation outer_edges :=
  (filter (fun q => incident v (fst q) && negb (connects v Cv (fst q))) (g_edges c)).
Local Abbreviation kept_edges := (filter (fun q => negb (incident v (fst q))) (g_edges c)).
Local Abbreviation edges_down :=
  (fold_left (fun acc q => push_singles (other_end v (fst q)) Cv (eb_singles (snd q)) acc)
     outer_edges kept_edges).
Local Abbreviation vertices_down := (assoc_remove v (g_vertices c)).
Local Abbreviation up_nv := (S (list_max (map fst vertices_down))).
Local Abbreviation moved_up :=
  (match getVertexCluster v c with Some m => [(up_nv, m)] | None => [] end).

Lemma inside_cluster_vertex : inside Cv c = global_vertices cg.
Proof. unfold inside. rewrite Ecg. reflexivity. Qed.

Lemma global_vertices_lowered :
  global_vertices lowered
  = (map (fun p => vb_global (snd p)) (g_vertices cg) ++ [vb_global vb])
    ++ flat_map (fun q => global_vertices (snd q)) (m_clusters cg)
    ++ match getVertexCluster v c with Some m => global_vertices m | None => [] end.
Proof.
  rewrite global_vertices_eq. unfold vertex_lowered. cbv zeta.
  cbn [set_clusters set_vertices g_vertices m_clusters].
  rewrite map_app, flat_map_app. cbn [map snd].
  destruct (getVertexCluster v c); cbn [flat_map snd]; rewrite ?app_nil_r; reflexivity.
Qed.

Lemma inside_moved_lowered x : In x (inside v c) -> In x (global_vertices lowered).
Proof.
  rewrite global_vertices_lowered, !in_app_iff. unfold inside. rewrite Ev.
  destruct (getVertexCluster v c) as [m|]; intros H.
  - right. right. exact H.
  - left. right. exact H.
Qed.

Lemma inside_cluster_lowered x : In x (global_vertices cg) -> In x (global_vertices lowered).
Proof.
  rewrite global_vertices_lowered, (global_vertices_eq cg), !in_app_iff.
  intros [H|H]; [left; left; exact H|right; left; exact H].
Qed.

Lemma inner_resolvable s : In s inner_singles -> ends_in (global_vertices lowered) s.
Proof.
  intros Hs. apply in_flat_map in Hs. destruct Hs as [[e eb] [Hq Hs]].
  apply filter_In in Hq. destruct Hq as [Hin Hc]. cbn [fst snd] in *.
  destruct (edges_sound_at c e eb Hsound Hin) as [_ [_ [_ [_ Hb]]]].
  specialize (Hb s Hs).
  apply connects_cases in Hc.
  destruct Hc as [[E1 E2]|[E1 E2]]; rewrite E1, E2, inside_cluster_vertex in Hb;
    destruct Hb as [[Ha Hb]|[Ha Hb]]; split;
    first [apply inside_moved_lowered; assumption | apply inside_cluster_lowered; assumption].
Qed.

Lemma inner_resolved :
  exists placed, resolve_all (resolve_other down_nv lowered) inner_singles = Some placed.
Proof.
  apply resolve_all_total. intros s Hs. apply resolve_other_total.
  apply inner_resolvable. exact Hs.
Qed.

Variable placed : list (LocalVertex * edge_bundle_single).
Hypothesis Hplaced : resolve_all (resolve_other down_nv lowered) inner_singles = Some placed.

Local Abbreviation child_down :=
  (setChanged (set_edges (place_all down_nv placed (g_edges lowered)) lowered)).
Local Abbreviation parent_down :=
  (setChanged
     (mkClusterGraph vertices_down edges_down
        (assoc_replace Cv child_down (assoc_remove v (m_clusters c)))
        (c_props c) (changed c) (copy_mode c))).
Local Abbreviation raised := (vertex_raised Cv down_nv parent_down child_down vb).

Lemma moved_down : moveToSubcluster v Cv c = Some (down_nv, parent_down).
Proof.
  rewrite (moveToSubcluster_eq v Cv c vb cg Hneq Ev Ecg). cbv zeta.
  rewrite Hplaced. reflexivity.
Qed.

Lemma child_down_vertices : g_vertices child_down = g_vertices cg ++ [(down_nv, vb)].
Proof. rewrite g_vertices_setChanged. reflexivity. Qed.

Lemma child_down_edges : g_edges child_down = g_edges cg ++ place_all down_nv placed [].
Proof.
  rewrite g_edges_setChanged. cbn [set_edges g_edges].
  change (g_edges lowered) with (g_edges cg).
  pose proof (place_all_app_fresh down_nv placed (g_edges cg) []
                (edges_not_at_fresh cg Hcg_edges)) as E.
  rewrite app_nil_r in E. exact E.
Qed.

Lemma child_down_clusters :
  m_clusters child_down
  = m_clusters cg ++ match getVertexCluster v c with Some m => [(down_nv, m)] | None => [] end.
Proof. rewrite m_clusters_setChanged. reflexivity. Qed.

Lemma child_down_moved : getVertexCluster down_nv child_down = getVertexCluster v c.
Proof.
  unfold getVertexCluster at 1.
  rewrite child_down_clusters, assoc_find_app, (clusters_not_at_fresh cg Hcg_keys).
  destruct (getVertexCluster v c); cbn; [rewrite Nat.eqb_refl|]; reflexivity.
Qed.

Lemma child_down_bundle : vertex_bundle_of down_nv child_down = Some vb.
Proof.
  unfold vertex_bundle_of. rewrite child_down_vertices, assoc_find_app, fresh_vertex_unused.
  cbn. rewrite Nat.eqb_refl. reflexivity.
Qed.

(** The subcluster is as before once the vertex has left it again; it is
    marked changed. *)
Lemma child_restored :
  setChanged
    (mkClusterGraph (assoc_remove down_nv (g_vertices child_down))
       (filter (fun q => negb (incident down_nv (fst q))) (g_edges child_down))
       (assoc_remove down_nv (m_clusters child_down))
       (c_props child_down) (changed child_down) (copy_mode child_down))
  = setChanged cg.
Proof.
  rewrite child_down_vertices, child_down_edges, child_down_clusters.
  rewrite assoc_remove_app_last by apply fresh_vertex_unused.
  rewrite filter_not_incident_app;
    [|apply edges_not_at_fresh; exact Hcg_edges|apply place_all_sourced; constructor].
  assert (Hcl : assoc_remove down_nv
                  (m_clusters cg
                   ++ match getVertexCluster v c with Some m => [(down_nv, m)] | None => [] end)
                = m_clusters cg).
  { destruct (getVertexCluster v c) as [m|].
    - apply assoc_remove_app_last. apply clusters_not_at_fresh. exact Hcg_keys.
    - rewrite app_nil_r. apply assoc_remove_none. apply clusters_not_at_fresh. exact Hcg_keys. }
  rewrite Hcl, setChanged_rebuild.
  change (setChanged
            (mkClusterGraph (g_vertices cg) (g_edges cg) (m_clusters cg)
               (c_props cg) (changed cg) (copy_mode cg)) = setChanged cg).
  rewrite ClusterGraph_eta. reflexivity.
Qed.

Lemma from_child_perm :
  Permutation (singles_of (filter (fun q => incident down_nv (fst q)) (g_edges child_down)))
    inner_singles.
Proof.
  rewrite child_down_edges, filter_app.
  rewrite (filter_all_false _ (g_edges cg))
    by (intros q Hq; apply edges_not_at_fresh; [exact Hcg_edges|exact Hq]).
  rewrite filter_incident_sourced by (apply place_all_sourced; constructor).
  cbn [app]. rewrite place_all_perm, (resolve_all_snd _ _ _ Hplaced).
  cbn [flat_map]. rewrite app_nil_r. apply Permutation_refl.
Qed.

Lemma parent_down_child : getVertexCluster Cv parent_down = Some child_down.
Proof.
  unfold getVertexCluster. rewrite m_clusters_setChanged. cbn [m_clusters].
  apply (assoc_find_replace Cv cg).
  rewrite assoc_find_remove_other; [exact Ecg|]. intros E. apply Hneq. symmetry. exact E.
Qed.

Lemma fresh_parent_down : fresh_vertex parent_down = up_nv.
Proof. unfold fresh_vertex. rewrite g_vertices_setChanged. reflexivity. Qed.

Lemma raised_vertices : g_vertices raised = vertices_down ++ [(up_nv, vb)].
Proof.
  unfold vertex_raised. cbv zeta. cbn [set_clusters set_vertices g_vertices].
  rewrite fresh_parent_down, g_vertices_setChanged. reflexivity.
Qed.

Lemma raised_edges : g_edges raised = edges_down.
Proof.
  unfold vertex_raised. cbv zeta. cbn [set_clusters set_vertices g_edges].
  rewrite g_edges_setChanged. reflexivity.
Qed.

Lemma raised_clusters :
  m_clusters raised
  = assoc_replace Cv (setChanged cg) (assoc_remove v (m_clusters c)) ++ moved_up.
Proof.
  unfold vertex_raised. cbv zeta. cbn [set_clusters set_vertices m_clusters].
  rewrite child_restored, child_down_moved, fresh_parent_down, m_clusters_setChanged.
  cbn [m_clusters]. rewrite assoc_replace_twice. reflexivity.
Qed.

Lemma raised_ids : NoDup (global_vertices raised).
Proof.
  apply (Permutation_NoDup (l := global_vertices c)); [|exact Hids].
  unfold global_vertices. apply Permutation_map. symmetry.
  rewrite (vertex_raised_bundles Cv down_nv parent_down child_down vb
             parent_down_child child_down_bundle).
  apply (moveToSubcluster_preserves v Cv c down_nv parent_down). exact moved_down.
Qed.

(** After the vertex has come up, every global vertex is held by the local
    vertex that held it at the start, the moved vertex under its new
    handle. *)
Lemma owner_moved x : In x (inside v c) -> getContainingVertex x raised = (up_nv, true).
Proof.
  unfold inside. rewrite Ev. intros H.
  destruct (getVertexCluster v c) as [m|] eqn:Em.
  - apply (owner_sub raised up_nv m x raised_ids); [|exact H].
    rewrite raised_clusters, Em. apply in_or_app. right. left. reflexivity.
  - destruct H as [<-|[]]. apply (owner_own raised up_nv vb raised_ids).
    rewrite raised_vertices. apply in_or_app. right. left. reflexivity.
Qed.

Lemma owner_other a x :
  a <> v -> In x (inside a c) -> getContainingVertex x raised = (a, true).
Proof.
  intros Ha. unfold inside. destruct (getVertexCluster a c) as [sub|] eqn:Ea.
  - intros H. unfold getVertexCluster in Ea.
    assert (Ea' : assoc_find a (assoc_remove v (m_clusters c)) = Some sub)
      by (rewrite assoc_find_remove_other; assumption).
    destruct (Nat.eqb_spec a Cv) as [->|Hac].
    + assert (sub = cg) by (unfold getVertexCluster in Ecg; congruence). subst sub.
      apply (owner_sub raised Cv (setChanged cg) x raised_ids).
      * rewrite raised_clusters. apply in_or_app. left.
        apply assoc_find_In. apply (assoc_find_replace Cv cg). exact Ea'.
      * rewrite global_vertices_setChanged. exact H.
    + apply (owner_sub raised a sub x raised_ids); [|exact H].
      rewrite raised_clusters. apply in_or_app. left.
      apply assoc_find_In. rewrite assoc_find_replace_other by exact Hac. exact Ea'.
  - destruct (vertex_bundle_of a c) as [b|] eqn:Eb; [|intros []].
    intros [<-|[]]. apply (owner_own raised a b raised_ids).
    rewrite raised_vertices. apply in_or_app. left.
    apply assoc_find_In. rewrite assoc_find_remove_other by exact Ha. exact Eb.
Qed.

Lemma not_up_nv a : a <> v -> is_vertex a c = true -> a <> up_nv.
Proof.
  unfold is_vertex, vertex_bundle_of. intros Ha H E.
  rewrite <- (assoc_find_remove_other a v (g_vertices c) Ha) in H.
  rewrite (assoc_find_above a vertices_down) in H; [discriminate|].
  rewrite E. apply Nat.lt_succ_diag_r.
Qed.

Lemma not_incident_ends e :
  incident v e = false -> le_source e <> v /\ le_target e <> v.
Proof.
  unfold incident. intros H. apply orb_false_iff in H. destruct H as [H1 H2].
  split; apply Nat.eqb_neq; assumption.
Qed.

Lemma classify_kept q s :
  In q kept_edges -> In s (eb_singles (snd q)) -> classify up_nv raised s = Some None.
Proof.
  destruct q as [e eb]. intros Hq Hs. apply filter_In in Hq. destruct Hq as [Hin Hi].
  cbn [fst snd] in *. apply negb_true_iff in Hi.
  destruct (not_incident_ends e Hi) as [Hsv Htv].
  destruct (edges_sound_at c e eb Hsound Hin) as [Vs [Vt [_ [_ Hb]]]].
  pose proof (not_up_nv _ Hsv Vs) as Hsn. pose proof (not_up_nv _ Htv Vt) as Htn.
  destruct (Hb s Hs) as [[Ha Hbb]|[Ha Hbb]].
  - apply (classify_stays up_nv raised s (le_source e) (le_target e));
      [apply owner_other; assumption|apply owner_other; assumption|assumption|assumption].
  - apply (classify_stays up_nv raised s (le_target e) (le_source e));
      [apply owner_other; assumption|apply owner_other; assumption|assumption|assumption].
Qed.

Lemma classify_outer q s :
  In q outer_edges -> In s (eb_singles (snd q)) ->
  classify up_nv raised s = Some (Some (other_end v (fst q))).
Proof.
  destruct q as [e eb]. intros Hq Hs. apply filter_In in Hq. destruct Hq as [Hin Hi].
  cbn [fst snd] in *. apply andb_true_iff in Hi. destruct Hi as [Hi _].
  destruct (edges_sound_at c e eb Hsound Hin) as [Vs [Vt [Hst [_ Hb]]]].
  specialize (Hb s Hs).
  unfold incident in Hi. unfold other_end.
  destruct (Nat.eqb_spec (le_source e) v) as [Esv|Nsv].
  - assert (Htv : le_target e <> v) by congruence.
    rewrite Esv in Hb. apply classify_moves; [|apply not_up_nv; assumption].
    destruct Hb as [[Ha Hbb]|[Ha Hbb]]; [left|right]; split;
      first [apply owner_moved; assumption | apply owner_other; assumption].
  - cbn [orb] in Hi. apply Nat.eqb_eq in Hi.
    rewrite Hi in Hb. apply classify_moves; [|apply not_up_nv; assumption].
    destruct Hb as [[Ha Hbb]|[Ha Hbb]]; [right|left]; split;
      first [apply owner_moved; assumption | apply owner_other; assumption].
Qed.

Lemma singles_down s :
  In s (singles_of edges_down) ->
  (exists q, In q outer_edges /\ In s (eb_singles (snd q))) \/
  (exists q, In q kept_edges /\ In s (eb_singles (snd q))).
Proof.
  intros Hs. eapply Permutation_in in Hs; [|apply fold_push_perm].
  apply in_app_or in Hs. destruct Hs as [Hs|Hs]; apply in_flat_map in Hs; [left|right]; exact Hs.
Qed.

Lemma split_down :
  split_edges (classify up_nv raised) Cv edges_down
  = Some (kept_edges, moved_part (classify up_nv raised) Cv edges_down).
Proof.
  rewrite split_edges_eq.
  - rewrite stay_part_fold, stay_part_all; [reflexivity| | |].
    + intros q s Hq Hs. unfold stays. rewrite (classify_kept q s Hq Hs). reflexivity.
    + intros [e eb] Hq. apply filter_In in Hq. destruct Hq as [Hin _].
      apply (edges_sound_at c e eb Hsound Hin).
    + intros s Hs. apply in_flat_map in Hs. destruct Hs as [q [Hq Hs]].
      unfold stays. rewrite (classify_outer q s Hq Hs). reflexivity.
  - intros s Hs. destruct (singles_down s Hs) as [[q [Hq Hs']]|[q [Hq Hs']]].
    + rewrite (classify_outer q s Hq Hs'). discriminate.
    + rewrite (classify_kept q s Hq Hs'). discriminate.
Qed.

Lemma moved_up_perm :
  Permutation (moved_part (classify up_nv raised) Cv edges_down)
    (flat_map (fun q => map (pair (other_end v (fst q))) (eb_singles (snd q))) outer_edges).
Proof.
  rewrite moved_part_fold, moved_part_none, app_nil_r.
  - rewrite (flat_map_ext_In
               (fun q => flat_map (tagged (classify up_nv raised)) (eb_singles (snd q)))
               (fun q => map (pair (other_end v (fst q))) (eb_singles (snd q)))).
    + apply Permutation_refl.
    + intros q Hq.
      assert (H : forall s, In s (eb_singles (snd q)) ->
                    tagged (classify up_nv raised) s = [(other_end v (fst q), s)]).
      { intros s Hs. unfold tagged. rewrite (classify_outer q s Hq Hs). reflexivity. }
      induction (eb_singles (snd q)) as [|s ss IH]; [reflexivity|]. cbn [flat_map map].
      rewrite (H s (or_introl eq_refl)), IH; [reflexivity|].
      intros s' Hs'. apply H. right. exact Hs'.
  - intros q s Hq Hs. unfold stays. rewrite (classify_kept q s Hq Hs). reflexivity.
Qed.

Lemma cluster_vertex_not_up_nv : Cv <> up_nv.
Proof.
  apply not_up_nv; [intros E; apply Hneq; symmetry; exact E|].
  unfold clusters_at_vertices in Hkeys. rewrite forallb_forall in Hkeys.
  apply (Hkeys (Cv, cg)). apply assoc_find_In. exact Ecg.
Qed.

Lemma kept_not_at_up_nv q : In q kept_edges -> incident up_nv (fst q) = false.
Proof.
  destruct q as [e eb]. intros Hq. apply filter_In in Hq. destruct Hq as [Hin Hi].
  cbn [fst] in *. apply negb_true_iff in Hi.
  destruct (not_incident_ends e Hi) as [Hsv Htv].
  destruct (edges_sound_at c e eb Hsound Hin) as [Vs [Vt _]].
  pose proof (not_up_nv _ Hsv Vs) as Hsn. pose proof (not_up_nv _ Htv Vt) as Htn.
  unfold incident.
  rewrite (proj2 (Nat.eqb_neq _ _) Hsn), (proj2 (Nat.eqb_neq _ _) Htn). reflexivity.
Qed.

Lemma moved_up_targets :
  Forall (fun p => fst p <> up_nv) (moved_part (classify up_nv raised) Cv edges_down).
Proof.
  apply Forall_forall. intros p Hp.
  eapply Permutation_in in Hp; [|apply moved_up_perm].
  apply in_flat_map in Hp. destruct Hp as [[e eb] [Hq Hp]].
  apply in_map_iff in Hp. destruct Hp as [s [<- _]]. cbn [fst snd].
  apply filter_In in Hq. destruct Hq as [Hin Hi]. cbn [fst] in Hi.
  apply andb_true_iff in Hi. destruct Hi as [Hi _].
  destruct (edges_sound_at c e eb Hsound Hin) as [Vs [Vt [Hst _]]].
  apply not_up_nv.
  - apply other_end_other; assumption.
  - destruct (other_end_is_end v e) as [E|E]; rewrite E; assumption.
Qed.

(** The global edges that the re-created local edges hold between the new
    handle and a vertex [t] are those the local edges held between [v] and
    [t] at the start. *)
Lemma recreated_between t :
  Permutation
    ((if Nat.eqb Cv t
      then singles_of (filter (fun q => incident down_nv (fst q)) (g_edges child_down))
      else [])
     ++ map snd (filter (fun p => Nat.eqb (fst p) t)
                   (moved_part (classify up_nv raised) Cv edges_down)))
    (singles_of (filter (fun q => connects v t (fst q)) (g_edges c))).
Proof.
  rewrite (Permutation_filter_map (fun p => Nat.eqb (fst p) t) snd _ _ moved_up_perm).
  rewrite tags_between, filter_filter_and.
  assert (Hends : forall q, In q (g_edges c) -> le_source (fst q) <> le_target (fst q)).
  { intros [e eb] Hin. apply (edges_sound_at c e eb Hsound Hin). }
  destruct (Nat.eqb_spec Cv t) as [<-|Hct].
  - rewrite from_child_perm.
    rewrite (filter_all_false
               (fun q => incident v (fst q) && negb (connects v Cv (fst q))
                         && Nat.eqb (other_end v (fst q)) Cv)).
    + cbn [flat_map]. rewrite app_nil_r. apply Permutation_refl.
    + intros q Hq. apply outer_not_to_cluster. apply Hends. exact Hq.
  - cbn [app].
    rewrite (filter_ext_in
               (fun q => incident v (fst q) && negb (connects v Cv (fst q))
                         && Nat.eqb (other_end v (fst q)) t)
               (fun q => connects v t (fst q))).
    + apply Permutation_refl.
    + intros q Hq. apply outer_by_target; [apply Hends; exact Hq|].
      intros E. apply Hct. symmetry. exact E.
Qed.

(** The two moves in a row: both succeed, and the cluster is the one at the
    start except that the moved vertex has a new handle at the end of the
    vertex list, its local edges are re-created at the end of the edge list,
    and the cluster and the subcluster are marked changed. *)
Lemma moves_restore_with :
  moveToSubcluster v Cv c = Some (down_nv, parent_down) /\
  exists recreated,
    moveToParent Cv down_nv parent_down
    = Some (up_nv,
            setChanged
              (mkClusterGraph (vertices_down ++ [(up_nv, vb)]) (kept_edges ++ recreated)
                 (assoc_replace Cv (setChanged cg) (assoc_remove v (m_clusters c)) ++ moved_up)
                 (c_props c) (changed c) (copy_mode c))) /\
    Forall (recreated_at up_nv) recreated /\
    forall t,
      Permutation (singles_of (filter (fun q => connects up_nv t (fst q)) recreated))
        (singles_of (filter (fun q => connects v t (fst q)) (g_edges c))).
Proof.
  split; [exact moved_down|].
  set (mv := moved_part (classify up_nv raised) Cv edges_down).
  set (fc := singles_of (filter (fun q => incident down_nv (fst q)) (g_edges child_down))).
  set (R := place_all up_nv mv []).
  assert (HR : Forall (recreated_at up_nv) R)
    by (apply place_all_recreated; [exact moved_up_targets|constructor]).
  exists (match fc with [] => R | _ :: _ => push_singles up_nv Cv fc R end).
  split; [|split].
  - unfold moveToParent. rewrite parent_down_child, child_down_bundle. cbv zeta.
    rewrite fresh_parent_down.
    replace (g_edges parent_down) with edges_down by (rewrite g_edges_setChanged; reflexivity).
    rewrite split_down. fold mv. fold fc.
    assert (Hes2 : place_all up_nv mv kept_edges = kept_edges ++ R).
    { pose proof (place_all_app_fresh up_nv mv kept_edges [] kept_not_at_up_nv) as E.
      rewrite app_nil_r in E. exact E. }
    assert (Hes3 : match fc with
                   | [] => place_all up_nv mv kept_edges
                   | _ :: _ => push_singles up_nv Cv fc (place_all up_nv mv kept_edges)
                   end
                   = kept_edges ++ match fc with [] => R | _ :: _ => push_singles up_nv Cv fc R end).
    { rewrite Hes2. destruct fc as [|s0 fc0]; [reflexivity|].
      apply push_singles_app_fresh. intros q Hq.
      destruct (connects up_nv Cv (fst q)) eqn:E; [|reflexivity].
      apply connects_incident in E. rewrite (kept_not_at_up_nv q Hq) in E. discriminate. }
    rewrite Hes3. f_equal. f_equal.
    unfold set_edges at 1. rewrite raised_vertices, raised_clusters.
    change (c_props raised) with (c_props parent_down).
    change (changed raised) with (changed parent_down).
    change (copy_mode raised) with (copy_mode parent_down).
    match goal with
    | |- context [c_props (setChanged ?x)] => exact (setChanged_rebuild x _ _ _)
    end.
  - destruct fc as [|s0 fc0]; [exact HR|].
    apply push_singles_recreated; [exact cluster_vertex_not_up_nv|discriminate|exact HR].
  - intros t. rewrite <- (recreated_between t). fold mv. fold fc.
    assert (Hrec : Permutation
                     (singles_of (filter (fun q => connects up_nv t (fst q))
                                    match fc with [] => R | _ :: _ => push_singles up_nv Cv fc R end))
                     ((if Nat.eqb Cv t then fc else [])
                      ++ singles_of (filter (fun q => connects up_nv t (fst q)) R))).
    { destruct fc as [|s0 fc0].
      - destruct (Nat.eqb Cv t); apply Permutation_refl.
      - apply push_singles_between; [exact cluster_vertex_not_up_nv|exact HR]. }
    rewrite Hrec. unfold R.
    rewrite (place_all_between up_nv t mv [] moved_up_targets (Forall_nil _)).
    cbn [filter flat_map]. rewrite app_nil_r. apply Permutation_refl.
Qed.

End ThereAndBack.

Lemma moves_restore v Cv c cg vb :
  v <> Cv ->
  vertex_bundle_of v c = Some vb ->
  getVertexCluster Cv c = Some cg ->
  NoDup (global_vertices c) ->
  edges_sound c = true ->
  clusters_at_vertices c = true ->
  edges_at_vertices cg = true ->
  clusters_at_vertices cg = true ->
  let nv' := S (list_max (map fst (assoc_remove v (g_vertices c)))) in
  exists c1 recreated,
    moveToSubcluster v Cv c = Some (fresh_vertex cg, c1) /\
    moveToParent Cv (fresh_vertex cg) c1
    = Some (nv',
            setChanged
              (mkClusterGraph
                 (assoc_remove v (g_vertices c) ++ [(nv', vb)])
                 (filter (fun q => negb (incident v (fst q))) (g_edges c) ++ recreated)
                 (assoc_replace Cv (setChanged cg) (assoc_remove v (m_clusters c))
                  ++ match getVertexCluster v c with Some m => [(nv', m)] | None => [] end)
                 (c_props c) (changed c) (copy_mode c))) /\
    Forall (recreated_at nv') recreated /\
    forall t,
      Permutation (singles_of (filter (fun q => connects nv' t (fst q)) recreated))
        (singles_of (filter (fun q => connects v t (fst q)) (g_edges c))).
Proof.
  intros Hneq Ev Ecg Hids Hsound Hkeys Hcg_edges Hcg_keys nv'.
  destruct (inner_resolved v Cv c cg vb Ev Ecg Hsound) as [placed Hplaced].
  destruct (moves_restore_with v Cv c cg vb Hneq Ev Ecg Hids Hsound Hkeys Hcg_edges Hcg_keys
              placed Hplaced) as [Hdown [recreated [Hup [Hrec Hbetween]]]].
  eexists. exists recreated.
  split; [exact Hdown|]. split; [exact Hup|]. split; [exact Hrec|exact Hbetween].
Qed.

Lemma replace_at_twice p : forall c cl new1 new2,
  cluster_at p c = Some cl ->
  replace_at p new2 (replace_at p new1 c) = replace_at p new2 c.
Proof.
  induction p as [|w p IH]; cbn; intros c cl new1 new2 H; [reflexivity|].
  unfold getVertexCluster in *.
  destruct (assoc_find w (m_clusters c)) as [sub|] eqn:Hsub; [|discriminate].
  cbn [set_clusters m_clusters].
  rewrite (assoc_find_replace _ _ _ _ Hsub).
  unfold set_clusters. cbn [g_vertices g_edges m_clusters c_props changed copy_mode].
  rewrite (IH _ _ _ _ H), assoc_replace_twice. reflexivity.
Qed.

(** The two moves leave the same vertex bundles and global-edge bundles in
    the tree whatever the cluster looks like, and the generator untouched. *)
Lemma move_there_and_back_keeps_bundles (t : Tree) (p : path) (v Cv : LocalVertex) :
  Permutation (all_vertex_bundles (t_root (move_there_and_back p v Cv t)))
    (all_vertex_bundles (t_root t)) /\
  Permutation (all_edge_singles (t_root (move_there_and_back p v Cv t)))
    (all_edge_singles (t_root t)) /\
  t_id (move_there_and_back p v Cv t) = t_id t.
Proof.
  unfold move_there_and_back.
  pose proof (move_on_preserves p (moveToSubcluster v Cv) t
                (moveToSubcluster_preserves v Cv)) as H1.
  destruct (move_on p (moveToSubcluster v Cv) t) as [[nv|] t1]; cbn [snd] in H1;
    [|exact H1].
  pose proof (move_on_preserves p (moveToParent Cv nv) t1
                (moveToParent_preserves Cv nv)) as H2.
  destruct H1 as [Hv1 [He1 Hi1]]. destruct H2 as [Hv2 [He2 Hi2]].
  split; [|split].
  - rewrite Hv2. exact Hv1.
  - rewrite He2. exact He1.
  - rewrite Hi2. exact Hi1.
Qed.


End ClusterGraph.

(** ** A concrete attribute registry and scenario

    One numeric property per vertex and per local edge, no further cluster
    property, and one optional object per entity. *)

Arguments mkClusterGraph {vertex_props edge_props cluster_props object_slots}.
Arguments mkVertexBundle {vertex_props object_slots}.
Arguments mkEdgeSingle {object_slots}.
Arguments mkEdgeBundle {edge_props object_slots}.
Arguments mkTree {vertex_props edge_props cluster_props object_slots}.
Arguments g_vertices {vertex_props edge_props cluster_props object_slots}.
Arguments g_edges {vertex_props edge_props cluster_props object_slots}.
Arguments m_clusters {vertex_props edge_props cluster_props object_slots}.
Arguments changed {vertex_props edge_props cluster_props object_slots}.
Arguments eb_props {edge_props object_slots}.
Arguments eb_singles {edge_props object_slots}.
Arguments es_global {object_slots}.
Arguments t_id {vertex_props edge_props cluster_props object_slots}.
Arguments t_root {vertex_props edge_props cluster_props object_slots}.
Arguments ClusterGraph_new {vertex_props edge_props cluster_props object_slots}.
Arguments addVertex {vertex_props edge_props cluster_props object_slots}.
Arguments createCluster {vertex_props edge_props cluster_props object_slots}.
Arguments addEdge {vertex_props edge_props cluster_props object_slots}.
Arguments edge {vertex_props edge_props cluster_props object_slots}.
Arguments isCluster {vertex_props edge_props cluster_props object_slots}.
Arguments getLocalVertex {vertex_props edge_props cluster_props object_slots}.
Arguments getGlobalEdgeCount {vertex_props edge_props cluster_props object_slots}.
Arguments removeEdge {vertex_props edge_props cluster_props object_slots}.
Arguments moveToSubcluster {vertex_props edge_props cluster_props object_slots}.
Arguments moveToParent {vertex_props edge_props cluster_props object_slots}.
Arguments move_there_and_back {vertex_props edge_props cluster_props object_slots}.
Arguments call_on {vertex_props edge_props cluster_props object_slots R}.
Arguments cluster_at {vertex_props edge_props cluster_props object_slots}.
Arguments all_vertex_bundles {vertex_props edge_props cluster_props object_slots}.
Arguments all_edge_singles {vertex_props edge_props cluster_props object_slots}.
Arguments global_vertices {vertex_props edge_props cluster_props object_slots}.
Arguments vertex_bundle_of {vertex_props edge_props cluster_props object_slots}.
Arguments getVertexCluster {vertex_props edge_props cluster_props object_slots}.
Arguments setChanged {vertex_props edge_props cluster_props object_slots}.
Arguments edges_sound {vertex_props edge_props cluster_props object_slots}.
Arguments edges_at_vertices {vertex_props edge_props cluster_props object_slots}.
Arguments clusters_at_vertices {vertex_props edge_props cluster_props object_slots}.
Arguments recreated_at {edge_props object_slots}.

Local Abbreviation Cluster := (ClusterGraph nat nat unit (option nat)).

(** A root with two vertices (global ids 11 and 12), built by the
    operations themselves. *)
Local Abbreviation two_vertices :=
  (let '(_, g1, c1) := addVertex 0%nat None IDgen_new (ClusterGraph_new tt false : Cluster) in
   let '(_, g2, c2) := addVertex 0%nat None g1 c1 in
   (g2, c2)).

(** The same with a local edge between the two, holding global edge 13. *)
Local Abbreviation connected :=
  (let '(_, g, c) := addEdge 0%nat None 1%nat 2%nat (fst two_vertices) (snd two_vertices) in
   (g, c)).

(** A root whose subcluster (at local vertex 3) holds two vertices joined by
    a local edge that aggregates the global edges 20 and 21. *)
Local Abbreviation nested_child :=
  (mkClusterGraph
     [(1%nat, mkVertexBundle 11 0%nat None); (2%nat, mkVertexBundle 12 0%nat None)]
     [(mkLocalEdge 1%nat 2%nat,
       mkEdgeBundle 5%nat
         [mkEdgeSingle None (mkGlobalEdge 11 12 20);
          mkEdgeSingle (Some 1%nat) (mkGlobalEdge 11 12 21)])]
     [] tt false false : Cluster).

Local Abbreviation nested :=
  (mkClusterGraph
     [(3%nat, mkVertexBundle 14 0%nat None)] []
     [(3%nat, nested_child)]
     tt false false : Cluster).

(** A tree at rest (no cluster marked changed): two vertices joined by a
    local edge whose property was set to 7, and an empty subcluster at local
    vertex 3. *)
Local Abbreviation at_rest :=
  (mkTree (mkIDgen 14)
     (mkClusterGraph
        [(1%nat, mkVertexBundle 11 4%nat (Some 9%nat)); (2%nat, mkVertexBundle 12 0%nat None);
         (3%nat, mkVertexBundle 14 0%nat None)]
        [(mkLocalEdge 1%nat 2%nat,
          mkEdgeBundle 7%nat [mkEdgeSingle (Some 2%nat) (mkGlobalEdge 11 12 13)])]
        [(3%nat, mkClusterGraph [] [] [] tt false false)]
        tt false false : Cluster)).

(** A tree in use: vertex 1 (global id 11, property 4, object 9) is joined
    to vertex 2 and to the cluster vertex 3, whose subcluster holds global
    vertex 15; vertex 2 is joined to the cluster vertex as well.  The three
    local edges have the properties 7, 5 and 6. *)
Local Abbreviation busy_child :=
  (mkClusterGraph [(1%nat, mkVertexBundle 15 0%nat None)] [] [] tt false false : Cluster).

Local Abbreviation busy_root :=
  (mkClusterGraph
     [(1%nat, mkVertexBundle 11 4%nat (Some 9%nat)); (2%nat, mkVertexBundle 12 0%nat None);
      (3%nat, mkVertexBundle 14 0%nat None)]
     [(mkLocalEdge 1%nat 2%nat,
       mkEdgeBundle 7%nat [mkEdgeSingle (Some 2%nat) (mkGlobalEdge 11 12 13)]);
      (mkLocalEdge 2%nat 3%nat,
       mkEdgeBundle 5%nat [mkEdgeSingle None (mkGlobalEdge 12 15 16)]);
      (mkLocalEdge 1%nat 3%nat,
       mkEdgeBundle 6%nat [mkEdgeSingle (Some 3%nat) (mkGlobalEdge 11 15 17)])]
     [(3%nat, busy_child)]
     tt false false : Cluster).

Local Abbreviation busy := (mkTree (mkIDgen 17) busy_root).

(** The scenario of the specification, run on the model: two vertices get
    the ids 11 and 12, the edge between them the id 13 and the subcluster the
    id 14; after moving vertex 1 into the subcluster the global edge sits on
    the local edge between vertex 2 and the cluster vertex 3, and the move
    back returns the vertex to the root under the new handle 4, with the
    global edge on the local edge between 4 and 2. *)
Example scenario_moves :
  let '(g, c) := connected in
  let '(cv, g', c') := createCluster 0%nat tt None g c in
  cv = 3%nat /\ g' = mkIDgen 14 /\
  exists c1 c2,
    moveToSubcluster 0%nat 1%nat 3%nat c' = Some (1%nat, c1) /\
    map fst (g_vertices c1) = [2%nat; 3%nat] /\
    map (fun q => (fst q, map es_global (eb_singles (snd q)))) (g_edges c1)
    = [(mkLocalEdge 2%nat 3%nat, [mkGlobalEdge 11 12 13])] /\
    moveToParent 0%nat 3%nat 1%nat c1 = Some (4%nat, c2) /\
    map fst (g_vertices c2) = [2%nat; 3%nat; 4%nat] /\
    map (fun q => (fst q, map es_global (eb_singles (snd q)))) (g_edges c2)
    = [(mkLocalEdge 4%nat 2%nat, [mkGlobalEdge 11 12 13])] /\
    map (fun q => g_vertices (snd q)) (m_clusters c2) = [[]].
Proof.
  vm_compute. split; [reflexivity|]. split; [reflexivity|].
  eexists. eexists. repeat split; reflexivity.
Qed.

Lemma C5_addVertex_then_getLocalVertex_witness :
  let '(g, c) := two_vertices in
  Forall (fun p => vb_global nat (option nat) (snd p) <= count g) (g_vertices c) /\
  INT_MIN <= count g < INT_MAX /\
  let '(r, _, c') := addVertex 0%nat None g c in
  r = (3%nat, 13) /\ getLocalVertex (snd r) c' = (3%nat, true).
Proof.
  assert (Hall : Forall (fun p => vb_global nat (option nat) (snd p) <= count (fst two_vertices))
                   (g_vertices (snd two_vertices))).
  { vm_compute. repeat constructor; discriminate. }
  assert (Hcnt : INT_MIN <= count (fst two_vertices) < INT_MAX).
  { vm_compute. split; [discriminate|reflexivity]. }
  pose proof (proj1 (C5_addVertex_then_getLocalVertex nat nat unit (option nat) 0%nat None
                       (fst two_vertices) (snd two_vertices)) Hall Hcnt) as W.
  vm_compute in W. destruct W as [_ [_ [_ [_ W]]]].
  vm_compute. split; [repeat constructor; discriminate|].
  split; [split; [discriminate|reflexivity]|]. split; [reflexivity|exact W].
Defined.

(** C5 as stated fails when the generator has been set back: after
    [addVertex()] has created vertex 1 with id 11 and [setCount(10)] has reset
    the counter, the next [addVertex()] creates vertex 2 with the id 11 again,
    and [getLocalVertex(11)] returns the first holder, vertex 1. *)
Lemma C5_counterexample_generator_set_back :
  let '(r1, g1, c1) := addVertex 0%nat None IDgen_new (ClusterGraph_new tt false : Cluster) in
  let '(r2, g2, c2) := addVertex 0%nat None (setCount 10 g1) c1 in
  r1 = (1%nat, 11) /\ r2 = (2%nat, 11) /\
  getLocalVertex (snd r2) c2 = (1%nat, true) /\
  getLocalVertex (snd r2) c2 <> (fst r2, true).
Proof. vm_compute. repeat split; try reflexivity. discriminate. Qed.

Lemma C6_addEdge_twice_witness :
  let '(_, g1, c1) := addEdge 0%nat None 1%nat 2%nat (fst two_vertices) (snd two_vertices) in
  let '((e2, _, _), _, c2) := addEdge 0%nat None 1%nat 2%nat g1 c1 in
  getGlobalEdgeCount e2 c2 = 2.
Proof.
  pose proof (C6_addEdge_twice_aggregates nat nat unit (option nat) 0%nat None
                (fst two_vertices) (snd two_vertices) 1%nat 2%nat) as W.
  vm_compute in W. vm_compute.
  apply W; try reflexivity; discriminate.
Defined.

(** C6 as stated fails when a local edge already connects the two vertices:
    after [addEdge(1, 2)] has been called once, two further calls leave the
    one local edge with three global edges. *)
Lemma C6_counterexample_existing_edge :
  let '(g, c) := connected in
  (1 <> 2)%nat /\ isCluster 1%nat c = false /\ isCluster 2%nat c = false /\
  let '(_, g1, c1) := addEdge 0%nat None 1%nat 2%nat g c in
  let '((e2, _, ok2), _, c2) := addEdge 0%nat None 1%nat 2%nat g1 c1 in
  ok2 = true /\
  map (fun q => length (eb_singles (snd q))) (g_edges c2) = [3%nat] /\
  getGlobalEdgeCount e2 c2 = 3.
Proof. vm_compute. repeat split; discriminate. Qed.

Lemma C7_removeEdge_witness :
  removeEdge (mkGlobalEdge 11 12 20) nested
  = mkClusterGraph
      [(3%nat, mkVertexBundle 14 0%nat None)] []
      [(3%nat,
        mkClusterGraph
          [(1%nat, mkVertexBundle 11 0%nat None); (2%nat, mkVertexBundle 12 0%nat None)]
          [(mkLocalEdge 1%nat 2%nat,
            mkEdgeBundle 5%nat [mkEdgeSingle (Some 1%nat) (mkGlobalEdge 11 12 21)])]
          [] tt false false)]
      tt true false.
Proof.
  assert (Hnd : NoDup (map (edge_id (option nat)) (all_edge_singles nested))).
  { vm_compute. repeat constructor; simpl; intuition discriminate. }
  destruct (C7_removeEdge_drops_one_entry nat nat unit (option nat)
              (mkGlobalEdge 11 12 20) nested [3%nat] nested_child
              [] (mkLocalEdge 1%nat 2%nat)
              (mkEdgeBundle 5%nat
                 [mkEdgeSingle None (mkGlobalEdge 11 12 20);
                  mkEdgeSingle (Some 1%nat) (mkGlobalEdge 11 12 21)])
              [] [] (mkEdgeSingle None (mkGlobalEdge 11 12 20))
              [mkEdgeSingle (Some 1%nat) (mkGlobalEdge 11 12 21)]
              Hnd eq_refl eq_refl eq_refl eq_refl) as [W _].
  rewrite W. reflexivity.
Defined.



Lemma C9_addEdge_same_vertex_witness :
  call_on [] (addEdge 0%nat None 1%nat 1%nat) (mkTree (fst connected) (snd connected))
  = Some ((LocalEdge_null, GlobalEdge_default, false),
          mkTree (fst connected) (snd connected)).
Proof.
  exact (proj2 (C9_addEdge_same_vertex_no_effect nat nat unit (option nat) 0%nat None
                  (mkTree (fst connected) (snd connected)) [] (snd connected)
                  1%nat 1%nat eq_refl eq_refl)).
Defined.

(** ** Further properties of the code in the header

    The identifier generator on arbitrary call sequences, the comparison of
    global edges, and what the two constructors do to the generators. *)

Lemma run_issued_exact cs : forall s,
  no_setCount cs = true ->
  INT_MIN <= counter (gen s) ->
  counter (gen s) + Z.of_nat (count_generate cs) <= INT_MAX ->
  counter (gen (run cs s)) = counter (gen s) + Z.of_nat (count_generate cs) /\
  issued (run cs s)
  = rev (map (fun i => counter (gen s) + Z.of_nat i) (seq 1 (count_generate cs)))
    ++ issued s.
Proof.
  induction cs as [|c cs IH]; intros s Hns Hlo Hhi.
  - cbn. split; [lia|reflexivity].
  - cbn in Hns. apply andb_true_iff in Hns. destruct Hns as [Hc Hns].
    change (run (c :: cs) s) with (run cs (do_call s c)).
    destruct c as [| |n]; cbn in Hc; try discriminate.
    + cbn [count_generate] in *.
      assert (Hg : do_call s Generate
                   = mkObserved (mkIDgen (counter (gen s) + 1))
                       ((counter (gen s) + 1) :: issued s)).
      { unfold do_call. rewrite generate_no_overflow by lia. reflexivity. }
      rewrite Hg. specialize (IH (mkObserved (mkIDgen (counter (gen s) + 1))
                                    ((counter (gen s) + 1) :: issued s)) Hns).
      cbn [gen counter issued] in IH.
      destruct IH as [Hcnt Hiss]; [unfold INT_MIN in *; lia|lia|].
      split; [lia|]. rewrite Hiss.
      cbn [seq map rev]. rewrite <- app_assoc. cbn [app].
      f_equal. f_equal. rewrite <- (seq_shift (count_generate cs) 1), map_map.
      apply map_ext. intros i. lia.
    + cbn [count_generate do_call] in *. apply IH; assumption.
Qed.

(** X1.  From any state, the ids that [generate()] returns are consecutive:
    with the counter at [c], the calls of a sequence without [setCount]
    return [c + 1], [c + 2], ... in this order, as long as the last of them
    does not exceed [INT_MAX]. *)
Theorem X1_generate_consecutive : forall (g : IDgen) (cs : list call),
  no_setCount cs = true ->
  INT_MIN <= counter g ->
  counter g + Z.of_nat (count_generate cs) <= INT_MAX ->
  rev (issued (run cs (start g)))
  = map (fun i => counter g + Z.of_nat i) (seq 1 (count_generate cs)).
Proof.
  intros g cs Hns Hlo Hhi.
  destruct (run_issued_exact cs (start g) Hns Hlo Hhi) as [_ H].
  rewrite H. cbn [start issued gen]. rewrite app_nil_r. apply rev_involutive.
Qed.

Lemma X1_generate_consecutive_witness :
  rev (issued (run [Generate; Count; Generate; Generate] (start (mkIDgen 40))))
  = [41; 42; 43].
Proof.
  apply (X1_generate_consecutive (mkIDgen 40) [Generate; Count; Generate; Generate]).
  - reflexivity.
  - vm_compute. discriminate.
  - vm_compute. discriminate.
Defined.

(** X2.  [count()] is the constructor's argument plus the number of ids
    generated since, as long as [setCount] is not called and the sum stays
    within [int]: ten more than the number of generated ids for the default
    constructor, and that number itself only for [IDgen(0)]. *)
Theorem X2_count_is_start_plus_generated : forall (id0 : universalID) (cs : list call),
  no_setCount cs = true ->
  INT_MIN <= id0 ->
  id0 + Z.of_nat (count_generate cs) <= INT_MAX ->
  let s := run cs (start (IDgen_from id0)) in
  length (issued s) = count_generate cs /\
  count (gen s) = id0 + Z.of_nat (length (issued s)).
Proof.
  intros id0 cs Hns Hlo Hhi s.
  destruct (run_issued_exact cs (start (IDgen_from id0)) Hns Hlo Hhi) as [Hc Hi].
  fold s in Hc, Hi. cbn [start IDgen_from gen counter issued] in Hc, Hi.
  assert (Hlen : length (issued s) = count_generate cs).
  { rewrite Hi, app_nil_r. rewrite length_rev, length_map, length_seq. reflexivity. }
  split; [exact Hlen|]. unfold count. rewrite Hlen. exact Hc.
Qed.

Lemma X2_count_is_start_plus_generated_witness :
  count (gen (run [Generate; Generate; Count; Generate] (start IDgen_new))) = 10 + 3
  /\ count (gen (run [Generate; Generate; Count; Generate] (start (IDgen_from 0)))) = 3.
Proof.
  split.
  - apply (X2_count_is_start_plus_generated 10 [Generate; Generate; Count; Generate]);
      [reflexivity | vm_compute; discriminate | vm_compute; discriminate].
  - apply (X2_count_is_start_plus_generated 0 [Generate; Generate; Count; Generate]);
      [reflexivity | vm_compute; discriminate | vm_compute; discriminate].
Defined.

Lemma StronglySorted_gt_NoDup (l : list Z) : StronglySorted Z.gt l -> NoDup l.
Proof.
  induction 1 as [|a l Hs IH Hall]; constructor; [|exact IH].
  intros Hin. rewrite Forall_forall in Hall. specialize (Hall a Hin). lia.
Qed.

(** Along a run that only moves forward the counter never decreases, every
    id issued is above the counter the run started with and at most the
    counter now, and later ids are larger than earlier ones. *)
Lemma forward_run_invariant cs : forall s,
  forward_run cs (gen s) = true ->
  INT_MIN <= counter (gen s) ->
  Forall (fun x => x <= counter (gen s)) (issued s) ->
  StronglySorted Z.gt (issued s) ->
  counter (gen s) <= counter (gen (run cs s)) /\
  Forall (fun x => x <= counter (gen (run cs s))) (issued (run cs s)) /\
  StronglySorted Z.gt (issued (run cs s)) /\
  exists new, issued (run cs s) = new ++ issued s /\
    Forall (fun x => counter (gen s) < x) new.
Proof.
  induction cs as [|c cs IH]; intros s Hf Hlo Hle Hss.
  - cbn. split; [lia|]. split; [exact Hle|]. split; [exact Hss|].
    exists []. split; [reflexivity|constructor].
  - change (run (c :: cs) s) with (run cs (do_call s c)).
    destruct c as [| |n]; cbn [forward_run] in Hf.
    + apply andb_true_iff in Hf. destruct Hf as [Hlt Hf]. apply Z.ltb_lt in Hlt.
      assert (Hg : generate (gen s)
                   = (counter (gen s) + 1, mkIDgen (counter (gen s) + 1)))
        by (apply generate_no_overflow; lia).
      rewrite Hg in Hf. cbn [snd] in Hf.
      assert (Hd : do_call s Generate
                   = mkObserved (mkIDgen (counter (gen s) + 1))
                       ((counter (gen s) + 1) :: issued s))
        by (unfold do_call; rewrite Hg; reflexivity).
      rewrite Hd.
      destruct (IH (mkObserved (mkIDgen (counter (gen s) + 1))
                      ((counter (gen s) + 1) :: issued s)))
        as [H1 [H2 [H3 [new [H4 H5]]]]]; cbn [gen counter issued] in *.
      * exact Hf.
      * lia.
      * constructor; [lia|]. eapply Forall_impl; [|exact Hle]. cbn. intros; lia.
      * constructor; [exact Hss|]. eapply Forall_impl; [|exact Hle]. cbn. intros; lia.
      * split; [lia|]. split; [exact H2|]. split; [exact H3|].
        exists (new ++ [counter (gen s) + 1]). split.
        -- rewrite H4, <- app_assoc. reflexivity.
        -- apply Forall_app. split.
           ++ eapply Forall_impl; [|exact H5]. cbn. intros; lia.
           ++ constructor; [lia|constructor].
    + cbn [do_call]. apply IH; assumption.
    + apply andb_true_iff in Hf. destruct Hf as [Hb Hf].
      apply andb_true_iff in Hb. destruct Hb as [Hge Hmax].
      apply Z.leb_le in Hge. apply Z.leb_le in Hmax.
      destruct (IH (do_call s (SetCount n)))
        as [H1 [H2 [H3 [new [H4 H5]]]]]; cbn [do_call gen setCount counter issued] in *.
      * exact Hf.
      * lia.
      * eapply Forall_impl; [|exact Hle]. cbn. intros; lia.
      * exact Hss.
      * split; [lia|]. split; [exact H2|]. split; [exact H3|].
        exists new. split; [exact H4|].
        eapply Forall_impl; [|exact H5]. cbn. intros; lia.
Qed.

(** X3.  Used as its comment says (supplying the last created id, that is,
    never a value below the counter), [setCount] keeps the ids unique: in a
    sequence of calls in which every [setCount(n)] has [n] at least the
    current counter and no increment leaves the range of [int], [count()]
    never decreases, every [generate()] returns a larger id than all earlier
    ones, and so no id is issued twice. *)
Theorem X3_forward_setCount_keeps_ids_unique : forall (g : IDgen) (cs : list call),
  forward_run cs g = true ->
  INT_MIN <= counter g ->
  let s := run cs (start g) in
  count g <= count (gen s) /\
  StronglySorted Z.gt (issued s) /\
  NoDup (issued s) /\
  Forall (fun id => count g < id <= count (gen s)) (issued s).
Proof.
  intros g cs Hf Hlo s.
  destruct (forward_run_invariant cs (start g) Hf Hlo (Forall_nil _) (SSorted_nil _))
    as [H1 [H2 [H3 [new [H4 H5]]]]].
  fold s in H1, H2, H3, H4. cbn [start gen issued] in *. rewrite app_nil_r in H4.
  unfold count. split; [exact H1|]. split; [exact H3|].
  split; [apply StronglySorted_gt_NoDup; exact H3|].
  rewrite H4 in H2 |- *. rewrite Forall_forall in *.
  intros x Hx. split; [apply H5; exact Hx|apply H2; exact Hx].
Qed.

Lemma X3_forward_setCount_witness :
  NoDup (issued (run [Generate; SetCount 20; Generate; SetCount 21; Generate]
                   (start IDgen_new))).
Proof.
  apply (X3_forward_setCount_keeps_ids_unique IDgen_new
           [Generate; SetCount 20; Generate; SetCount 21; Generate]).
  - reflexivity.
  - vm_compute. discriminate.
Defined.

(** X4.  The ids a cluster tree's generator hands out are never in the
    reserved range: starting from the default constructor and with [setCount]
    only moving forward, every id issued is at least 11, so a global edge
    carrying it is valid whatever its endpoints; the id 10 would pass
    [valid()] too but is never issued. *)
Theorem X4_issued_ids_are_valid : forall (cs : list call) (id : universalID),
  forward_run cs IDgen_new = true ->
  In id (issued (run cs (start IDgen_new))) ->
  11 <= id /\
  (forall s t : GlobalVertex, valid (mkGlobalEdge s t id) = true) /\
  (forall s t : GlobalVertex, valid (mkGlobalEdge s t 10) = true).
Proof.
  intros cs id Hf Hin.
  assert (Hlo : INT_MIN <= counter IDgen_new) by (vm_compute; discriminate).
  destruct (forward_run_invariant cs (start IDgen_new) Hf Hlo (Forall_nil _) (SSorted_nil _))
    as [_ [_ [_ [new [H4 H5]]]]].
  cbn [start gen issued] in H4, H5. rewrite app_nil_r in H4. rewrite H4 in Hin.
  rewrite Forall_forall in H5. specialize (H5 id Hin). cbn in H5.
  split; [lia|]. split; [|reflexivity].
  intros s t. unfold valid. cbn [ID]. apply Z.gtb_lt. lia.
Qed.

Lemma X4_issued_ids_are_valid_witness :
  valid (mkGlobalEdge 11 12 13) = true.
Proof.
  refine (proj1 (proj2 (X4_issued_ids_are_valid [Generate; Generate; Generate] 13 _ _)) 11 12).
  - reflexivity.
  - vm_compute. left. reflexivity.
Defined.

(** X5.  [operator==] on global edges is an equivalence relation
    (reflexive, symmetric, transitive), and [operator!=] holds exactly when
    [operator==] does not. *)
Theorem X5_GlobalEdge_eq_equivalence : forall a b c : GlobalEdge,
  GlobalEdge_eqb a a = true /\
  GlobalEdge_eqb a b = GlobalEdge_eqb b a /\
  (GlobalEdge_eqb a b = true -> GlobalEdge_eqb b c = true -> GlobalEdge_eqb a c = true) /\
  (GlobalEdge_neqb a b = true <-> GlobalEdge_eqb a b = false).
Proof.
  intros a b c. unfold GlobalEdge_eqb, GlobalEdge_neqb.
  split; [apply Z.eqb_refl|]. split; [apply Z.eqb_sym|]. split.
  - intros H1 H2. apply Z.eqb_eq in H1. apply Z.eqb_eq in H2. apply Z.eqb_eq. congruence.
  - apply negb_true_iff.
Qed.

Lemma X5_GlobalEdge_eq_equivalence_witness :
  GlobalEdge_eqb (mkGlobalEdge 11 12 13) (mkGlobalEdge 30 31 13) = true.
Proof.
  refine (proj1 (proj2 (proj2 (X5_GlobalEdge_eq_equivalence
            (mkGlobalEdge 11 12 13) (mkGlobalEdge 20 21 13) (mkGlobalEdge 30 31 13)))) _ _);
    reflexivity.
Defined.

(** X6.  [valid()] does not tell apart global edges that compare equal. *)
Theorem X6_valid_respects_eq : forall a b : GlobalEdge,
  GlobalEdge_eqb a b = true -> valid a = valid b.
Proof.
  intros a b H. unfold GlobalEdge_eqb in H. apply Z.eqb_eq in H.
  unfold valid. rewrite H. reflexivity.
Qed.

Lemma X6_valid_respects_eq_witness :
  valid (mkGlobalEdge 11 12 13) = valid (mkGlobalEdge 20 21 13).
Proof.
  apply (X6_valid_respects_eq (mkGlobalEdge 11 12 13) (mkGlobalEdge 20 21 13)).
  reflexivity.
Defined.

(** *** Constructors and generators *)

Lemma fresh_pointer_unused (h : GenStore) : assoc_find (fresh_pointer h) h = None.
Proof. apply assoc_find_above. unfold fresh_pointer. apply Nat.lt_succ_diag_r. Qed.

Lemma assoc_find_None_iff {V : Type} k (l : list (nat * V)) :
  assoc_find k l = None <-> ~ In k (map fst l).
Proof.
  induction l as [|[k' x] l IH]; cbn.
  - split; [intros _ []|reflexivity].
  - destruct (Nat.eqb k' k) eqn:E.
    + apply Nat.eqb_eq in E. split; [discriminate|]. intros H. exfalso. apply H. left. exact E.
    + apply Nat.eqb_neq in E. rewrite IH. split.
      * intros H [H'|H']; [exact (E H')|exact (H H')].
      * intros H H'. apply H. right. exact H'.
Qed.

Lemma assoc_replace_keys {V : Type} k (y : V) l :
  map fst (assoc_replace k y l) = map fst l.
Proof.
  induction l as [|[k' x] l IH]; cbn; [reflexivity|].
  destruct (Nat.eqb k' k); cbn; [reflexivity|]. rewrite IH. reflexivity.
Qed.

Lemma ClusterGraph_ctor_from_parent p h :
  ClusterGraph_ctor_from (Some p) h = (p, h).
Proof.
  unfold ClusterGraph_ctor_from, new_IDgen, release.
  rewrite (assoc_remove_app_last _ _ _ (fresh_pointer_unused h)). reflexivity.
Qed.

(** X7.  A cluster constructed with a parent ends up with the parent's
    generator and nothing else changes: the generator its member initialiser
    allocated is destroyed again, so the live generators and their counters
    are exactly those before the call; an id generated through the child is
    what [count()] then returns through the parent. *)
Theorem X7_child_shares_parent_generator : forall (h : GenStore) (p : IDpointer),
  let child := fst (ClusterGraph_ctor_from (Some p) h) in
  let h' := snd (ClusterGraph_ctor_from (Some p) h) in
  child = p /\ h' = h /\
  (forall id h2, generate_at child h' = Some (id, h2) ->
     count_at p h2 = Some id /\ map fst h2 = map fst h).
Proof.
  intros h p child h'. subst child h'.
  rewrite ClusterGraph_ctor_from_parent. cbn [fst snd].
  split; [reflexivity|]. split; [reflexivity|].
  intros id h2 Hg. unfold generate_at in Hg.
  destruct (assoc_find p h) as [g|] eqn:Eg; [|discriminate].
  unfold generate in Hg. injection Hg as <- <-.
  split; [|apply assoc_replace_keys].
  unfold count_at. rewrite (assoc_find_replace p g _ h Eg). reflexivity.
Qed.

Lemma X7_child_shares_parent_generator_witness :
  count_at 1%nat (assoc_replace 1%nat (mkIDgen 11) (snd (ClusterGraph_ctor []))) = Some 11.
Proof.
  refine (proj1 (proj2 (proj2 (X7_child_shares_parent_generator
            (snd (ClusterGraph_ctor [])) 1%nat)) 11 _ _)).
  reflexivity.
Defined.

(** X8.  Clusters constructed without a parent, by the basic constructor or
    with a null pointer, get generators of their own: the two pointers
    differ, each counter starts at 10, generating in one tree leaves the
    other's counter alone, and both trees hand out 11 as their first id, so
    ids are unique within one tree only. *)
Theorem X8_roots_have_independent_generators : forall h : GenStore,
  let p1 := fst (ClusterGraph_ctor h) in
  let h1 := snd (ClusterGraph_ctor h) in
  let p2 := fst (ClusterGraph_ctor_from None h1) in
  let h2 := snd (ClusterGraph_ctor_from None h1) in
  p1 <> p2 /\
  count_at p1 h2 = Some 10 /\ count_at p2 h2 = Some 10 /\
  exists h3 h4,
    generate_at p1 h2 = Some (11, h3) /\
    count_at p2 h3 = Some 10 /\
    generate_at p2 h3 = Some (11, h4) /\
    (forall q, In q (map fst h) -> assoc_find q h4 = assoc_find q h).
Proof.
  intros h p1 h1 p2 h2.
  assert (Hp1 : p1 = fresh_pointer h) by reflexivity.
  assert (Hh1 : h1 = h ++ [(p1, IDgen_new)]) by reflexivity.
  assert (Hp2 : p2 = fresh_pointer h1) by reflexivity.
  assert (Hh2 : h2 = h1 ++ [(p2, IDgen_new)]) by reflexivity.
  clearbody p1 h1 p2 h2.
  assert (Hf1 : assoc_find p1 h = None) by (rewrite Hp1; apply fresh_pointer_unused).
  assert (Hf2 : assoc_find p2 h1 = None) by (rewrite Hp2; apply fresh_pointer_unused).
  assert (H11 : assoc_find p1 h1 = Some IDgen_new).
  { rewrite Hh1, assoc_find_app, Hf1. cbn. rewrite Nat.eqb_refl. reflexivity. }
  assert (Hne : p1 <> p2).
  { intros E. rewrite <- E, H11 in Hf2. discriminate. }
  assert (H12 : assoc_find p1 h2 = Some IDgen_new).
  { rewrite Hh2, assoc_find_app, H11. reflexivity. }
  assert (H22 : assoc_find p2 h2 = Some IDgen_new).
  { rewrite Hh2, assoc_find_app, Hf2. cbn. rewrite Nat.eqb_refl. reflexivity. }
  split; [exact Hne|].
  split; [unfold count_at; rewrite H12; reflexivity|].
  split; [unfold count_at; rewrite H22; reflexivity|].
  exists (assoc_replace p1 (mkIDgen 11) h2),
         (assoc_replace p2 (mkIDgen 11) (assoc_replace p1 (mkIDgen 11) h2)).
  assert (H23 : assoc_find p2 (assoc_replace p1 (mkIDgen 11) h2) = Some IDgen_new).
  { rewrite assoc_find_replace_other; [exact H22|]. intros E. apply Hne. symmetry. exact E. }
  split; [unfold generate_at; rewrite H12; reflexivity|].
  split; [unfold count_at; rewrite H23; reflexivity|].
  split; [unfold generate_at; rewrite H23; reflexivity|].
  intros q Hq.
  assert (Hq1 : q <> p1).
  { intros E. subst q. apply (proj1 (assoc_find_None_iff p1 h) Hf1). exact Hq. }
  assert (Hq2 : q <> p2).
  { intros E. subst q. apply (proj1 (assoc_find_None_iff p2 h1) Hf2).
    rewrite Hh1, map_app. apply in_or_app. left. exact Hq. }
  rewrite !assoc_find_replace_other by assumption.
  rewrite Hh2, Hh1, !assoc_find_app.
  destruct (assoc_find q h) as [g|] eqn:E; [reflexivity|].
  exfalso. apply (proj1 (assoc_find_None_iff q h) E). exact Hq.
Qed.

Lemma X8_roots_have_independent_generators_witness :
  fst (ClusterGraph_ctor [(1%nat, mkIDgen 30)])
  <> fst (ClusterGraph_ctor_from None (snd (ClusterGraph_ctor [(1%nat, mkIDgen 30)]))).
Proof.
  exact (proj1 (X8_roots_have_independent_generators [(1%nat, mkIDgen 30)])).
Defined.

Lemma nth_error_snoc {A : Type} (l : list A) (x : A) i c :
  nth_error (l ++ [x]) i = Some c ->
  nth_error l i = Some c \/ (i = length l /\ c = x).
Proof.
  intros H. destruct (Nat.lt_ge_cases i (length l)) as [Hlt|Hge].
  - left. rewrite nth_error_app1 in H by exact Hlt. exact H.
  - right. rewrite nth_error_app2 in H by exact Hge.
    destruct (i - length l)%nat as [|k] eqn:E; cbn in H.
    + injection H as <-. split; [lia|reflexivity].
    + destruct k; discriminate.
Qed.

Lemma NoDup_snoc {A : Type} (l : list A) (x : A) :
  NoDup l -> ~ In x l -> NoDup (l ++ [x]).
Proof.
  induction l as [|a l IH]; cbn; intros Hl Hx.
  - constructor; [intros []|constructor].
  - inversion Hl as [|? ? Ha Hl']; subst. constructor.
    + intros Hin. apply in_app_or in Hin. destruct Hin as [Hin|[E|[]]].
      * exact (Ha Hin).
      * apply Hx. left. symmetry. exact E.
    + apply IH; [exact Hl'|]. intros Hin. apply Hx. right. exact Hin.
Qed.

(** X9.  Whatever clusters are constructed, in whatever order, and whatever
    is generated in between: the generator of every cluster is live, a
    cluster constructed with a parent has the generator of that parent (and
    so, up the chain, of the root of its tree), and there are exactly as many
    generators as clusters constructed without a parent, at pairwise
    different addresses. *)
Theorem X9_one_generator_per_tree : forall (h : GenStore) (cs : list cluster_head),
  constructed h cs ->
  (forall i c, nth_error cs i = Some c -> count_at (m_id c) h <> None) /\
  (forall i c j, nth_error cs i = Some c -> m_parent c = Some j ->
     (j < i)%nat /\ exists pc, nth_error cs j = Some pc /\ m_id pc = m_id c) /\
  length h = length (filter is_parentless cs) /\
  NoDup (map fst h).
Proof.
  assert (Hlive : forall (h : GenStore) p, count_at p h <> None <-> In p (map fst h)).
  { intros h p. unfold count_at. pose proof (assoc_find_None_iff p h) as H.
    destruct (assoc_find p h) as [g|]; cbn.
    - split; [intros _|discriminate].
      destruct (in_dec Nat.eq_dec p (map fst h)) as [Hin|Hn]; [exact Hin|].
      apply H in Hn. discriminate.
    - split; [intros H'; exfalso; apply H'; reflexivity|].
      intros Hin H'. apply (proj1 H eq_refl). exact Hin. }
  assert (Hroot : forall h cs,
    (forall i c, nth_error cs i = Some c -> count_at (m_id c) h <> None) /\
    (forall i c j, nth_error cs i = Some c -> m_parent c = Some j ->
       (j < i)%nat /\ exists pc, nth_error cs j = Some pc /\ m_id pc = m_id c) /\
    length h = length (filter is_parentless cs) /\
    NoDup (map fst h) ->
    let h' := h ++ [(fresh_pointer h, IDgen_new)] in
    let cs' := cs ++ [mkClusterHead None (fresh_pointer h)] in
    (forall i c, nth_error cs' i = Some c -> count_at (m_id c) h' <> None) /\
    (forall i c j, nth_error cs' i = Some c -> m_parent c = Some j ->
       (j < i)%nat /\ exists pc, nth_error cs' j = Some pc /\ m_id pc = m_id c) /\
    length h' = length (filter is_parentless cs') /\
    NoDup (map fst h')).
  { intros h cs [H1 [H2 [H3 H4]]] h' cs'. subst h' cs'.
    split; [|split; [|split]].
    - intros i c Hc. apply Hlive. rewrite map_app. apply in_or_app.
      apply nth_error_snoc in Hc. destruct Hc as [Hc|[_ ->]].
      + left. apply Hlive. exact (H1 i c Hc).
      + right. left. reflexivity.
    - intros i c j Hc Hp. apply nth_error_snoc in Hc. destruct Hc as [Hc|[_ ->]].
      + destruct (H2 i c j Hc Hp) as [Hlt [pc [Hpc Hid]]]. split; [exact Hlt|].
        exists pc. split; [|exact Hid].
        rewrite nth_error_app1; [exact Hpc|]. apply nth_error_Some. congruence.
      + discriminate.
    - rewrite filter_app, !length_app, H3. reflexivity.
    - rewrite map_app. cbn [map fst]. apply NoDup_snoc; [exact H4|].
      apply assoc_find_None_iff. apply fresh_pointer_unused. }
  assert (Hkeys : forall (h h' : GenStore) cs,
    map fst h' = map fst h ->
    (forall i c, nth_error cs i = Some c -> count_at (m_id c) h <> None) /\
    (forall i c j, nth_error cs i = Some c -> m_parent c = Some j ->
       (j < i)%nat /\ exists pc, nth_error cs j = Some pc /\ m_id pc = m_id c) /\
    length h = length (filter is_parentless cs) /\
    NoDup (map fst h) ->
    (forall i c, nth_error cs i = Some c -> count_at (m_id c) h' <> None) /\
    (forall i c j, nth_error cs i = Some c -> m_parent c = Some j ->
       (j < i)%nat /\ exists pc, nth_error cs j = Some pc /\ m_id pc = m_id c) /\
    length h' = length (filter is_parentless cs) /\
    NoDup (map fst h')).
  { intros h h' cs Hk [H1 [H2 [H3 H4]]]. split; [|split; [exact H2|split]].
    - intros i c Hc. apply Hlive. rewrite Hk. apply Hlive. exact (H1 i c Hc).
    - rewrite <- H3. rewrite <- (length_map fst h'), Hk. apply length_map.
    - rewrite Hk. exact H4. }
  induction 1 as [|h cs Hc IH|h cs Hc IH|h cs j parent Hc IH Hj
                  |h cs i c id h' Hc IH Hi Hg|h cs i c n h' Hc IH Hi Hs].
  - split; [intros [|i] c H; discriminate|].
    split; [intros [|i] c j H; discriminate|]. split; [reflexivity|constructor].
  - exact (Hroot h cs IH).
  - exact (Hroot h cs IH).
  - rewrite ClusterGraph_ctor_from_parent. cbn [fst snd].
    destruct IH as [H1 [H2 [H3 H4]]]. split; [|split; [|split]].
    + intros i c Hc'. apply nth_error_snoc in Hc'. destruct Hc' as [Hc'|[_ ->]].
      * exact (H1 i c Hc').
      * cbn [m_id]. exact (H1 j parent Hj).
    + intros i c k Hc' Hp. apply nth_error_snoc in Hc'. destruct Hc' as [Hc'|[-> ->]].
      * destruct (H2 i c k Hc' Hp) as [Hlt [pc [Hpc Hid]]]. split; [exact Hlt|].
        exists pc. split; [|exact Hid].
        rewrite nth_error_app1; [exact Hpc|]. apply nth_error_Some. congruence.
      * cbn [m_parent] in Hp. injection Hp as <-.
        assert (Hlt : (j < length cs)%nat) by (apply nth_error_Some; congruence).
        split; [exact Hlt|]. exists parent. split; [|reflexivity].
        rewrite nth_error_app1 by exact Hlt. exact Hj.
    + rewrite filter_app. cbn. rewrite app_nil_r. exact H3.
    + exact H4.
  - apply (Hkeys h h' cs); [|exact IH].
    unfold generate_at in Hg. destruct (assoc_find (m_id c) h) as [g|]; [|discriminate].
    unfold generate in Hg. injection Hg as _ <-. apply assoc_replace_keys.
  - apply (Hkeys h h' cs); [|exact IH].
    unfold setCount_at in Hs. destruct (assoc_find (m_id c) h) as [g|]; [|discriminate].
    injection Hs as <-. apply assoc_replace_keys.
Qed.

Lemma X9_one_generator_per_tree_witness :
  length (snd (ClusterGraph_ctor_from (Some 1%nat) (snd (ClusterGraph_ctor [])))) = 1%nat.
Proof.
  exact (proj1 (proj2 (proj2
    (X9_one_generator_per_tree _ _
       (constructed_child _ _ 0%nat (mkClusterHead None 1%nat)
          (constructed_root _ _ constructed_nothing) eq_refl))))).
Defined.
